(** * Roulette table server: the game-state engine of [server.js]

    A shallow embedding of the socket handlers of the roulette server
    (join, setWeight, dealerLogin, disconnect, select, openBets, closeBets,
    spin, emitLeaderboard, isRed, isBlack) and the properties of the
    specification that were checked against it; then the rest of the
    server (the reading of [users.txt], [POST /verify-code], the messages
    the handlers emit, the previous version of the spin) and the pure
    parts of the client (the login, the dealer flag, colours, slices, the
    angles of the animation, the spin button), with the properties the
    code shows.

    Modelling conventions.
    - JavaScript numbers are exact: a finite number is a rational [Q], next
      to [NaN] and the two infinities.  Rounding of IEEE doubles is not
      modelled; [-0] and [0] are the same number (the code never tells them
      apart: [===], [<=], array indexing and [includes] all identify them).
    - Strings are ASCII strings; [trim] removes the ASCII white space and
      line terminators, [toLowerCase] folds [A-Z].
    - A bet is any value an event can carry.  The other payloads have the
      types of the interface: the identifier of [join] is a string, the
      weight of [setWeight] a number, [clientRandoms] an array of finite
      numbers.
    - A JavaScript object used as a dictionary with socket ids or
      ['u:' + code] keys enumerates in insertion order (socket ids are
      neither array indices nor names of [Object.prototype]); it is an
      association list [odict].  The object [highWeightNumbers] has keys
      among 0..36, which enumerate in ascending numeric order; it is a
      sorted association list [idict].  Dictionaries that are only looked
      up ([usersByCode], [usersStatus], [weightBySocket]) are [gmap]s.
    - [Math.random()] is an argument [r] of the spin.
    - A handler that throws stops there; what it wrote before stays
      written. *)

From Stdlib Require Import ZArith QArith Qround Qpower Qminmax Lqa Lia.
From Stdlib Require Import List String Ascii Bool Sorted.
From Stdlib Require Import Decimal DecimalString DecimalNat.
From stdpp Require Import base option list gmap strings.
Import ListNotations.

Local Open Scope Q_scope.
Local Open Scope Z_scope.
Local Open Scope list_scope.

(* ===================================================================== *)
(** ** JavaScript values *)
(* ===================================================================== *)

Module Js.

(** Numbers. *)
Inductive num : Type :=
| NaN : num
| Inf (negative : bool) : num
| Fin (q : Q) : num.

(** Values a socket.io event can carry (JSON data); [VObj] stands for any
    array or object, of which the handlers only use that it is neither a
    number nor a string. *)
Inductive value : Type :=
| VUndefined : value
| VNull : value
| VBool (b : bool) : value
| VNum (x : num) : value
| VStr (s : string) : value
| VObj : value.

Definition ofZ (z : Z) : num := Fin (inject_Z z).
Definition ofNat (n : nat) : num := ofZ (Z.of_nat n).

Definition isNaN (x : num) : bool :=
  match x with NaN => true | _ => false end.

(** [x === y] on numbers. *)
Definition num_seq (x y : num) : bool :=
  match x, y with
  | Fin a, Fin b => Qeq_bool a b
  | Inf s, Inf t => Bool.eqb s t
  | _, _ => false
  end.

(** [x <= y] on numbers. *)
Definition num_le (x y : num) : bool :=
  match x, y with
  | NaN, _ | _, NaN => false
  | Fin a, Fin b => Qle_bool a b
  | Inf true, _ => true
  | _, Inf false => true
  | _, _ => false
  end.

(** [x >= y]. *)
Definition num_ge (x y : num) : bool := num_le y x.

(** [x === y] on values ([VObj] is opaque: reference equality of two
    freshly decoded objects is false). *)
Definition seq (x y : value) : bool :=
  match x, y with
  | VUndefined, VUndefined => true
  | VNull, VNull => true
  | VBool a, VBool b => Bool.eqb a b
  | VNum a, VNum b => num_seq a b
  | VStr a, VStr b => String.eqb a b
  | _, _ => false
  end.

(** [Math.floor]. *)
Definition floor (x : num) : num :=
  match x with
  | Fin q => ofZ (Qfloor q)
  | _ => x
  end.

(** [x * k] for a finite constant [k > 0]. *)
Definition scale (x : num) (k : Q) : num :=
  match x with
  | Fin q => Fin (q * k)%Q
  | _ => x
  end.

(** *** Strings *)

Definition is_ws (c : ascii) : bool :=
  let n := nat_of_ascii c in
  ((n =? 9) || (n =? 10) || (n =? 11) || (n =? 12) || (n =? 13) || (n =? 32))%nat.

Fixpoint dropWs (l : list ascii) : list ascii :=
  match l with
  | c :: t => if is_ws c then dropWs t else l
  | [] => []
  end.

Definition trimChars (l : list ascii) : list ascii :=
  rev (dropWs (rev (dropWs l))).

(** [s.trim()] *)
Definition trim (s : string) : string :=
  string_of_list_ascii (trimChars (list_ascii_of_string s)).

Definition lowerChar (c : ascii) : ascii :=
  let n := nat_of_ascii c in
  if ((65 <=? n) && (n <=? 90))%nat then ascii_of_nat (n + 32) else c.

(** [s.toLowerCase()] *)
Definition toLowerCase (s : string) : string :=
  string_of_list_ascii (map lowerChar (list_ascii_of_string s)).

(** *** [Number(s)] on a string: the StringToNumber grammar *)

Definition digitOf (base : nat) (c : ascii) : option nat :=
  let n := nat_of_ascii c in
  let d :=
    if ((48 <=? n) && (n <=? 57))%nat then Some (n - 48)%nat
    else if ((97 <=? n) && (n <=? 102))%nat then Some (n - 87)%nat
    else if ((65 <=? n) && (n <=? 70))%nat then Some (n - 55)%nat
    else None in
  match d with
  | Some v => if (v <? base)%nat then Some v else None
  | None => None
  end.

(** The longest prefix of digits, and what follows it. *)
Fixpoint takeDigits (base : nat) (l : list ascii) : list nat * list ascii :=
  match l with
  | c :: t =>
      match digitOf base c with
      | Some d => let '(ds, rest) := takeDigits base t in (d :: ds, rest)
      | None => ([], l)
      end
  | [] => ([], [])
  end.

Definition digitsValue (base : nat) (ds : list nat) : Z :=
  fold_left (fun a d => Z.of_nat base * a + Z.of_nat d) ds 0.

Definition isChar (c : ascii) (x : string) : bool :=
  String.eqb (String c EmptyString) x.

(** An optional ExponentPart that must reach the end of the string. *)
Definition parseExponent (l : list ascii) : option Z :=
  match l with
  | [] => Some 0
  | c :: t =>
      if isChar c "e" || isChar c "E" then
        let '(neg, t') :=
          match t with
          | s :: u => if isChar s "-" then (true, u)
                      else if isChar s "+" then (false, u) else (false, t)
          | [] => (false, t)
          end in
        match takeDigits 10 t' with
        | (d :: ds, []) =>
            let e := digitsValue 10 (d :: ds) in Some (if neg then - e else e)
        | _ => None
        end
      else None
  end.

(** StrUnsignedDecimalLiteral other than [Infinity]. *)
Definition parseDecimal (l : list ascii) : option Q :=
  let '(ip, rest) := takeDigits 10 l in
  let '(fp, rest') :=
    match rest with
    | c :: t => if isChar c "." then takeDigits 10 t else ([], rest)
    | [] => ([], rest)
    end in
  match ip ++ fp with
  | [] => None
  | _ :: _ =>
      match parseExponent rest' with
      | Some e =>
          Some (inject_Z (digitsValue 10 (ip ++ fp))
                * Qpower 10 (e - Z.of_nat (length fp)))%Q
      | None => None
      end
  end.

Definition parseRadix (base : nat) (l : list ascii) : num :=
  match takeDigits base l with
  | (d :: ds, []) => ofZ (digitsValue base (d :: ds))
  | _ => NaN
  end.

Definition parseSigned (neg : bool) (l : list ascii) : num :=
  if String.eqb (string_of_list_ascii l) "Infinity" then Inf neg
  else match parseDecimal l with
       | Some q => Fin (if neg then - q else q)%Q
       | None => NaN
       end.

Definition parseNumeric (l : list ascii) : num :=
  match l with
  | [] => ofZ 0
  | c :: t =>
      if isChar c "-" then parseSigned true t
      else if isChar c "+" then parseSigned false t
      else
        match t with
        | p :: u =>
            if isChar c "0" && (isChar p "x" || isChar p "X") then parseRadix 16 u
            else if isChar c "0" && (isChar p "o" || isChar p "O") then parseRadix 8 u
            else if isChar c "0" && (isChar p "b" || isChar p "B") then parseRadix 2 u
            else parseSigned false l
        | [] => parseSigned false l
        end
  end.

(** [Number(s)] for a string [s]. *)
Definition Number (s : string) : num :=
  parseNumeric (trimChars (list_ascii_of_string s)).

End Js.

(* ===================================================================== *)
(** ** Dictionaries *)
(* ===================================================================== *)

(** An object keyed by socket ids (or ['u:' + code]): insertion order. *)
Abbreviation odict V := (list (string * V)).

Section Odict.
Context {V : Type}.

(** [o[k]] *)
Fixpoint oget (o : odict V) (k : string) : option V :=
  match o with
  | [] => None
  | (k', v) :: t => if String.eqb k' k then Some v else oget t k
  end.

(** [o[k] = v]: an existing key keeps its place. *)
Fixpoint oset (o : odict V) (k : string) (v : V) : odict V :=
  match o with
  | [] => [(k, v)]
  | (k', v') :: t =>
      if String.eqb k' k then (k', v) :: t else (k', v') :: oset t k v
  end.

(** [delete o[k]] *)
Fixpoint odel (o : odict V) (k : string) : odict V :=
  match o with
  | [] => []
  | (k', v') :: t =>
      if String.eqb k' k then odel t k else (k', v') :: odel t k
  end.

Definition okeys (o : odict V) : list string := map fst o.
End Odict.

(** An object keyed by the numbers 0..36: ascending numeric order. *)
Definition idict : Type := list (nat * nat).

Fixpoint iget (o : idict) (n : nat) : option nat :=
  match o with
  | [] => None
  | (k, v) :: t => if (k =? n)%nat then Some v else iget t n
  end.

Fixpoint iset (o : idict) (n : nat) (v : nat) : idict :=
  match o with
  | [] => [(n, v)]
  | (k, x) :: t =>
      if (k =? n)%nat then (k, v) :: t
      else if (n <? k)%nat then (n, v) :: (k, x) :: t
      else (k, x) :: iset t n v
  end.

(* ===================================================================== *)
(** ** The wheel *)
(* ===================================================================== *)

Definition redNumbers : list Z :=
  [1;3;5;7;9;12;14;16;18;19;21;23;25;27;30;32;34;36].

(** [isRed(n)]: [[1,3,...,36].includes(n)] *)
Definition isRed (n : Js.num) : bool :=
  existsb (fun z => Js.num_seq (Js.ofZ z) n) redNumbers.

(** [isBlack(n)]: [n !== 0 && !isRed(n)] *)
Definition isBlack (n : Js.num) : bool :=
  negb (Js.num_seq n (Js.ofZ 0)) && negb (isRed n).

(* ===================================================================== *)
(** ** The spin: bets, weights and the draw *)
(* ===================================================================== *)

Definition sid : Type := string.

(** An entry of [selections]: [{ name, bet }]; the name is undefined for a
    socket that never joined. *)
Record selection : Type := Selection {
  sel_name : option string;
  sel_bet : Js.value
}.

(** The normalisation both loops of [spin] apply to a stored bet. *)
Definition normalizeBet (bet : Js.value) : Js.value :=
  match bet with
  | Js.VStr s =>
      let num := Js.Number s in
      if negb (Js.isNaN num) then Js.VNum num
      else Js.VStr (Js.toLowerCase (Js.trim s))
  | _ => bet
  end.

(** [bettorsByNumber], [bettorsByColor], [anyNumeric], [anyColor].
    ([colorInfo], which [spin] also fills, is never read and is left out.) *)
Record buckets : Type := Buckets {
  bettorsByNumber : list (list sid);
  bettorsRed : list sid;
  bettorsBlack : list sid;
  anyNumeric : bool;
  anyColor : bool
}.

Definition emptyBuckets : buckets :=
  Buckets (repeat [] 37) [] [] false false.

(** The element of a 37-element array that the number [q] (already known
    to lie in [0, 36]) designates as a property key: an integer designates
    its slot, any other number designates no element. *)
Definition arraySlot (q : Q) : option nat :=
  if Qeq_bool q (inject_Z (Qfloor q)) then Some (Z.to_nat (Qfloor q)) else None.

(** One iteration of [for (const sid in selections)].  [None] is the
    TypeError of [bettorsByNumber[bet].push(sid)] when [bettorsByNumber[bet]]
    is undefined. *)
Definition addBet (b : buckets) (s : sid) (bet : Js.value) : option buckets :=
  let bet := normalizeBet bet in
  match bet with
  | Js.VNum x =>
      if Js.num_ge x (Js.ofZ 0) && Js.num_le x (Js.ofZ 36) then
        match x with
        | Js.Fin q =>
            match arraySlot q with
            | Some n =>
                Some (Buckets (alter (fun l => l ++ [s]) n (bettorsByNumber b))
                        (bettorsRed b) (bettorsBlack b) true (anyColor b))
            | None => None
            end
        | _ => None
        end
      else Some b
  | Js.VStr c =>
      if String.eqb c "red" then
        Some (Buckets (bettorsByNumber b) (bettorsRed b ++ [s]) (bettorsBlack b)
                (anyNumeric b) true)
      else if String.eqb c "black" then
        Some (Buckets (bettorsByNumber b) (bettorsRed b) (bettorsBlack b ++ [s])
                (anyNumeric b) true)
      else Some b
  | _ => Some b
  end.

Fixpoint classifyBets (b : buckets) (sel : odict selection) : option buckets :=
  match sel with
  | [] => Some b
  | (s, e) :: t =>
      match addBet b s (sel_bet e) with
      | Some b' => classifyBets b' t
      | None => None
      end
  end.

(** [weightBySocket[sid] !== undefined ? Number(weightBySocket[sid]) : 1];
    the only writer, [setWeight], stores finite numbers. *)
Definition weightOf (w : gmap sid Q) (s : sid) : Q :=
  match w !! s with Some x => x | None => 1%Q end.

Definition isHigh (w : gmap sid Q) (s : sid) : bool := Qle_bool 2 (weightOf w s).

(** The count of bettors of weight [>= 2] in a list of socket ids. *)
Definition countHigh (w : gmap sid Q) (sids : list sid) : nat :=
  fold_left (fun c s => if isHigh w s then (c + 1)%nat else c) sids 0%nat.

(** [(highWeightNumbers[n] || 0) + c] *)
Definition bump (hw : idict) (n c : nat) : idict :=
  iset hw n (match iget hw n with Some x => x | None => 0 end + c)%nat.

Definition wheel : list nat := List.seq 0 37.

Definition highNumeric (b : buckets) (w : gmap sid Q) : idict :=
  fold_left (fun hw n =>
               let count := countHigh w (nth n (bettorsByNumber b) []) in
               if (0 <? count)%nat then bump hw n count else hw)
            wheel [].

Definition highColor (p : Js.num -> bool) (c : nat) (hw : idict) : idict :=
  if (0 <? c)%nat then
    fold_left (fun hw n => if p (Js.ofNat n) then bump hw n c else hw) wheel hw
  else hw.

Definition highWeightNumbers (b : buckets) (w : gmap sid Q) : idict :=
  let highRed := countHigh w (bettorsRed b) in
  let highBlack := countHigh w (bettorsBlack b) in
  highColor isBlack highBlack (highColor isRed highRed (highNumeric b w)).

Definition ofCount (c : nat) : Q := inject_Z (Z.of_nat c).

(** The loop shared by both draws:
    [acc += x / total; if (r <= acc) { winningNumber = k; break; }] *)
Fixpoint cdfLoop (r acc total : Q) (es : list (nat * Q)) : option nat :=
  match es with
  | [] => None
  | (k, x) :: t =>
      let acc' := (acc + x / total)%Q in
      if Qle_bool r acc' then Some k else cdfLoop r acc' total t
  end.

Definition sumQ (l : list Q) : Q := fold_left Qplus l 0%Q.

Definition highEntries (hw : idict) : list (nat * Q) :=
  map (fun e => (fst e, ofCount (snd e))) hw.

(** The draw among [highWeightNumbers]. *)
Definition drawHigh (r : Q) (hw : idict) : Js.num :=
  let totalHigh := sumQ (map snd (highEntries hw)) in
  match cdfLoop r 0 totalHigh (highEntries hw) with
  | Some n => Js.ofNat n
  | None =>
      match hw with
      | (n, _) :: _ => Js.ofNat n
      | [] => Js.NaN
      end
  end.

(** [sumPos] after the loop over [sids], starting from [s0]. *)
Definition sumPos (w : gmap sid Q) (s0 : Q) (sids : list sid) : Q :=
  fold_left (fun s x => if negb (Qle_bool (weightOf w x) 0)
                        then (s + weightOf w x)%Q else s) sids s0.

Definition colorSids (b : buckets) (n : nat) : list sid :=
  if isRed (Js.ofNat n) then bettorsRed b
  else if isBlack (Js.ofNat n) then bettorsBlack b
  else [].

(** [weights[n]] of the normal weighted selection. *)
Definition numberWeight (b : buckets) (w : gmap sid Q) (n : nat) : Q :=
  let numericSids := nth n (bettorsByNumber b) [] in
  let hasAnyBettor :=
    ((0 <? length numericSids) || (0 <? length (colorSids b n)))%nat in
  let sp := sumPos w (sumPos w 0 numericSids) (colorSids b n) in
  if negb hasAnyBettor then 1%Q
  else if Qle_bool sp 0 then 0%Q
  else (1 + sp)%Q.

Definition weights (b : buckets) (w : gmap sid Q) : list Q :=
  map (numberWeight b w) wheel.

(** [Math.floor(avg * 37)] *)
Definition floor37 (x : Js.num) : Js.num := Js.floor (Js.scale x 37).

Definition drawNormal (r : Q) (avg : Js.num) (b : buckets) (w : gmap sid Q) : Js.num :=
  let ws := weights b w in
  let total := sumQ ws in
  if Qle_bool total 0 then floor37 avg
  else
    match cdfLoop r 0 total (combine wheel ws) with
    | Some i => Js.ofNat i
    | None => floor37 (Js.Fin r)
    end.

(** [clientRandoms.reduce((a, b) => a + b, 0) / clientRandoms.length];
    for the empty array this is [0 / 0]. *)
Definition average (clientRandoms : list Q) : Js.num :=
  match clientRandoms with
  | [] => Js.NaN
  | _ :: _ => Js.Fin (sumQ clientRandoms / inject_Z (Z.of_nat (length clientRandoms)))
  end.

(** [winningNumber] as computed by [spin] from the classified bets. *)
Definition selectWinner (b : buckets) (w : gmap sid Q) (avg : Js.num) (r : Q) : Js.num :=
  if anyNumeric b || anyColor b then
    let hw := highWeightNumbers b w in
    if (0 <? length hw)%nat then drawHigh r hw
    else drawNormal r avg b w
  else floor37 avg.

Inductive outcome : Type := WIN | COLOR_ONLY | COLOR | LOSE.

(** The body of the [results] loop for one stored bet. *)
Definition classify (bet : Js.value) (winningNumber : Js.num) : outcome :=
  let bet := normalizeBet bet in
  if Js.seq bet (Js.VNum winningNumber) then WIN
  else if Js.seq bet (Js.VStr "red") || Js.seq bet (Js.VStr "black") then
    if (Js.seq bet (Js.VStr "red") && isRed winningNumber)
       || (Js.seq bet (Js.VStr "black") && isBlack winningNumber)
    then COLOR_ONLY else LOSE
  else
    match bet with
    | Js.VNum x =>
        if (isRed x && isRed winningNumber) || (isBlack x && isBlack winningNumber)
        then COLOR else LOSE
    | _ => LOSE
    end.

Definition spinResults (sel : odict selection) (winningNumber : Js.num) : odict outcome :=
  fold_left (fun res e => oset res (fst e) (classify (sel_bet (snd e)) winningNumber))
            sel [].

(** [lastSpinResult]: [{ winningNumber, results }] *)
Record spinResult : Type := SpinResult {
  winningNumber : Js.num;
  results : odict outcome
}.

(** The outcome of the spin's computation on a ledger: [None] when the
    classification of the bets throws. *)
Definition computeSpin (sel : odict selection) (w : gmap sid Q)
    (clientRandoms : list Q) (r : Q) : option spinResult :=
  match classifyBets emptyBuckets sel with
  | Some b =>
      let win := selectWinner b w (average clientRandoms) r in
      Some (SpinResult win (spinResults sel win))
  | None => None
  end.

(* ===================================================================== *)
(** ** The engine state and the socket handlers *)
(* ===================================================================== *)

(** What the start-up code loads from [users.txt]. *)
Record registry : Type := Registry {
  usersByCode : gmap string string;
  usersOrder : list string;
  DEALER_CODE : option string
}.

Record status : Type := Status {
  connected : bool;
  socketId : option sid
}.

Record conninfo : Type := ConnInfo {
  ci_name : option string;
  ci_code : option string
}.

(** [socket.data] *)
Record sockdata : Type := SockData {
  data_name : option string;
  data_code : option string
}.

Record state : Type := State {
  dealerSocket : option sid;
  betsOpen : bool;
  selections : odict selection;
  weightBySocket : gmap sid Q;
  lastSpinResult : option spinResult;
  spinning : bool;
  connectedSockets : odict conninfo;
  usersStatus : gmap string status;
  sockets : gmap sid sockdata;      (* [socket.data] of every open socket *)
  timers : nat                      (* pending [setTimeout] callbacks *)
}.

Definition withDealer (st : state) (d : option sid) : state :=
  State d (betsOpen st) (selections st) (weightBySocket st) (lastSpinResult st)
    (spinning st) (connectedSockets st) (usersStatus st) (sockets st) (timers st).
Definition withBetsOpen (st : state) (b : bool) : state :=
  State (dealerSocket st) b (selections st) (weightBySocket st) (lastSpinResult st)
    (spinning st) (connectedSockets st) (usersStatus st) (sockets st) (timers st).
Definition withSelections (st : state) (s : odict selection) : state :=
  State (dealerSocket st) (betsOpen st) s (weightBySocket st) (lastSpinResult st)
    (spinning st) (connectedSockets st) (usersStatus st) (sockets st) (timers st).
Definition withWeights (st : state) (w : gmap sid Q) : state :=
  State (dealerSocket st) (betsOpen st) (selections st) w (lastSpinResult st)
    (spinning st) (connectedSockets st) (usersStatus st) (sockets st) (timers st).
Definition withLastSpin (st : state) (r : option spinResult) : state :=
  State (dealerSocket st) (betsOpen st) (selections st) (weightBySocket st) r
    (spinning st) (connectedSockets st) (usersStatus st) (sockets st) (timers st).
Definition withSpinning (st : state) (b : bool) : state :=
  State (dealerSocket st) (betsOpen st) (selections st) (weightBySocket st)
    (lastSpinResult st) b (connectedSockets st) (usersStatus st) (sockets st) (timers st).
Definition withConnected (st : state) (c : odict conninfo) : state :=
  State (dealerSocket st) (betsOpen st) (selections st) (weightBySocket st)
    (lastSpinResult st) (spinning st) c (usersStatus st) (sockets st) (timers st).
Definition withStatus (st : state) (u : gmap string status) : state :=
  State (dealerSocket st) (betsOpen st) (selections st) (weightBySocket st)
    (lastSpinResult st) (spinning st) (connectedSockets st) u (sockets st) (timers st).
Definition withSockets (st : state) (s : gmap sid sockdata) : state :=
  State (dealerSocket st) (betsOpen st) (selections st) (weightBySocket st)
    (lastSpinResult st) (spinning st) (connectedSockets st) (usersStatus st) s (timers st).
Definition withTimers (st : state) (n : nat) : state :=
  State (dealerSocket st) (betsOpen st) (selections st) (weightBySocket st)
    (lastSpinResult st) (spinning st) (connectedSockets st) (usersStatus st) (sockets st) n.

(** The state after the module has loaded: every registered code has the
    status [{ connected: false, socketId: null }]. *)
Definition initial (reg : registry) : state :=
  State None false [] ∅ None false []
    (fold_left (fun m code => <[code := Status false None]> m) (usersOrder reg) ∅)
    ∅ 0%nat.

(** Truthiness of a string, and of a string that may be null/undefined. *)
Definition truthyS (s : string) : bool := negb (String.eqb s EmptyString).
Definition truthyO (o : option string) : bool :=
  match o with Some s => truthyS s | None => false end.

(** [socket.id === dealerSocket] *)
Definition isDealer (st : state) (s : sid) : bool :=
  match dealerSocket st with Some d => String.eqb s d | None => false end.

(** [/^\d{6}$/.test(s)] *)
Definition isDigit (c : ascii) : bool :=
  let n := nat_of_ascii c in ((48 <=? n) && (n <=? 57))%nat.
Definition isCode (s : string) : bool :=
  let l := list_ascii_of_string s in
  (length l =? 6)%nat && forallb isDigit l.

(** [DEALER_CODE && code === DEALER_CODE && !dealerSocket] *)
Definition mayGrant (reg : registry) (st : state) (code : Js.value) : bool :=
  match DEALER_CODE reg with
  | Some c => truthyS c && Js.seq code (Js.VStr c) && negb (truthyO (dealerSocket st))
  | None => false
  end.

Definition socketData (st : state) (s : sid) : sockdata :=
  match sockets st !! s with Some d => d | None => SockData None None end.

(** [io.on("connection", socket => ...)]: a socket with empty [data]. *)
Definition connect (st : state) (s : sid) : state :=
  withSockets st (<[s := SockData None None]> (sockets st)).

(** [socket.on("join", identifier => ...)] *)
Definition join (reg : registry) (st : state) (s : sid) (identifier : string) : state :=
  let d := socketData st s in
  let '(d', st1) :=
    if isCode identifier then
      let code := identifier in
      match usersByCode reg !! code with
      | Some name =>
          if truthyS name then
            (SockData (Some name) (Some code),
             if mayGrant reg st (Js.VStr code) then withDealer st (Some s) else st)
          else (SockData (Some "Unknown"%string) (data_code d), st)
      | None => (SockData (Some "Unknown"%string) (data_code d), st)
      end
    else (SockData (Some identifier) (data_code d), st) in
  let st2 := withSockets st1 (<[s := d']> (sockets st1)) in
  let st3 :=
    withConnected st2
      (oset (connectedSockets st2) s
         (ConnInfo (data_name d')
            (if truthyO (data_code d') then data_code d' else None))) in
  match data_code d' with
  | Some code =>
      if truthyS code
      then withStatus st3 (<[code := Status true (Some s)]> (usersStatus st3))
      else st3
  | None => st3
  end.

(** [Math.max(0, Math.min(10, w))] for a number that is not NaN. *)
Definition clampWeight (w : Js.num) : Q :=
  match w with
  | Js.Fin q => Qmax 0 (Qmin 10 q)
  | Js.Inf false => 10%Q
  | _ => 0%Q
  end.

(** [socket.on('setWeight', ({ target, weight }) => ...)] *)
Definition setWeight (st : state) (s : sid) (target : string) (weight : Js.num) : state :=
  if negb (isDealer st s) then st
  else if Js.isNaN weight then st
  else
    match oget (connectedSockets st) target with
    | Some _ => withWeights st (<[target := clampWeight weight]> (weightBySocket st))
    | None => st
    end.

(** [socket.on("dealerLogin", code => ...)] *)
Definition dealerLogin (reg : registry) (st : state) (s : sid) (code : Js.value) : state :=
  if mayGrant reg st code then withDealer st (Some s) else st.

(** [socket.on("disconnect", () => ...)]; the socket is gone afterwards. *)
Definition disconnect (st : state) (s : sid) : state :=
  let d := socketData st s in
  let st1 := if isDealer st s then withBetsOpen (withDealer st None) false else st in
  let st2 := withSelections st1 (odel (selections st1) s) in
  let st3 :=
    match data_code d with
    | Some code =>
        if truthyS code then
          match usersStatus st2 !! code with
          | Some _ => withStatus st2 (<[code := Status false None]> (usersStatus st2))
          | None => st2
          end
        else st2
    | None => st2
    end in
  let st4 := withConnected st3 (odel (connectedSockets st3) s) in
  withSockets st4 (delete s (sockets st4)).

(** [socket.on("select", bet => ...)] *)
Definition select (st : state) (s : sid) (bet : Js.value) : state :=
  if negb (betsOpen st) then st
  else if isDealer st s then st
  else withSelections st
         (oset (selections st) s (Selection (data_name (socketData st s)) bet)).

(** [socket.on("openBets", ...)] and [socket.on("closeBets", ...)] *)
Definition openBets (st : state) (s : sid) : state :=
  if negb (isDealer st s) then st else withBetsOpen st true.
Definition closeBets (st : state) (s : sid) : state :=
  if negb (isDealer st s) then st else withBetsOpen st false.

(** [socket.on("spin", clientRandoms => ...)].  When the classification of
    the bets throws, the handler stops there: [spinning] stays set, nothing
    else has been written and no timer has been started.  (What the
    process does with the uncaught exception is outside the handlers; the
    states after it are kept in [reachable], which only widens it.) *)
Definition spin (st : state) (s : sid) (clientRandoms : list Q) (r : Q) : state :=
  if negb (isDealer st s) then st
  else if spinning st then st
  else
    let st1 := withSpinning st true in
    match computeSpin (selections st) (weightBySocket st) clientRandoms r with
    | Some res =>
        withTimers (withLastSpin (withBetsOpen st1 false) (Some res))
                   (S (timers st1))
    | None => st1
    end.

(** The callback of [setTimeout(() => { spinning = false; }, SPIN_ANIMATION_MS)]. *)
Definition spinTimer (st : state) : state :=
  withTimers (withSpinning st false) (pred (timers st)).

(** Events a socket sends. *)
Inductive event : Type :=
| Join (identifier : string)
| SetWeight (target : string) (weight : Js.num)
| DealerLogin (code : Js.value)
| Disconnect
| Select (bet : Js.value)
| OpenBets
| CloseBets
| Spin (clientRandoms : list Q) (r : Q).

Definition handle (reg : registry) (st : state) (s : sid) (e : event) : state :=
  match e with
  | Join identifier => join reg st s identifier
  | SetWeight target weight => setWeight st s target weight
  | DealerLogin code => dealerLogin reg st s code
  | Disconnect => disconnect st s
  | Select bet => select st s bet
  | OpenBets => openBets st s
  | CloseBets => closeBets st s
  | Spin clientRandoms r => spin st s clientRandoms r
  end.

(** The states the server can be in.  Socket ids are non-empty and never
    reused ([used] collects the ids handed out so far); a socket sends
    events between its connection and its disconnection; [Math.random()]
    lies in [0, 1). *)
Inductive reachable (reg : registry) : gset sid -> state -> Prop :=
| reach_initial : reachable reg ∅ (initial reg)
| reach_connect used st s :
    reachable reg used st -> s ∉ used -> s <> EmptyString ->
    reachable reg ({[ s ]} ∪ used) (connect st s)
| reach_event used st s e :
    reachable reg used st -> is_Some (sockets st !! s) ->
    (forall cr r, e = Spin cr r -> (0 <= r /\ r < 1)%Q) ->
    reachable reg used (handle reg st s e)
| reach_timer used st :
    reachable reg used st -> (0 < timers st)%nat ->
    reachable reg used (spinTimer st).

(* ===================================================================== *)
(** ** The leaderboard *)
(* ===================================================================== *)

(** A row of the [ordered] object: [{ name, bet, connected, weight }]. *)
Record row : Type := Row {
  row_name : option string;
  row_bet : Js.value;
  row_connected : bool;
  row_weight : option Q
}.

(** [(selections[sid] && selections[sid].bet !== undefined)
      ? selections[sid].bet : null] *)
Definition liveBet (st : state) (s : sid) : Js.value :=
  match oget (selections st) s with
  | Some e => match sel_bet e with Js.VUndefined => Js.VNull | b => b end
  | None => Js.VNull
  end.

Definition liveRow (st : state) (s : sid) (name : option string) : row :=
  Row name (liveBet st s) true (Some (weightOf (weightBySocket st) s)).

Definition pseudoKey (code : string) : string := String.append "u:" code.

(** The body of [for (const code of usersOrder)]. *)
Definition registeredRow (reg : registry) (st : state)
    (ordered : odict row) (code : string) : odict row :=
  let st_ := match usersStatus st !! code with
             | Some x => x
             | None => Status false None
             end in
  match socketId st_ with
  | Some s =>
      if connected st_ && truthyS s
         && bool_decide (is_Some (oget (connectedSockets st) s))
      then oset ordered s (liveRow st s (usersByCode reg !! code))
      else oset ordered (pseudoKey code) (Row (usersByCode reg !! code) Js.VNull false None)
  | None =>
      oset ordered (pseudoKey code) (Row (usersByCode reg !! code) Js.VNull false None)
  end.

(** The filter that keeps the sockets not bound to a registered code. *)
Definition isRemaining (st : state) (e : sid * conninfo) : bool :=
  negb (match ci_code (snd e) with
        | Some code => truthyS code && bool_decide (is_Some (usersStatus st !! code))
        | None => false
        end).

(** [(info.name || '').toLowerCase()] *)
Definition sortKey (e : sid * conninfo) : string :=
  Js.toLowerCase (match ci_name (snd e) with Some n => n | None => EmptyString end).

(** [Array.prototype.sort] with the comparator of [emitLeaderboard] is a
    stable sort on [sortKey]: insertion from the right, an element going in
    front of the first one whose key is not smaller. *)
Fixpoint insertSorted (x : sid * conninfo) (l : list (sid * conninfo)) :
    list (sid * conninfo) :=
  match l with
  | [] => [x]
  | y :: t =>
      if String.ltb (sortKey y) (sortKey x) then y :: insertSorted x t
      else x :: y :: t
  end.

Definition sortRemaining (l : list (sid * conninfo)) : list (sid * conninfo) :=
  fold_right insertSorted [] l.

Definition remaining (st : state) : list (sid * conninfo) :=
  sortRemaining (filter (fun e => isRemaining st e = true) (connectedSockets st)).

(** The object [ordered] that [emitLeaderboard] broadcasts. *)
Definition emitLeaderboard (reg : registry) (st : state) : odict row :=
  let ordered := fold_left (registeredRow reg st) (usersOrder reg) [] in
  fold_left (fun ordered e => oset ordered (fst e) (liveRow st (fst e) (ci_name (snd e))))
            (remaining st) ordered.

(* ===================================================================== *)
(** ** Runs of the server *)
(* ===================================================================== *)

Inductive action : Type :=
| Connect (s : sid)
| Event (s : sid) (e : event)
| Timer.

Definition perform (reg : registry) (st : state) (a : action) : state :=
  match a with
  | Connect s => connect st s
  | Event s e => handle reg st s e
  | Timer => spinTimer st
  end.

Definition run (reg : registry) (tr : list action) : state :=
  fold_left (perform reg) tr (initial reg).

Definition validRandom (e : event) : bool :=
  match e with
  | Spin _ r => Qle_bool 0 r && negb (Qle_bool 1 r)
  | _ => true
  end.

(** A run is admissible when its actions satisfy the side conditions of
    [reachable]. *)
Fixpoint admissible (reg : registry) (used : list sid) (st : state)
    (tr : list action) : bool :=
  match tr with
  | [] => true
  | a :: t =>
      match a with
      | Connect s =>
          negb (existsb (String.eqb s) used) && truthyS s
          && admissible reg (s :: used) (perform reg st a) t
      | Event s e =>
          bool_decide (is_Some (sockets st !! s)) && validRandom e
          && admissible reg used (perform reg st a) t
      | Timer =>
          (0 <? timers st)%nat && admissible reg used (perform reg st a) t
      end
  end.

Definition Reachable (reg : registry) (st : state) : Prop :=
  exists used, reachable reg used st.

(* ===================================================================== *)
(** ** Notions of the specification *)
(* ===================================================================== *)

(** *** The dealer slot and the betting window *)

(** The invariant behind the dealer slot: open sockets have used,
    non-empty ids; the dealer is an open socket; an open window has a
    dealer. *)
Definition slotInv (used : gset sid) (st : state) : Prop :=
  (forall s, is_Some (sockets st !! s) -> s ∈ used /\ s <> EmptyString)
  /\ (forall d, dealerSocket st = Some d -> is_Some (sockets st !! d))
  /\ (betsOpen st = true -> is_Some (dealerSocket st)).

(** The dealer's connection has no entry in the ledger. *)
Definition dealerHoldsNoBet (st : state) : Prop :=
  forall d, dealerSocket st = Some d -> oget (selections st) d = None.

(** *** The shapes of a bet *)

Definition isInteger (q : Q) : bool := Qeq_bool q (inject_Z (Qfloor q)).

(** The bet shapes the specification accepts at submission: an integer
    0..36 (as a number or a numeric string), "red" or "black" up to case
    and surrounding blanks, and null or the empty string to clear. *)
Definition acceptedShape (v : Js.value) : bool :=
  match v with
  | Js.VNull => true
  | Js.VStr EmptyString => true
  | _ =>
      match normalizeBet v with
      | Js.VNum (Js.Fin q) => isInteger q && Qle_bool 0 q && Qle_bool q 36
      | Js.VStr c => String.eqb c "red" || String.eqb c "black"
      | _ => false
      end
  end.


(** A stored bet on which [bettorsByNumber[bet].push] does not throw. *)
Definition indexable (bet : Js.value) : bool :=
  match normalizeBet bet with
  | Js.VNum (Js.Fin q) =>
      if Qle_bool 0 q && Qle_bool q 36 then isInteger q else true
  | _ => true
  end.

(** *** Bettors, covered numbers and weights *)

(** The numbers of the wheel a stored bet covers: a numeric bet covers its
    number, a colour bet every number of that colour. *)
Definition betCovers (bet : Js.value) (n : nat) : bool :=
  match normalizeBet bet with
  | Js.VNum x => Js.num_seq x (Js.ofNat n)
  | Js.VStr c =>
      (String.eqb c "red" && isRed (Js.ofNat n))
      || (String.eqb c "black" && isBlack (Js.ofNat n))
  | _ => false
  end.

(** The bettors covering [n], and the count of those of weight [>= 2]
    among them. *)
Definition coverers (sel : odict selection) (n : nat) : list sid :=
  map fst (filter (fun e => betCovers (sel_bet (snd e)) n = true) sel).

Definition highCover (sel : odict selection) (w : gmap sid Q) (n : nat) : nat :=
  length (filter (fun s => isHigh w s = true) (coverers sel n)).

(** Sums of a function over a list of numbers, and over the numbers
    below [n]. *)
Definition qsum (f : nat -> Q) (l : list nat) : Q :=
  fold_right (fun m a => (f m + a)%Q) 0%Q l.

Definition sumBelow (f : nat -> Q) (n : nat) : Q := qsum f (List.seq 0 n).




(** The weight the normal rule gives to a number covered by the bettors
    [l]: 1 when there is none, 0 when none of them has a positive weight,
    1 plus their positive weights otherwise. *)
Definition positiveSum (w : gmap sid Q) (l : list sid) : Q :=
  fold_right (fun s a => if negb (Qle_bool (weightOf w s) 0)
                         then (weightOf w s + a)%Q else a) 0%Q l.

Definition weightFor (w : gmap sid Q) (l : list sid) : Q :=
  match l with
  | [] => 1%Q
  | _ :: _ => if forallb (fun s => Qle_bool (weightOf w s) 0) l then 0%Q
              else (1 + positiveSum w l)%Q
  end.

Definition specWeight (sel : odict selection) (w : gmap sid Q) (n : nat) : Q :=
  weightFor w (coverers sel n).

Definition totalWeight (sel : odict selection) (w : gmap sid Q) : Q :=
  sumBelow (specWeight sel w) 37.

(** An integer of the wheel. *)
Definition onWheel (x : Js.num) : Prop :=
  exists n, (n <= 36)%nat /\ x = Js.ofNat n.

(** The spin takes [Math.floor(avg * 37)]: no recognised bet, or no
    high-weight bettor and a total weight [<= 0]. *)
Definition usesAverage (b : buckets) (w : gmap sid Q) : bool :=
  negb (anyNumeric b || anyColor b)
  || (negb (0 <? length (highWeightNumbers b w))%nat && Qle_bool (sumQ (weights b w)) 0).

(** *** What the loops of [spin] compute *)

(** The object that holds [f n] under every key [n] of [l] with [f n > 0]. *)
Definition table (f : nat -> nat) (l : list nat) : idict :=
  map (fun n => (n, f n)) (filter (fun n => (0 <? f n)%nat = true) l).

(** The entries the draw loops walk through: [g n] for the [n] of [l] that
    are kept. *)
Definition entriesOf (g : nat -> Q) (keep : nat -> bool) (l : list nat) : list (nat * Q) :=
  map (fun n => (n, g n)) (filter (fun n => keep n = true) l).


Definition inb (m : nat) (l : list nat) : bool := existsb (Nat.eqb m) l.

(** The loops that fill [highWeightNumbers]. *)
Definition bumpLoop (p : nat -> bool) (c : nat -> nat) (l : list nat) (hw : idict) : idict :=
  fold_left (fun hw n => if p n then bump hw n (c n) else hw) l hw.

(** The count [highWeightNumbers] ends up with for [n]. *)
Definition highCount (b : buckets) (w : gmap sid Q) (n : nat) : nat :=
  (countHigh w (nth n (bettorsByNumber b) [])
   + (if isRed (Js.ofNat n) then countHigh w (bettorsRed b) else 0)
   + (if isBlack (Js.ofNat n) then countHigh w (bettorsBlack b) else 0))%nat.

(** The bettors [spin] has filed under [n]. *)
Definition filedUnder (b : buckets) (n : nat) : list sid :=
  nth n (bettorsByNumber b) [] ++ colorSids b n.

(** *** The classification of the specification *)

(** The tagged bets of the design notes and the colours of the wheel. *)
Inductive color : Type := Red | Black.

Definition colorOf (z : Z) : option color :=
  if existsb (Z.eqb z) redNumbers then Some Red
  else if (1 <=? z) && (z <=? 36) then Some Black
  else None.

Inductive specBet : Type :=
| BNumber (z : Z)
| BColor (c : color)
| BOther.

Definition color_eqb (a b : color) : bool :=
  match a, b with Red, Red | Black, Black => true | _, _ => false end.

Definition classifySpec (b : specBet) (winning : Z) : outcome :=
  match b with
  | BNumber z =>
      if z =? winning then WIN
      else match colorOf z, colorOf winning with
           | Some c, Some c' => if color_eqb c c' then COLOR else LOSE
           | _, _ => LOSE
           end
  | BColor c =>
      match colorOf winning with
      | Some c' => if color_eqb c c' then COLOR_ONLY else LOSE
      | None => LOSE
      end
  | BOther => LOSE
  end.

Definition specBetOf (bet : Js.value) : specBet :=
  match normalizeBet bet with
  | Js.VNum (Js.Fin q) => if isInteger q then BNumber (Qfloor q) else BOther
  | Js.VStr c =>
      if String.eqb c "red" then BColor Red
      else if String.eqb c "black" then BColor Black
      else BOther
  | _ => BOther
  end.

(** *** The rows of the leaderboard *)

(** The first rows of a leaderboard are the registered users, one row
    each, in the order of the registry. *)
Definition registeredFirst (reg : registry) (rows : odict row) : Prop :=
  exists regs guests,
    rows = regs ++ guests
    /\ map (fun e => row_name (snd e)) regs
       = map (fun code => usersByCode reg !! code) (usersOrder reg).

(** The connection a registered code is shown with:
    [status.connected && status.socketId && connectedSockets[status.socketId]]. *)
Definition activeSocket (st : state) (code : string) : option sid :=
  match usersStatus st !! code with
  | Some (Status true (Some s)) =>
      if truthyS s && bool_decide (is_Some (oget (connectedSockets st) s))
      then Some s else None
  | _ => None
  end.

(** The row of a registered code and the row of a guest connection. *)
Definition registeredEntry (reg : registry) (st : state) (code : string) : string * row :=
  match activeSocket st code with
  | Some s => (s, liveRow st s (usersByCode reg !! code))
  | None => (pseudoKey code, Row (usersByCode reg !! code) Js.VNull false None)
  end.

Definition guestEntry (st : state) (e : sid * conninfo) : string * row :=
  (fst e, liveRow st (fst e) (ci_name (snd e))).

(** Every connection shown for a registered code carries that code: no
    socket joined under another registered code afterwards. *)
Definition statusConsistent (reg : registry) (st : state) : Prop :=
  forall code s, In code (usersOrder reg) -> activeSocket st code = Some s ->
    exists info, oget (connectedSockets st) s = Some info /\ ci_code info = Some code.

(** Socket ids are not of the form ['u:' + code]. *)
Definition plainIds (st : state) : Prop :=
  forall s, s ∈ okeys (connectedSockets st) -> String.prefix "u:" s = false.

(** The order of the guest rows: by lower-cased name. *)
Definition nameLe (a b : sid * conninfo) : Prop :=
  String.ltb (sortKey b) (sortKey a) = false.

(* ===================================================================== *)
(** ** A registry and some runs *)
(* ===================================================================== *)

Definition demoRegistry : registry :=
  Registry (<["100001"%string := "Dealer"%string]>
              (<["100002"%string := "Alice"%string]>
                 (<["100003"%string := "Bob"%string]> ∅)))
           ["100001"; "100002"; "100003"]%string
           (Some "100001"%string).

Definition dealerCode : Js.value := Js.VStr "100001".

(** A dealer and a player; the window is open and the player bet on 5. *)
Definition openTrace : list action :=
  [Connect "d"; Connect "p"; Event "d" (DealerLogin dealerCode);
   Event "d" OpenBets; Event "p" (Select (Js.VNum (Js.ofZ 5)))]%string.

(** The dealer leaves and the player who holds a bet claims the slot. *)
Definition leftTrace : list action :=
  openTrace ++ [Event "d"%string Disconnect].
Definition promoteTrace : list action :=
  leftTrace ++ [Event "p"%string (DealerLogin dealerCode)].

(** A spin with no bet and no client random. *)
Definition emptySpinTrace : list action :=
  [Connect "d"; Event "d" (DealerLogin dealerCode); Event "d" (Spin [] (1 # 2))]%string.

(** A spin with the number 37 in the ledger; the average of the client
    randoms makes 2 the winning number. *)
Definition outOfRangeTrace : list action :=
  [Connect "d"; Connect "p"; Event "d" (DealerLogin dealerCode); Event "d" OpenBets;
   Event "p" (Select (Js.VNum (Js.ofZ 37)));
   Event "d" (Spin [(3 # 50)%Q] (1 # 2))]%string.

(** Ann bets on 5 and Bob on red; the dealer gives them the weights
    [wa] and [wb]. *)
Definition tableTrace (wa wb : Q) : list action :=
  [Connect "d"; Connect "a"; Connect "b"; Event "d" (DealerLogin dealerCode);
   Event "a" (Join "Ann"); Event "b" (Join "Bob"); Event "d" OpenBets;
   Event "a" (Select (Js.VNum (Js.ofZ 5))); Event "b" (Select (Js.VStr "red"));
   Event "d" (SetWeight "a" (Js.Fin wa)); Event "d" (SetWeight "b" (Js.Fin wb))]%string.

(** A socket joins under one registered code and then under another. *)
Definition rejoinTrace : list action :=
  [Connect "s"; Event "s" (Join "100002"); Event "s" (Join "100003")]%string.

(** Two guests, Zed and amy, and two registered users, one of them gone
    again. *)
Definition boardTrace : list action :=
  [Connect "z"; Connect "y"; Connect "x"; Connect "w";
   Event "z" (Join "Zed"); Event "y" (Join "100003"); Event "x" (Join "100002");
   Event "w" (Join "amy"); Event "x" Disconnect]%string.

(* ===================================================================== *)
(** ** Start-up: the registry read from [users.txt] *)
(* ===================================================================== *)

Definition LF : ascii := ascii_of_nat 10.
Definition CR : ascii := ascii_of_nat 13.

(** The first piece of a split grows by one character. *)
Definition consHead (c : ascii) (l : list string) : list string :=
  match l with
  | h :: r => String c h :: r
  | [] => [String c EmptyString]
  end.

(** [text.split(/\r?\n/)] *)
Fixpoint splitLines (s : string) : list string :=
  match s with
  | EmptyString => [EmptyString]
  | String c t =>
      if Ascii.eqb c LF then EmptyString :: splitLines t
      else
        match t with
        | String c' t' =>
            if Ascii.eqb c CR && Ascii.eqb c' LF then EmptyString :: splitLines t'
            else consHead c (splitLines t)
        | EmptyString => consHead c (splitLines t)
        end
  end.

(** [ln.split(',')] *)
Fixpoint splitOn (sep : ascii) (s : string) : list string :=
  match s with
  | EmptyString => [EmptyString]
  | String c t =>
      if Ascii.eqb c sep then EmptyString :: splitOn sep t
      else consHead c (splitOn sep t)
  end.

(** [parts.join(sep)] *)
Fixpoint joinWith (sep : string) (parts : list string) : string :=
  match parts with
  | [] => EmptyString
  | x :: t =>
      match t with
      | [] => x
      | _ :: _ => String.append x (String.append sep (joinWith sep t))
      end
  end.

(** [lines]: the trimmed, non-empty lines of the file. *)
Definition userLines (text : string) : list string :=
  filter (fun l => truthyS l = true) (map Js.trim (splitLines text)).

(** The body of [for (const ln of lines)]: the code and the name of a line
    that registers a user. *)
Definition parseLine (ln : string) : option (string * string) :=
  let parts := splitOn "," ln in
  if (2 <=? length parts)%nat then
    let code := Js.trim (hd EmptyString parts) in
    let name := Js.trim (joinWith "," (tl parts)) in
    if isCode code && truthyS name then Some (code, name) else None
  else None.

(** [usersByCode] (as the object it is while the file is read) and
    [usersOrder] after one more line. *)
Definition addUser (acc : odict string * list string) (ln : string) :
    odict string * list string :=
  match parseLine ln with
  | Some (code, name) => (oset (fst acc) code name, snd acc ++ [code])
  | None => acc
  end.

(** A six-digit key is an array index of the object when it is the
    canonical decimal form of its number: when it has no leading zero. *)
Definition isArrayIndex (code : string) : bool :=
  match code with
  | String c _ => negb (Ascii.eqb c "0")
  | EmptyString => false
  end.

Definition codeNumber (code : string) : Z :=
  Js.digitsValue 10 (fst (Js.takeDigits 10 (list_ascii_of_string code))).

Fixpoint insertEntry (e : string * string) (l : list (string * string)) :
    list (string * string) :=
  match l with
  | [] => [e]
  | y :: t =>
      if (codeNumber (fst y) <? codeNumber (fst e))%Z then y :: insertEntry e t
      else e :: y :: t
  end.

(** [Object.entries(usersByCode)]: the array-index keys in ascending
    numeric order, then the other keys in insertion order. *)
Definition entries (o : odict string) : list (string * string) :=
  fold_right insertEntry [] (filter (fun e => isArrayIndex (fst e) = true) o)
  ++ filter (fun e => isArrayIndex (fst e) = false) o.

(** The loop that derives [DEALER_CODE]. *)
Definition deriveDealer (o : odict string) : option string :=
  fst <$> List.find (fun e => String.eqb (Js.toLowerCase (snd e)) "dealer") (entries o).

(** The start-up code; [None] is a [users.txt] that cannot be read. *)
Definition loadUsers (file : option string) : registry :=
  match file with
  | Some text =>
      let acc := fold_left addUser (userLines text) ([], []) in
      Registry (list_to_map (fst acc)) (snd acc) (deriveDealer (fst acc))
  | None => Registry ∅ [] None
  end.

(** A [users.txt] with one line [code,name] per user. *)
Definition userLine (u : string * string) : string :=
  String.append (fst u) (String "," (snd u)).

Definition renderUsers (users : list (string * string)) : string :=
  fold_right (fun u rest => String.append (userLine u) (String LF rest))
             EmptyString users.

(** A name that a line of [users.txt] can carry as it is: not empty, no
    line break inside, no white space around. *)
Definition cleanName (name : string) : bool :=
  truthyS name
  && forallb (fun c => negb (Ascii.eqb c LF) && negb (Ascii.eqb c CR))
             (list_ascii_of_string name)
  && String.eqb (Js.trim name) name.

(* ===================================================================== *)
(** ** The endpoint [POST /verify-code] *)
(* ===================================================================== *)

(** The response: the HTTP status and, with [{ ok: true, name }], the name.
    The argument is [(req.body || {}).code]. *)
Definition verifyCode (reg : registry) (code : Js.value) : nat * option string :=
  match code with
  | Js.VStr s =>
      if negb (truthyS s) then (400%nat, None)
      else
        let c := Js.trim s in
        if negb (isCode c) then (400%nat, None)
        else
          match usersByCode reg !! c with
          | Some name => if truthyS name then (200%nat, Some name) else (401%nat, None)
          | None => (401%nat, None)
          end
  | _ => (400%nat, None)
  end.

(* ===================================================================== *)
(** ** What the handlers emit *)
(* ===================================================================== *)

Inductive message : Type :=
| DealerState (active : bool)
| DealerGranted
| BetsState (isOpen : bool)
| SpinResultMsg (res : spinResult) (animate : bool)
| Leaderboard (ordered : odict row).

(** [io.emit] reaches every connected socket; [socket.emit] and
    [io.to(socket.id).emit] reach the socket of the handler. *)
Inductive audience : Type :=
| Everyone
| Only (s : sid).

Definition emission : Type := audience * message.

(** [if (lastSpinResult) ... emit('spinResult', lastSpinResult)] *)
Definition lastResultTo (st : state) (s : sid) : list emission :=
  match lastSpinResult st with
  | Some res => [(Only s, SpinResultMsg res false)]
  | None => []
  end.

(** The emissions of a grant of the dealer slot to [s]. *)
Definition grantEmits (st : state) (s : sid) : list emission :=
  [(Everyone, DealerState true); (Only s, DealerGranted);
   (Only s, BetsState (betsOpen st))] ++ lastResultTo st s.

(** The join of [identifier] reaches the grant of the slot. *)
Definition joinGrants (reg : registry) (st : state) (identifier : string) : bool :=
  isCode identifier
  && match usersByCode reg !! identifier with
     | Some name => truthyS name && mayGrant reg st (Js.VStr identifier)
     | None => false
     end.

Definition boardEmit (reg : registry) (st : state) : list emission :=
  [(Everyone, Leaderboard (emitLeaderboard reg st))].

(** The emissions of a handler run by socket [s] in state [st], in the
    order of the calls. *)
Definition emits (reg : registry) (st : state) (s : sid) (e : event) : list emission :=
  let st' := handle reg st s e in
  match e with
  | Join identifier =>
      (if joinGrants reg st identifier then grantEmits st s else [])
      ++ [(Only s, DealerState (bool_decide (is_Some (dealerSocket st'))));
          (Only s, BetsState (betsOpen st'))]
      ++ lastResultTo st' s
      ++ boardEmit reg st'
  | SetWeight target weight =>
      if isDealer st s && negb (Js.isNaN weight)
         && bool_decide (is_Some (oget (connectedSockets st) target))
      then boardEmit reg st' else []
  | DealerLogin code =>
      if mayGrant reg st code then grantEmits st s else []
  | Disconnect =>
      (if isDealer st s then [(Everyone, DealerState false)] else [])
      ++ boardEmit reg st'
  | Select bet =>
      if betsOpen st && negb (isDealer st s) then boardEmit reg st' else []
  | OpenBets =>
      if isDealer st s then [(Everyone, BetsState true)] else []
  | CloseBets =>
      if isDealer st s then [(Everyone, BetsState false)] else []
  | Spin clientRandoms r =>
      if isDealer st s && negb (spinning st) then
        match computeSpin (selections st) (weightBySocket st) clientRandoms r with
        | Some res => [(Everyone, SpinResultMsg res true); (Everyone, BetsState false)]
        | None => []
        end
      else []
  end.

(** The messages of [ems] that reach socket [t]. *)
Definition received (t : sid) (ems : list emission) : list message :=
  omap (fun em => match fst em with
                  | Everyone => Some (snd em)
                  | Only s => if String.eqb s t then Some (snd em) else None
                  end) ems.

(** The server together with what every socket has received so far,
    oldest message first. *)
Record world : Type := World {
  server : state;
  inbox : sid -> list message
}.

(** The sockets connected once the handler has run get its emissions (the
    socket of a [disconnect] has left already). *)
Definition deliver (socks : gmap sid sockdata) (ems : list emission)
    (box : sid -> list message) : sid -> list message :=
  fun t => if bool_decide (is_Some (socks !! t)) then box t ++ received t ems else box t.

Definition performV (reg : registry) (w : world) (a : action) : world :=
  match a with
  | Connect s => World (connect (server w) s) (inbox w)
  | Event s e =>
      World (handle reg (server w) s e)
            (deliver (sockets (handle reg (server w) s e)) (emits reg (server w) s e)
                     (inbox w))
  | Timer => World (spinTimer (server w)) (inbox w)
  end.

Definition initialV (reg : registry) : world := World (initial reg) (fun _ => []).

Definition runV (reg : registry) (tr : list action) : world :=
  fold_left (performV reg) tr (initialV reg).

Inductive reachableV (reg : registry) : gset sid -> world -> Prop :=
| reachV_initial : reachableV reg ∅ (initialV reg)
| reachV_connect used w s :
    reachableV reg used w -> s ∉ used -> s <> EmptyString ->
    reachableV reg ({[ s ]} ∪ used) (performV reg w (Connect s))
| reachV_event used w s e :
    reachableV reg used w -> is_Some (sockets (server w) !! s) ->
    (forall cr r, e = Spin cr r -> (0 <= r /\ r < 1)%Q) ->
    reachableV reg used (performV reg w (Event s e))
| reachV_timer used w :
    reachableV reg used w -> (0 < timers (server w))%nat ->
    reachableV reg used (performV reg w Timer).

Definition ReachableV (reg : registry) (w : world) : Prop :=
  exists used, reachableV reg used w.

(** The last message of a kind in an inbox. *)
Definition latest {A : Type} (pick : message -> option A) (l : list message) : option A :=
  fold_left (fun acc m => match pick m with Some a => Some a | None => acc end) l None.

Definition asDealerState (m : message) : option bool :=
  match m with DealerState b => Some b | _ => None end.
Definition asBetsState (m : message) : option bool :=
  match m with BetsState b => Some b | _ => None end.
Definition asSpinResult (m : message) : option spinResult :=
  match m with SpinResultMsg res _ => Some res | _ => None end.
Definition asLeaderboard (m : message) : option (odict row) :=
  match m with Leaderboard o => Some o | _ => None end.

(** A socket has joined and is still connected. *)
Definition joined (st : state) (t : sid) : Prop :=
  is_Some (oget (connectedSockets st) t).

(** A dealer, a player called Pat; the dealer opens the window and leaves. *)
Definition staleTrace : list action :=
  [Connect "d"; Connect "p"; Event "d" (DealerLogin dealerCode);
   Event "p" (Join "Pat"); Event "d" OpenBets; Event "d" Disconnect]%string.

(** A dealer and a player called Pat, who bets on 5; the dealer spins. *)
Definition spunTrace : list action :=
  [Connect "d"; Connect "p"; Event "d" (DealerLogin dealerCode);
   Event "p" (Join "Pat"); Event "d" OpenBets;
   Event "p" (Select (Js.VNum (Js.ofZ 5)));
   Event "d" (Spin [(1 # 2)%Q] (1 # 2)%Q)]%string.

(** The decimal numeral of [n], as [String(n)] writes it. *)
Definition decimal (n : nat) : string := NilEmpty.string_of_uint (Nat.to_uint n).

(** A step that can change the bet of socket [t]: its own [select] or its
    disconnection. *)
Definition touches (t : sid) (a : action) : bool :=
  match a with
  | Event s (Select _) | Event s Disconnect => String.eqb s t
  | _ => false
  end.

(** Some bet of the ledger covers a number of the wheel. *)
Definition anyBetOnWheel (sel : odict selection) : bool :=
  existsb (fun e => existsb (betCovers (sel_bet (snd e))) wheel) sel.

(** Two spins in a row, the window opened again in between. *)
Definition twoSpins : list action :=
  [Event "d" (Spin [(1 # 2)%Q] (1 # 2)%Q); Timer; Event "d" OpenBets;
   Event "d" (Spin [(1 # 4)%Q] (1 # 4)%Q)]%string.

(* ===================================================================== *)
(** ** The previous version of the server *)
(* ===================================================================== *)

Module Legacy.

(** The body of the [results] loop. *)
Definition classify (bet : Js.value) (winningNumber : Js.num) : outcome :=
  let bet := normalizeBet bet in
  if Js.seq bet (Js.VNum winningNumber) then WIN
  else if (Js.seq bet (Js.VStr "red") && isRed winningNumber)
          || (Js.seq bet (Js.VStr "black") && isBlack winningNumber)
  then COLOR
  else
    match bet with
    | Js.VNum x =>
        if (isRed x && isRed winningNumber) || (isBlack x && isBlack winningNumber)
        then COLOR else LOSE
    | _ => LOSE
    end.

(** What the previous version calls the outcome of the present one. *)
Definition demote (o : outcome) : outcome :=
  match o with COLOR_ONLY => COLOR | _ => o end.

(** [lastSpinResult] as the [spin] handler computes it. *)
Definition computeSpin (sel : odict selection) (clientRandoms : list Q) : spinResult :=
  let win := floor37 (average clientRandoms) in
  SpinResult win
    (fold_left (fun res e => oset res (fst e) (classify (sel_bet (snd e)) win)) sel []).

End Legacy.

(* ===================================================================== *)
(** ** The client: wheel, colours and animation ([client.js]) *)
(* ===================================================================== *)

Module Client.

Definition RED : list Z :=
  [1;3;5;7;9;12;14;16;18;19;21;23;25;27;30;32;34;36].

(** The numbers of the slices, clockwise. *)
Definition options : list Z :=
  [0;32;15;19;4;21;2;25;17;34;6;27;13;36;11;30;8;23;10;5;24;16;33;1;20;14;31;9;22;18;
   29;7;28;12;35;3;26].

(** [RED.has(n)] *)
Definition has (n : Js.num) : bool :=
  existsb (fun z => Js.num_seq (Js.ofZ z) n) RED.

(** [getColor(n)] *)
Definition getColor (n : Js.num) : string :=
  if Js.num_seq n (Js.ofZ 0) then "#008b0f"%string
  else if has n then "#FF0000"%string else "#000000"%string.

(** [options.indexOf(targetNumber)]; [None] is [-1]. *)
Fixpoint indexFrom (i : nat) (l : list Z) (n : Js.num) : option nat :=
  match l with
  | [] => None
  | z :: t => if Js.num_seq (Js.ofZ z) n then Some i else indexFrom (S i) t n
  end.
Definition indexOf (l : list Z) (n : Js.num) : option nat := indexFrom 0 l n.

(** [Math.PI], the double nearest to pi. *)
Definition PI : Q := 884279719003555 # 281474976710656.

(** [Math.PI / (options.length / 2)] *)
Definition arc : Q := (PI / (inject_Z (Z.of_nat (length options)) / 2))%Q.






(** [ready] of [updateSpinButton]:
    [Object.values(players).every(p => p.bet !== undefined)] *)
Definition ready (players : odict row) : bool :=
  forallb (fun p => negb (Js.seq (row_bet (snd p)) Js.VUndefined)) players.

(** The values the page sends with [select]: the 37 cells of the table,
    the two colour buttons and the clear button. *)
Definition selects : list Js.value :=
  map (fun i => Js.VNum (Js.ofNat i)) (List.seq 0 37)
  ++ [Js.VStr "red"; Js.VStr "black"; Js.VNull].

(** An event as the page sends it: a bet from the table or the buttons,
    and [[Math.random()]] with a spin. *)
Definition sends (e : event) : bool :=
  match e with
  | Select bet => existsb (Js.seq bet) selects
  | Spin clientRandoms _ =>
      match clientRandoms with
      | [x] => Qle_bool 0 x && negb (Qle_bool 1 x)
      | _ => false
      end
  | _ => true
  end.

(** A step of a server whose sockets all run the page. *)
Definition fair (a : action) : bool :=
  match a with
  | Event _ e => sends e && validRandom e
  | _ => true
  end.

(** [isDealer] after a message: [dealerGranted] sets it and
    [dealerState(false)] clears it. *)
Definition isDealerAfter (isDealer : bool) (m : message) : bool :=
  match m with
  | DealerGranted => true
  | DealerState false => false
  | _ => isDealer
  end.

(** [isDealer] of a page that has received the messages of [inbox]. *)
Definition isDealer (inbox : list message) : bool :=
  fold_left isDealerAfter inbox false.

(** [verifyCode(code)] of the page: the name in the answer of
    [POST /verify-code], null when the answer is not ok or the request
    fails ([online] false). *)
Definition verifyCode (reg : registry) (online : bool) (code : string) : option string :=
  if online then
    let r := verifyCode reg (Js.VStr code) in
    if (200 <=? fst r)%nat && (fst r <=? 299)%nat then snd r else None
  else None.

(** The loop of [doLogin] that prompts for a code; an input is what
    [prompt] returns, with whether the request that follows succeeds.  The
    result is the identifier sent with [join], [None] while the page is
    still asking. *)
Fixpoint promptLoop (reg : registry) (inputs : list (option string * bool)) : option string :=
  match inputs with
  | [] => None
  | (codeInput, online) :: rest =>
      match codeInput with
      | Some typed =>
          if negb (truthyS typed) then promptLoop reg rest
          else
            let trimmed := Js.trim typed in
            if negb (isCode trimmed) then promptLoop reg rest
            else
              if truthyO (verifyCode reg online trimmed) then Some trimmed
              else promptLoop reg rest
      | None => promptLoop reg rest
      end
  end.

(** [doLogin()]: [cookie] is [getCookie('roulette_user')]. *)
Definition doLogin (reg : registry) (cookie : option string) (online : bool)
    (inputs : list (option string * bool)) : option string :=
  match cookie with
  | Some code =>
      if truthyS code && truthyO (verifyCode reg online code) then Some code
      else promptLoop reg inputs
  | None => promptLoop reg inputs
  end.

End Client.

(** Every socket of the run joins at most once, as a page does ([doLogin]
    sends one [join]), and no socket id begins with [u:]. *)
Fixpoint pages (joinedSoFar : list sid) (tr : list action) : bool :=
  match tr with
  | [] => true
  | Connect s :: t => negb (String.prefix "u:" s) && pages joinedSoFar t
  | Event s (Join _) :: t =>
      negb (existsb (String.eqb s) joinedSoFar) && pages (s :: joinedSoFar) t
  | _ :: t => pages joinedSoFar t
  end.

(** What holds of the tables while every socket joins at most once:
    [J] lists the sockets that have joined. *)
Definition pagesInv (st : state) (J : list sid) : Prop :=
  (forall s, is_Some (sockets st !! s) -> String.prefix "u:" s = false)
  /\ (forall s, s ∈ okeys (connectedSockets st) ->
        In s J /\ String.prefix "u:" s = false)
  /\ (forall c x s, usersStatus st !! c = Some (Status x (Some s)) -> In s J)
  /\ (forall c s info, usersStatus st !! c = Some (Status true (Some s)) ->
        oget (connectedSockets st) s = Some info -> ci_code info = Some c)
  /\ (forall s, is_Some (data_code (socketData st s)) -> In s J).

(** A dealer and two players at the table; what the sockets send is what
    the page sends. *)
Definition fairTrace : list action :=
  [Connect "d"; Connect "a"; Connect "b"; Event "d" (Join "100001");
   Event "a" (Join "100002"); Event "b" (Join "100003"); Event "d" OpenBets;
   Event "a" (Select (Js.VNum (Js.ofZ 17))); Event "b" (Select (Js.VStr "black"));
   Event "a" (Select Js.VNull);
   Event "d" (SetWeight "b" (Js.ofZ 2))]%string.

(** The dealer, a registered player and two guests, each joining once; the
    registered player leaves. *)
Definition pagesTrace : list action :=
  [Connect "d"; Connect "a"; Connect "g"; Connect "h"; Event "g" (Join "zed");
   Event "d" (Join "100001"); Event "a" (Join "100002"); Event "h" (Join "Amy");
   Event "d" OpenBets; Event "g" (Select (Js.VNum (Js.ofZ 17)));
   Event "a" Disconnect]%string.

(* ===================================================================== *)
(** * Properties *)
(* ===================================================================== *)

(* ===================================================================== *)
(** ** Handlers, the dealer slot and the betting window *)
(* ===================================================================== *)

Lemma isDealer_true st s : isDealer st s = true <-> dealerSocket st = Some s.
Proof.
  unfold isDealer. destruct (dealerSocket st) as [d|]; split; intros H; try discriminate.
  - apply String.eqb_eq in H. by subst.
  - injection H as ->. apply String.eqb_refl.
Qed.

Lemma truthyS_true s : truthyS s = true <-> s <> EmptyString.
Proof.
  unfold truthyS. rewrite negb_true_iff. split.
  - intros H ->. by rewrite String.eqb_refl in H.
  - intros H. by apply String.eqb_neq.
Qed.

Lemma seq_VStr v c : Js.seq v (Js.VStr c) = true <-> v = Js.VStr c.
Proof.
  destruct v; simpl; split; intros H; try discriminate; try done.
  - apply String.eqb_eq in H. by subst.
  - injection H as ->. apply String.eqb_refl.
Qed.

Lemma mayGrant_true reg st v :
  mayGrant reg st v = true <->
  exists c, DEALER_CODE reg = Some c /\ c <> EmptyString /\ v = Js.VStr c
            /\ truthyO (dealerSocket st) = false.
Proof.
  unfold mayGrant. destruct (DEALER_CODE reg) as [c|].
  - rewrite !andb_true_iff, negb_true_iff, truthyS_true, seq_VStr. split.
    + intros [[? ?] ?]. by exists c.
    + intros (c' & [= <-] & ? & ? & ?). done.
  - split; [discriminate|]. by intros (c & ? & _).
Qed.

(** The dealer slot after each handler. *)
Lemma dealerSocket_join reg st s ident :
  dealerSocket (join reg st s ident) =
  if isCode ident && match usersByCode reg !! ident with Some n => truthyS n | None => false end
     && mayGrant reg st (Js.VStr ident)
  then Some s else dealerSocket st.
Proof.
  unfold join. destruct (isCode ident); simpl.
  - destruct (usersByCode reg !! ident) as [n|]; simpl.
    + destruct (truthyS n); simpl.
      * unfold truthyO, truthyS at 1. 
        destruct (mayGrant reg st (Js.VStr ident)); simpl;
        destruct (negb (String.eqb ident EmptyString)); reflexivity.
      * destruct (data_code (socketData st s)) as [c|]; simpl; [destruct (truthyS c)|]; reflexivity.
    + destruct (data_code (socketData st s)) as [c|]; simpl; [destruct (truthyS c)|]; reflexivity.
  - destruct (data_code (socketData st s)) as [c|]; simpl; [destruct (truthyS c)|]; reflexivity.
Qed.

Ltac crush_handler :=
  unfold handle, join, setWeight, dealerLogin, disconnect, select, openBets,
    closeBets, spin, spinTimer, connect;
  repeat (case_match; simplify_eq/=; try done).

Lemma betsOpen_join reg st s ident : betsOpen (join reg st s ident) = betsOpen st.
Proof. destruct st. crush_handler. Qed.

Lemma selections_join reg st s ident : selections (join reg st s ident) = selections st.
Proof. destruct st. crush_handler. Qed.

Lemma sockets_join reg st s ident x :
  is_Some (sockets (join reg st s ident) !! x) <-> x = s \/ is_Some (sockets st !! x).
Proof.
  assert (forall d, is_Some ((<[s:=d]> (sockets st)) !! x) <-> x = s \/ is_Some (sockets st !! x)) as H.
  { intros d. rewrite lookup_insert_is_Some. split.
    - intros [->|[_ H]]; [by left|by right].
    - intros [->|H]; [by left|]. destruct (decide (s = x)); [by left|by right]. }
  destruct st. crush_handler; apply H.
Qed.

Lemma sockets_disconnect st s : sockets (disconnect st s) = delete s (sockets st).
Proof. destruct st. crush_handler. Qed.

Lemma dealerSocket_disconnect st s :
  dealerSocket (disconnect st s) = if isDealer st s then None else dealerSocket st.
Proof. destruct st. crush_handler. Qed.

Lemma betsOpen_disconnect st s :
  betsOpen (disconnect st s) = if isDealer st s then false else betsOpen st.
Proof. destruct st. crush_handler. Qed.

Lemma selections_disconnect st s :
  selections (disconnect st s) = odel (selections st) s.
Proof. destruct st. crush_handler. Qed.

Lemma sockets_handle_sub reg st s e x :
  is_Some (sockets (handle reg st s e) !! x) -> x = s \/ is_Some (sockets st !! x).
Proof.
  destruct e; unfold handle.
  - apply sockets_join.
  - intros H. right. revert H. destruct st; crush_handler.
  - intros H. right. revert H. unfold dealerLogin. by case_match.
  - rewrite sockets_disconnect, lookup_delete_is_Some. intros [_ H]. by right.
  - intros H. right. revert H. destruct st; crush_handler.
  - intros H. right. revert H. destruct st; crush_handler.
  - intros H. right. revert H. destruct st; crush_handler.
  - intros H. right. revert H. destruct st; crush_handler.
Qed.

(** *** The invariant of the dealer slot and the betting window *)

Lemma slotInv_reachable reg U st0 : reachable reg U st0 -> slotInv U st0.
Proof.
  induction 1 as [|used st s Hr IH Hfresh Hne|used st s e Hr IH Hlive Hrand|used st Hr IH Ht].
  - split; [|split]; simpl; try done. intros x H. rewrite lookup_empty in H. by apply is_Some_None in H.
  - destruct IH as (I1 & I2 & I3). split; [|split]; simpl.
    + intros x H. apply lookup_insert_is_Some in H as [->|[_ H]].
      * split; [|done]. apply elem_of_union. left. by apply elem_of_singleton.
      * apply I1 in H as [H ?]. split; [|done]. apply elem_of_union. by right.
    + intros d Hd. apply lookup_insert_is_Some.
      destruct (decide (s = d)); [by left|right; split; [done|by apply I2]].
    + done.
  - destruct IH as (I1 & I2 & I3). split; [|split].
    + intros x Hx. apply sockets_handle_sub in Hx as [->|Hx]; by apply I1.
    + destruct e; unfold handle.
      * intros d. rewrite dealerSocket_join. intros Hd. apply sockets_join.
        case_match; [injection Hd as <-; by left|right; by apply I2].
      * destruct st; crush_handler.
      * intros d. unfold dealerLogin. case_match; simpl; [|by apply I2].
        by intros [= <-].
      * intros d. rewrite dealerSocket_disconnect, sockets_disconnect.
        case_match eqn:Hs; [done|]. intros Hd.
        assert (d <> s) as Hds. { intros ->. apply isDealer_true in Hd. congruence. }
        rewrite lookup_delete_is_Some. split; [done|by apply I2].
      * destruct st; crush_handler.
      * destruct st; crush_handler.
      * destruct st; crush_handler.
      * destruct st; crush_handler.
    + destruct e; unfold handle.
      * rewrite betsOpen_join, dealerSocket_join. intros Hb. case_match; [done|by apply I3].
      * destruct st; crush_handler.
      * unfold dealerLogin. case_match; simpl; [done|by apply I3].
      * rewrite betsOpen_disconnect, dealerSocket_disconnect. case_match; [done|apply I3].
      * destruct st; crush_handler.
      * unfold openBets. case_match eqn:Hd; simpl; [by apply I3|].
        intros _. apply negb_false_iff, isDealer_true in Hd. by rewrite Hd.
      * destruct st; crush_handler.
      * destruct st; crush_handler.
  - destruct IH as (I1 & I2 & I3). split; [|split]; simpl; done.
Qed.

(** *** Admissible runs are reachable *)

Lemma admissible_reachable reg tr : forall (U : gset sid) used st,
  reachable reg U st ->
  (forall x, In x used -> x ∈ U) -> (forall x, x ∈ U -> In x used) ->
  admissible reg used st tr = true ->
  Reachable reg (fold_left (perform reg) tr st).
Proof.
  induction tr as [|a tr IH]; intros U used st Hr Hin Hout Hadm.
  - by exists U.
  - simpl in Hadm. destruct a as [s|s e|].
    + apply andb_true_iff in Hadm as [Hc Hadm]. apply andb_true_iff in Hc as [Hfresh Hne].
      apply truthyS_true in Hne.
      assert (s ∉ U) as HsU.
      { intros HU. apply Hout in HU. apply negb_true_iff in Hfresh.
        assert (existsb (String.eqb s) used = true) as E; [|congruence].
        apply existsb_exists. exists s. split; [done|apply String.eqb_refl]. }
      simpl. apply (IH ({[ s ]} ∪ U) (s :: used)); [by constructor| | |done].
      * intros x [<-|Hx]; [set_solver|]. apply Hin in Hx. set_solver.
      * intros x Hx. apply elem_of_union in Hx as [Hx|Hx]; [left; set_solver|right; by apply Hout].
    + apply andb_true_iff in Hadm as [Hc Hadm]. apply andb_true_iff in Hc as [Hlive Hrand].
      apply bool_decide_eq_true in Hlive.
      simpl. apply (IH U used); try done. constructor; try done.
      intros cr r ->. simpl in Hrand. apply andb_true_iff in Hrand as [H0 H1].
      apply Qle_bool_iff in H0. apply negb_true_iff in H1. split; [done|].
      apply Qnot_le_lt. intros H. apply Qle_bool_iff in H. congruence.
    + apply andb_true_iff in Hadm as [Ht Hadm]. apply Nat.ltb_lt in Ht.
      simpl. apply (IH U used); try done. by constructor.
Qed.

Lemma run_reachable reg tr :
  admissible reg [] (initial reg) tr = true -> Reachable reg (run reg tr).
Proof.
  intros H. apply (admissible_reachable reg tr ∅ [] (initial reg)); try done.
  constructor.
Qed.


(** *** Dictionaries *)

Section OdictFacts.
Context {V : Type}.
Implicit Types (o : odict V) (k : string) (v : V).

Lemma oget_oset_eq o k v : oget (oset o k v) k = Some v.
Proof.
  induction o as [|[k' v'] o IH]; simpl.
  - by rewrite String.eqb_refl.
  - destruct (String.eqb k' k) eqn:E; simpl; rewrite E; [done|apply IH].
Qed.

Lemma oget_oset_ne o k k' v : k' <> k -> oget (oset o k v) k' = oget o k'.
Proof.
  intros Hne. induction o as [|[k0 v0] o IH]; simpl.
  - destruct (String.eqb k k') eqn:E; [|done]. apply String.eqb_eq in E. congruence.
  - destruct (String.eqb k0 k) eqn:E; simpl.
    + apply String.eqb_eq in E. subst k0.
      destruct (String.eqb k k') eqn:E'; [|done]. apply String.eqb_eq in E'. congruence.
    + by rewrite IH.
Qed.

Lemma oget_odel_ne o k k' : k' <> k -> oget (odel o k) k' = oget o k'.
Proof.
  intros Hne. induction o as [|[k0 v0] o IH]; simpl; [done|].
  destruct (String.eqb k0 k) eqn:E; simpl.
  - apply String.eqb_eq in E. subst k0.
    destruct (String.eqb k k') eqn:E'; [|done]. apply String.eqb_eq in E'. congruence.
  - by rewrite IH.
Qed.

Lemma oget_odel_eq o k : oget (odel o k) k = None.
Proof.
  induction o as [|[k0 v0] o IH]; simpl; [done|].
  destruct (String.eqb k0 k) eqn:E; simpl; [done|]. by rewrite E.
Qed.
End OdictFacts.

(** *** C9 *)

Lemma reachable_dealer_truthy reg st d :
  Reachable reg st -> dealerSocket st = Some d ->
  d <> EmptyString /\ is_Some (sockets st !! d).
Proof.
  intros [U Hr] Hd. apply slotInv_reachable in Hr as (I1 & I2 & _).
  specialize (I2 d Hd). split; [by apply I1|done].
Qed.

(** C9.  In every reachable state an open betting window has a dealer
    behind it (a live connection).  The window is opened only by the
    openBets of the connection holding the slot, and the only step that
    empties the slot, the disconnection of the dealer, closes the window. *)
Theorem C9_open_window_has_dealer reg st :
  Reachable reg st ->
  (betsOpen st = true ->
     exists d, dealerSocket st = Some d /\ d <> EmptyString /\ is_Some (sockets st !! d))
  /\ (forall s e, betsOpen st = false -> betsOpen (handle reg st s e) = true ->
        e = OpenBets /\ dealerSocket st = Some s)
  /\ (forall s e d, dealerSocket st = Some d -> dealerSocket (handle reg st s e) = None ->
        e = Disconnect /\ s = d /\ betsOpen (handle reg st s e) = false)
  /\ (forall s, betsOpen (connect st s) = betsOpen st
                /\ dealerSocket (connect st s) = dealerSocket st)
  /\ betsOpen (spinTimer st) = betsOpen st
  /\ dealerSocket (spinTimer st) = dealerSocket st.
Proof.
  intros HR. split; [|split; [|split; [|split; [|split]]]]; try done.
  - intros Hb. destruct HR as [U Hr]. pose proof (slotInv_reachable _ _ _ Hr) as (I1 & I2 & I3).
    destruct (I3 Hb) as [d Hd]. exists d. split; [done|].
    apply (reachable_dealer_truthy reg); [by exists U|done].
  - intros s e Hb. destruct e; unfold handle.
    + rewrite betsOpen_join. congruence.
    + destruct st; crush_handler.
    + unfold dealerLogin. case_match; simpl; congruence.
    + rewrite betsOpen_disconnect. case_match; congruence.
    + destruct st; crush_handler.
    + unfold openBets. case_match eqn:Hd; [congruence|].
      intros _. split; [done|]. by apply negb_false_iff, isDealer_true in Hd.
    + destruct st; crush_handler.
    + destruct st; crush_handler.
  - intros s e d Hd. destruct e; unfold handle.
    + rewrite dealerSocket_join. case_match; congruence.
    + destruct st; crush_handler.
    + unfold dealerLogin. case_match; simpl; congruence.
    + rewrite dealerSocket_disconnect, betsOpen_disconnect. case_match eqn:Hs; [|congruence].
      intros _. apply isDealer_true in Hs. split; [done|]. split; congruence.
    + destruct st; crush_handler.
    + destruct st; crush_handler.
    + destruct st; crush_handler.
    + destruct st; crush_handler.
Qed.

Lemma C9_witness :
  exists d, dealerSocket (run demoRegistry openTrace) = Some d /\ d <> EmptyString
            /\ is_Some (sockets (run demoRegistry openTrace) !! d).
Proof.
  apply (C9_open_window_has_dealer demoRegistry (run demoRegistry openTrace)).
  - apply run_reachable. vm_compute. reflexivity.
  - vm_compute. reflexivity.
Defined.

(** *** C5 *)

(** C5.  At most one connection passes the dealer test at any time.  While
    the slot is held a dealerLogin changes nothing at all and a join leaves
    the slot with its holder; a step gives the slot to a connection only
    when the slot was empty and the step is that connection's dealerLogin
    or join carrying the registry's dealer code. *)
Theorem C5_single_dealer reg st :
  Reachable reg st ->
  (forall s1 s2, isDealer st s1 = true -> isDealer st s2 = true -> s1 = s2)
  /\ (forall s code, is_Some (dealerSocket st) -> dealerLogin reg st s code = st)
  /\ (forall s ident, is_Some (dealerSocket st) ->
        dealerSocket (join reg st s ident) = dealerSocket st)
  /\ (forall s e d, dealerSocket (handle reg st s e) = Some d -> dealerSocket st <> Some d ->
        d = s /\ dealerSocket st = None
        /\ exists c, DEALER_CODE reg = Some c
                     /\ (e = DealerLogin (Js.VStr c) \/ e = Join c)).
Proof.
  intros HR.
  assert (forall v, is_Some (dealerSocket st) -> mayGrant reg st v = false) as Hheld.
  { intros v [d Hd]. destruct (mayGrant reg st v) eqn:E; [|done].
    apply mayGrant_true in E as (c & _ & _ & _ & Ht). rewrite Hd in Ht. simpl in Ht.
    destruct (reachable_dealer_truthy reg st d HR Hd) as [Hne _].
    apply truthyS_true in Hne. congruence. }
  assert (forall v, mayGrant reg st v = true ->
            dealerSocket st = None /\ exists c, DEALER_CODE reg = Some c /\ v = Js.VStr c) as Hfree.
  { intros v E. split.
    - destruct (dealerSocket st) as [d|] eqn:Hd; [|done].
      rewrite Hheld in E; [done|by eexists].
    - apply mayGrant_true in E as (c & ? & _ & ? & _). by exists c. }
  split; [|split; [|split]].
  - intros s1 s2 H1 H2. apply isDealer_true in H1, H2. congruence.
  - intros s code Hd. unfold dealerLogin. by rewrite Hheld.
  - intros s ident Hd. rewrite dealerSocket_join, Hheld by done.
    by rewrite andb_false_r.
  - intros s e d. destruct e; unfold handle.
    + rewrite dealerSocket_join. case_match eqn:E; [|congruence].
      intros [= <-] _. apply andb_true_iff in E as [_ E].
      apply Hfree in E as (Hn & c & Hc & [= ->]). split; [done|]. split; [done|].
      exists c. split; [done|by right].
    + destruct st; crush_handler.
    + unfold dealerLogin. case_match eqn:E; simpl; [|congruence].
      intros [= <-] _. apply Hfree in E as (Hn & c & Hc & ->). split; [done|]. split; [done|].
      exists c. split; [done|by left].
    + rewrite dealerSocket_disconnect. case_match; congruence.
    + destruct st; crush_handler.
    + destruct st; crush_handler.
    + destruct st; crush_handler.
    + destruct st; crush_handler.
Qed.

Lemma C5_witness :
  dealerLogin demoRegistry (run demoRegistry openTrace) "p" dealerCode
  = run demoRegistry openTrace.
Proof.
  apply (C5_single_dealer demoRegistry (run demoRegistry openTrace)).
  - apply run_reachable. vm_compute. reflexivity.
  - vm_compute. eexists. reflexivity.
Defined.

(** *** C6 *)

Lemma selections_handle reg st s e :
  selections (handle reg st s e) =
  match e with
  | Disconnect => odel (selections st) s
  | Select bet =>
      if betsOpen st && negb (isDealer st s)
      then oset (selections st) s (Selection (data_name (socketData st s)) bet)
      else selections st
  | _ => selections st
  end.
Proof.
  destruct e; unfold handle.
  - apply selections_join.
  - destruct st; crush_handler.
  - unfold dealerLogin. by case_match.
  - apply selections_disconnect.
  - unfold select. destruct (betsOpen st), (isDealer st s); reflexivity.
  - unfold openBets. by case_match.
  - unfold closeBets. by case_match.
  - destruct st; crush_handler.
Qed.

Lemma dealerSocket_handle_keep reg st s e d :
  dealerSocket (handle reg st s e) = Some d ->
  match e with
  | Disconnect => d <> s /\ dealerSocket st = Some d
  | Select _ => dealerSocket st = Some d
  | _ => True
  end.
Proof.
  destruct e; unfold handle; try done.
  - rewrite dealerSocket_disconnect. case_match eqn:E; [done|].
    intros Hd. split; [|done]. intros ->. apply isDealer_true in Hd. congruence.
  - unfold select. by repeat case_match.
Qed.

(** The claim C6 fails: after the dealer has left, a player who holds a
    bet claims the slot and keeps the bet. *)
Lemma C6_counterexample :
  Reachable demoRegistry (run demoRegistry promoteTrace)
  /\ ~ dealerHoldsNoBet (run demoRegistry promoteTrace).
Proof.
  split.
  - apply run_reachable. vm_compute. reflexivity.
  - intros H. specialize (H "p"%string eq_refl). vm_compute in H. discriminate.
Qed.

(** C6, amended.  The connection that holds the dealer slot cannot bet:
    its select is ignored.  And no step records or changes a ledger entry
    of the connection that holds the slot after the step: an entry of the
    dealer's connection is one it held before it was granted the slot. *)
Theorem C6_dealer_cannot_bet reg st s e :
  (forall bet, isDealer st s = true -> select st s bet = st)
  /\ (forall d x, dealerSocket (handle reg st s e) = Some d ->
        oget (selections (handle reg st s e)) d = Some x ->
        oget (selections st) d = Some x).
Proof.
  split.
  - intros bet Hd. unfold select. rewrite Hd. by destruct (betsOpen st).
  - intros d x Hd. pose proof (dealerSocket_handle_keep _ _ _ _ _ Hd) as Hk.
    rewrite selections_handle. destruct e; try done.
    + destruct Hk as [Hne _]. by rewrite oget_odel_ne.
    + destruct (betsOpen st && negb (isDealer st s)) eqn:E; [|done].
      apply andb_true_iff in E as [_ E]. apply negb_true_iff in E.
      rewrite oget_oset_ne; [done|]. intros ->. apply isDealer_true in Hk. congruence.
Qed.

Lemma C6_witness :
  select (run demoRegistry promoteTrace) "p" (Js.VNum (Js.ofZ 7))
    = run demoRegistry promoteTrace
  /\ oget (selections (run demoRegistry leftTrace)) "p"
     = Some (Selection None (Js.VNum (Js.ofZ 5))).
Proof.
  split.
  - apply (C6_dealer_cannot_bet demoRegistry (run demoRegistry promoteTrace) "p" OpenBets).
    vm_compute. reflexivity.
  - apply (proj2 (C6_dealer_cannot_bet demoRegistry (run demoRegistry leftTrace)
                    "p" (DealerLogin dealerCode)) "p"%string).
    + vm_compute. reflexivity.
    + vm_compute. reflexivity.
Defined.

(** *** C4 *)

(** The claim C4 fails: a value of no accepted shape is recorded. *)
Lemma C4_counterexample :
  acceptedShape (Js.VStr "purple") = false
  /\ selections (select (run demoRegistry openTrace) "p" (Js.VStr "purple"))
     <> selections (run demoRegistry openTrace).
Proof. split; [reflexivity|]. vm_compute. discriminate. Qed.

(** C4, amended.  A select records the submitted value as it is, whatever
    its shape, when the window is open and the caller is not the dealer,
    and touches no other entry; in every other case the state is unchanged.
    A submitted null is stored as a null bet of the caller, which the
    leaderboard shows as no bet. *)
Theorem C4_select_records_verbatim st s bet :
  (betsOpen st = true -> isDealer st s = false ->
     oget (selections (select st s bet)) s
       = Some (Selection (data_name (socketData st s)) bet)
     /\ (forall s', s' <> s ->
           oget (selections (select st s bet)) s' = oget (selections st) s')
     /\ select st s bet = withSelections st (selections (select st s bet))
     /\ (bet = Js.VNull -> liveBet (select st s bet) s = Js.VNull))
  /\ (betsOpen st = false \/ isDealer st s = true -> select st s bet = st).
Proof.
  split.
  - intros Hb Hd. unfold select, liveBet. rewrite Hb, Hd. simpl.
    rewrite oget_oset_eq. repeat split; try done.
    + intros s' Hne. by apply oget_oset_ne.
    + by intros ->.
  - intros [Hb|Hd]; unfold select.
    + by rewrite Hb.
    + rewrite Hd. by destruct (betsOpen st).
Qed.

Lemma C4_witness :
  oget (selections (select (run demoRegistry openTrace) "p" (Js.VStr "purple"))) "p"
    = Some (Selection None (Js.VStr "purple"))
  /\ select (run demoRegistry openTrace) "d" (Js.VStr "red") = run demoRegistry openTrace.
Proof.
  split.
  - apply (C4_select_records_verbatim (run demoRegistry openTrace) "p" (Js.VStr "purple"));
      vm_compute; reflexivity.
  - apply (C4_select_records_verbatim (run demoRegistry openTrace) "d" (Js.VStr "red")).
    right. vm_compute. reflexivity.
Defined.

(* ===================================================================== *)
(** ** The wheel and the empty bet *)
(* ===================================================================== *)

(** *** The wheel *)

Lemma Qeq_bool_inject (a b : Z) : Qeq_bool (inject_Z a) (inject_Z b) = (a =? b)%Z.
Proof.
  unfold Qeq_bool, inject_Z. simpl. by rewrite !Z.mul_1_r.
Qed.





(** *** C10 *)

(** C10.  A stored empty string is normalised to the number 0: it is
    classified WIN when the winning number is 0 and LOSE otherwise, which
    is what the numeric bet 0 gets (0 has no colour), and the weighting
    counts its owner as a numeric bettor on 0. *)
Theorem C10_empty_string_is_zero (win : Js.num) (b : buckets) (s : sid) :
  normalizeBet (Js.VStr EmptyString) = Js.VNum (Js.ofZ 0)
  /\ classify (Js.VStr EmptyString) win = classify (Js.VNum (Js.ofZ 0)) win
  /\ classify (Js.VStr EmptyString) win
     = (if Js.num_seq (Js.ofZ 0) win then WIN else LOSE)
  /\ addBet b s (Js.VStr EmptyString)
     = Some (Buckets (alter (fun l => l ++ [s]) 0%nat (bettorsByNumber b))
               (bettorsRed b) (bettorsBlack b) true (anyColor b))
  /\ betCovers (Js.VStr EmptyString) 0 = true.
Proof.
  split; [reflexivity|]. split; [reflexivity|]. split; [|split; reflexivity].
  unfold classify. simpl. destruct (Js.num_seq (Js.ofZ 0) win); reflexivity.
Qed.

(** *** C3 *)

Lemma Qeq_bool_compat_l q q' x : (q == q')%Q -> Qeq_bool q x = Qeq_bool q' x.
Proof.
  intros H. destruct (Qeq_bool q' x) eqn:E.
  - apply Qeq_bool_iff. apply Qeq_bool_iff in E. by rewrite H.
  - destruct (Qeq_bool q x) eqn:E'; [|done].
    apply Qeq_bool_iff in E'. rewrite H in E'. apply Qeq_bool_iff in E'. congruence.
Qed.

Lemma Qeq_bool_compat_r q q' x : (q == q')%Q -> Qeq_bool x q = Qeq_bool x q'.
Proof.
  intros H. destruct (Qeq_bool x q') eqn:E.
  - apply Qeq_bool_iff. apply Qeq_bool_iff in E. by rewrite H.
  - destruct (Qeq_bool x q) eqn:E'; [|done].
    apply Qeq_bool_iff in E'. rewrite H in E'. apply Qeq_bool_iff in E'. congruence.
Qed.


Lemma isRed_Qeq q q' : (q == q')%Q -> isRed (Js.Fin q) = isRed (Js.Fin q').
Proof.
  intros H. unfold isRed. induction redNumbers as [|x l IH]; [done|].
  cbn [existsb]. rewrite IH. unfold Js.num_seq, Js.ofZ. by rewrite (Qeq_bool_compat_r _ _ _ H).
Qed.


Lemma Qfloor_range q : (0 <= q)%Q -> (q <= 36)%Q -> (0 <= Qfloor q <= 36)%Z.
Proof.
  intros H0 H36. split.
  - change 0%Z with (Qfloor 0). by apply Qfloor_resp_le.
  - change 36%Z with (Qfloor 36). by apply Qfloor_resp_le.
Qed.


(** The colour test of [isBlack] is [n !== 0 && !isRed(n)]: it also answers
    true for a number that is not on the wheel.  With the stored bet 37 and
    the black winning number 2 the spin stores COLOR, where the tagged bets
    of the specification have no place for 37. *)
Lemma off_wheel_bet_scores_COLOR :
  Reachable demoRegistry (run demoRegistry outOfRangeTrace)
  /\ lastSpinResult (run demoRegistry outOfRangeTrace)
     = Some (SpinResult (Js.ofZ 2) [("p"%string, COLOR)])
  /\ classify (Js.VNum (Js.ofZ 37)) (Js.ofZ 2) = COLOR
  /\ classifySpec (specBetOf (Js.VNum (Js.ofZ 37))) 2 = LOSE.
Proof.
  split; [apply run_reachable; vm_compute; reflexivity|].
  split; [vm_compute; reflexivity|]. split; reflexivity.
Qed.

(* ===================================================================== *)
(** ** Sums and the draw loop *)
(* ===================================================================== *)

(** *** Sums *)

Lemma fold_left_Qplus (l : list Q) (a : Q) :
  (fold_left Qplus l a == a + fold_right Qplus 0 l)%Q.
Proof.
  revert a. induction l as [|x l IH]; intros a; simpl; [lra|].
  rewrite IH. lra.
Qed.

Lemma sumQ_map (f : nat -> Q) (l : list nat) : (sumQ (map f l) == qsum f l)%Q.
Proof.
  unfold sumQ. rewrite fold_left_Qplus.
  induction l as [|x l IH]; simpl; [lra|]. simpl in IH. lra.
Qed.


Lemma qsum_ext f g l :
  (forall n, In n l -> (f n == g n)%Q) -> (qsum f l == qsum g l)%Q.
Proof.
  induction l as [|x l IH]; intros H; simpl; [lra|].
  rewrite (H x) by (by left). rewrite IH; [lra|]. intros n Hn. apply H. by right.
Qed.







(** *** The draw loop *)

Lemma cdfLoop_In r acc T es k :
  cdfLoop r acc T es = Some k -> In k (map fst es).
Proof.
  revert acc. induction es as [|[n x] es IH]; intros acc; simpl; [done|].
  destruct (Qle_bool r (acc + x / T)); [intros [= ->]; by left|].
  intros H. right. by apply (IH _ H).
Qed.

Lemma Qle_bool_false x y : Qle_bool x y = false <-> (y < x)%Q.
Proof.
  split.
  - intros H. apply Qnot_le_lt. intros Hle. apply Qle_bool_iff in Hle. congruence.
  - intros H. destruct (Qle_bool x y) eqn:E; [|done].
    apply Qle_bool_iff in E. lra.
Qed.




(* ===================================================================== *)
(** ** The object of the high-weight numbers *)
(* ===================================================================== *)

(** *** Objects keyed by numbers *)

Lemma iget_iset o n v m :
  iget (iset o n v) m = if (m =? n)%nat then Some v else iget o m.
Proof.
  induction o as [|[k x] o IH]; simpl.
  - rewrite (Nat.eqb_sym n m). done.
  - destruct (Nat.eqb_spec k n) as [->|Hkn]; simpl.
    + rewrite (Nat.eqb_sym n m). by destruct (m =? n)%nat.
    + destruct (n <? k)%nat; simpl.
      * rewrite (Nat.eqb_sym n m). by destruct (m =? n)%nat.
      * rewrite IH. destruct (Nat.eqb_spec k m) as [->|Hkm]; [|done].
        destruct (Nat.eqb_spec m n); [congruence|done].
Qed.

Lemma iset_keys o n v k : In k (map fst (iset o n v)) -> k = n \/ In k (map fst o).
Proof.
  induction o as [|[k0 x] o IH]; simpl.
  - intros [<-|[]]. by left.
  - destruct (k0 =? n)%nat; simpl; [tauto|].
    destruct (n <? k0)%nat; simpl; [intros [<-|H]; tauto|].
    intros [<-|H]; [tauto|]. apply IH in H. tauto.
Qed.

Lemma iset_sorted o n v :
  StronglySorted lt (map fst o) -> StronglySorted lt (map fst (iset o n v)).
Proof.
  induction o as [|[k x] o IH]; simpl; intros Hs.
  - repeat constructor.
  - apply StronglySorted_inv in Hs as [Hs Hk].
    destruct (Nat.eqb_spec k n) as [->|Hkn]; simpl; [by constructor|].
    destruct (Nat.ltb_spec n k) as [Hlt|Hge]; simpl.
    + constructor; [by constructor|]. constructor; [done|].
      eapply Forall_impl; [exact Hk|]. simpl. intros. lia.
    + constructor; [by apply IH|]. apply Forall_forall. intros y Hy.
      apply list_elem_of_In, iset_keys in Hy as [->|Hy]; [lia|].
      rewrite Forall_forall in Hk. by apply Hk, list_elem_of_In.
Qed.

Lemma iget_None o n : ~ In n (map fst o) -> iget o n = None.
Proof.
  induction o as [|[k x] o IH]; simpl; [done|]. intros H.
  destruct (Nat.eqb_spec k n) as [->|Hkn]; [tauto|]. apply IH. tauto.
Qed.

Lemma iget_Some_In o n v : iget o n = Some v -> In n (map fst o).
Proof.
  induction o as [|[k x] o IH]; simpl; [done|].
  destruct (Nat.eqb_spec k n) as [->|Hkn]; [by left|]. intros H. right. by apply IH.
Qed.

(** Two objects with sorted keys and the same content are the same. *)
Lemma idict_ext o1 : forall o2,
  StronglySorted lt (map fst o1) -> StronglySorted lt (map fst o2) ->
  (forall n, iget o1 n = iget o2 n) -> o1 = o2.
Proof.
  induction o1 as [|[k1 v1] o1 IH]; intros [|[k2 v2] o2] H1 H2 Hext.
  - done.
  - specialize (Hext k2). simpl in Hext. by rewrite Nat.eqb_refl in Hext.
  - specialize (Hext k1). simpl in Hext. by rewrite Nat.eqb_refl in Hext.
  - simpl in H1, H2.
    apply StronglySorted_inv in H1 as [H1 Hk1]. apply StronglySorted_inv in H2 as [H2 Hk2].
    rewrite Forall_forall in Hk1, Hk2.
    assert (k1 = k2) as <-.
    { destruct (Nat.lt_trichotomy k1 k2) as [Hlt|[->|Hgt]]; [|done|].
      - pose proof (Hext k1) as E. simpl in E. rewrite Nat.eqb_refl in E.
        destruct (Nat.eqb_spec k2 k1); [lia|].
        symmetry in E. apply iget_Some_In, list_elem_of_In, Hk2 in E. lia.
      - pose proof (Hext k2) as E. simpl in E. rewrite Nat.eqb_refl in E.
        destruct (Nat.eqb_spec k1 k2); [lia|].
        apply iget_Some_In, list_elem_of_In, Hk1 in E. lia. }
    pose proof (Hext k1) as E. simpl in E. rewrite Nat.eqb_refl in E. injection E as <-.
    f_equal. apply IH; try done. intros n.
    destruct (Nat.eq_dec n k1) as [->|Hne].
    + rewrite !iget_None; [done| |]; intros Hin.
      * apply list_elem_of_In, Hk2 in Hin. lia.
      * apply list_elem_of_In, Hk1 in Hin. lia.
    + specialize (Hext n). simpl in Hext.
      destruct (Nat.eqb_spec k1 n); [congruence|done].
Qed.

Lemma inb_true m l : inb m l = true <-> In m l.
Proof.
  unfold inb. rewrite existsb_exists. split.
  - intros (x & Hx & E). apply Nat.eqb_eq in E. by subst.
  - intros H. exists m. split; [done|apply Nat.eqb_refl].
Qed.

Lemma iget_table f l m :
  iget (table f l) m = if inb m l && (0 <? f m)%nat then Some (f m) else None.
Proof.
  unfold table. induction l as [|x l IH]; [done|].
  rewrite filter_cons. destruct (decide ((0 <? f x)%nat = true)) as [E|E]; simpl.
  - destruct (Nat.eqb_spec x m) as [->|Hne].
    + by rewrite Nat.eqb_refl, E.
    + rewrite IH. destruct (Nat.eqb_spec m x); [congruence|done].
  - rewrite IH. destruct (Nat.eqb_spec m x) as [->|Hne]; [|done].
    simpl. apply not_true_is_false in E. rewrite E, andb_false_r.
    by destruct (inb x l).
Qed.

Lemma table_keys f l k : In k (map fst (table f l)) -> In k l /\ (0 < f k)%nat.
Proof.
  unfold table. rewrite map_map. simpl. rewrite map_id.
  intros H. apply list_elem_of_In, list_elem_of_filter in H as [H1 H2].
  split; [by apply list_elem_of_In|by apply Nat.ltb_lt].
Qed.

Lemma table_sorted f l :
  StronglySorted lt l -> StronglySorted lt (map fst (table f l)).
Proof.
  unfold table. rewrite map_map. simpl. rewrite map_id.
  induction 1 as [|x l Hs IH Hx]; [constructor|].
  rewrite filter_cons. destruct (decide ((0 <? f x)%nat = true)); [|done].
  constructor; [done|]. apply Forall_forall. intros y Hy.
  apply list_elem_of_filter in Hy as [_ Hy].
  rewrite Forall_forall in Hx. by apply Hx.
Qed.

Lemma iget_bump hw n c m :
  iget (bump hw n c) m =
  if (m =? n)%nat then Some (match iget hw n with Some x => x | None => 0 end + c)%nat
  else iget hw m.
Proof. unfold bump. apply iget_iset. Qed.

Lemma bumpLoop_sorted p c l : forall hw,
  StronglySorted lt (map fst hw) -> StronglySorted lt (map fst (bumpLoop p c l hw)).
Proof.
  induction l as [|n l IH]; intros hw Hs; [done|]. simpl. apply IH.
  destruct (p n); [|done]. by apply iset_sorted.
Qed.

Lemma iget_bumpLoop p c l : forall hw m,
  NoDup l ->
  iget (bumpLoop p c l hw) m =
  if inb m l && p m
  then Some (match iget hw m with Some x => x | None => 0 end + c m)%nat
  else iget hw m.
Proof.
  induction l as [|n l IH]; intros hw m Hnd; [done|].
  apply NoDup_cons in Hnd as [Hn Hnd]. simpl. rewrite IH by done.
  destruct (Nat.eqb_spec m n) as [->|Hne]; simpl.
  - assert (inb n l = false) as ->.
    { destruct (inb n l) eqn:E; [|done]. apply inb_true in E.
      exfalso. apply Hn. by apply list_elem_of_In. }
    simpl. destruct (p n); [|done]. by rewrite iget_bump, Nat.eqb_refl.
  - destruct (p n); [|done]. rewrite iget_bump.
    destruct (Nat.eqb_spec m n); [congruence|done].
Qed.

Lemma wheel_NoDup : NoDup wheel.
Proof. apply NoDup_ListNoDup, List.seq_NoDup. Qed.

Lemma seq_sorted n : forall a, StronglySorted lt (List.seq a n).
Proof.
  induction n as [|n IH]; intros a; simpl.
  - constructor.
  - constructor; [apply IH|]. apply Forall_forall. intros x Hx.
    apply list_elem_of_In, in_seq in Hx. lia.
Qed.

Lemma wheel_sorted : StronglySorted lt wheel.
Proof. apply seq_sorted. Qed.

Lemma inb_wheel m : inb m wheel = (m <? 37)%nat.
Proof.
  destruct (Nat.ltb_spec m 37) as [H|H].
  - apply inb_true, in_seq. lia.
  - destruct (inb m wheel) eqn:E; [|done]. apply inb_true, in_seq in E. lia.
Qed.

Lemma highNumeric_loop b w :
  highNumeric b w
  = bumpLoop (fun n => (0 <? countHigh w (nth n (bettorsByNumber b) []))%nat)
      (fun n => countHigh w (nth n (bettorsByNumber b) [])) wheel [].
Proof.
  unfold highNumeric, bumpLoop.
  apply (f_equal (fun f => fold_left f wheel [])). reflexivity.
Qed.

Lemma highColor_loop p c hw :
  highColor p c hw =
  if (0 <? c)%nat then bumpLoop (fun n => p (Js.ofNat n)) (fun _ => c) wheel hw else hw.
Proof. unfold highColor, bumpLoop. destruct (0 <? c)%nat; reflexivity. Qed.

Lemma iget_highNumeric b w m :
  iget (highNumeric b w) m =
  if (m <? 37)%nat && (0 <? countHigh w (nth m (bettorsByNumber b) []))%nat
  then Some (countHigh w (nth m (bettorsByNumber b) [])) else None.
Proof.
  rewrite highNumeric_loop, iget_bumpLoop by apply wheel_NoDup.
  rewrite inb_wheel. cbn [iget]. by rewrite Nat.add_0_l.
Qed.

Lemma iget_highColor p c hw m :
  iget (highColor p c hw) m =
  if (0 <? c)%nat && ((m <? 37)%nat && p (Js.ofNat m))
  then Some (match iget hw m with Some x => x | None => 0 end + c)%nat
  else iget hw m.
Proof.
  rewrite highColor_loop. destruct (0 <? c)%nat; [|done].
  rewrite iget_bumpLoop by apply wheel_NoDup. by rewrite inb_wheel.
Qed.

Lemma highWeightNumbers_sorted b w : StronglySorted lt (map fst (highWeightNumbers b w)).
Proof.
  unfold highWeightNumbers. rewrite !highColor_loop, highNumeric_loop.
  repeat case_match; repeat apply bumpLoop_sorted; constructor.
Qed.

(** [highWeightNumbers] holds, under each number of the wheel with a
    positive count, that count. *)
Lemma highWeightNumbers_table b w :
  highWeightNumbers b w = table (highCount b w) wheel.
Proof.
  apply idict_ext.
  - apply highWeightNumbers_sorted.
  - apply table_sorted, wheel_sorted.
  - intros m. rewrite iget_table, inb_wheel. unfold highWeightNumbers, highCount.
    rewrite !iget_highColor, iget_highNumeric.
    generalize (countHigh w (nth m (bettorsByNumber b) [])) as cn.
    generalize (countHigh w (bettorsRed b)) as hR.
    generalize (countHigh w (bettorsBlack b)) as hB.
    intros hB hR cn.
    destruct (m <? 37)%nat, (isRed (Js.ofNat m)), (isBlack (Js.ofNat m));
      cbn [andb]; rewrite ?andb_false_r; rewrite ?andb_true_r;
      rewrite ?Nat.add_0_r; try done.
    all: destruct (Nat.ltb_spec 0 hB); destruct (Nat.ltb_spec 0 hR);
      destruct (Nat.ltb_spec 0 cn); cbn [andb];
      repeat match goal with
             | |- context [(0 <? ?x)%nat] => destruct (Nat.ltb_spec 0 x)
             end;
      try done; try lia; try (f_equal; lia).
Qed.

(* ===================================================================== *)
(** ** The bets filed by the spin *)
(* ===================================================================== *)

(** *** The bets filed by [spin] and the ledger *)

Lemma arraySlot_Some q k :
  arraySlot q = Some k -> (0 <= q)%Q -> (q <= 36)%Q ->
  (k <= 36)%nat /\ forall n, Qeq_bool q (inject_Z (Z.of_nat n)) = (n =? k)%nat.
Proof.
  unfold arraySlot. destruct (Qeq_bool q (inject_Z (Qfloor q))) eqn:E; [|done].
  intros [= <-] H0 H36. apply Qeq_bool_iff in E.
  pose proof (Qfloor_range q H0 H36) as Hz. split; [lia|].
  intros n. rewrite (Qeq_bool_compat_l _ _ _ E), Qeq_bool_inject.
  destruct (Nat.eqb_spec n (Z.to_nat (Qfloor q))) as [->|Hne].
  - apply Z.eqb_eq. lia.
  - apply Z.eqb_neq. lia.
Qed.

Lemma arraySlot_None q : arraySlot q = None <-> isInteger q = false.
Proof. unfold arraySlot, isInteger. destruct (Qeq_bool q (inject_Z (Qfloor q))); split; done. Qed.

Lemma num_range_Fin x :
  Js.num_ge x (Js.ofZ 0) && Js.num_le x (Js.ofZ 36) = true ->
  exists q, x = Js.Fin q /\ (0 <= q)%Q /\ (q <= 36)%Q.
Proof.
  destruct x as [|[|]|q]; simpl; try done.
  intros H. apply andb_true_iff in H as [H0 H36]. apply Qle_bool_iff in H0, H36.
  by exists q.
Qed.

Lemma num_out_of_range x n :
  Js.num_ge x (Js.ofZ 0) && Js.num_le x (Js.ofZ 36) = false -> (n <= 36)%nat ->
  Js.num_seq x (Js.ofNat n) = false.
Proof.
  intros H Hn. destruct x as [|neg|q]; try done. simpl in *.
  destruct (Qeq_bool q (inject_Z (Z.of_nat n))) eqn:E; [|done].
  apply Qeq_bool_iff in E. apply andb_false_iff in H as [H|H];
    apply Qle_bool_false in H; rewrite E in H.
  - change 0%Q with (inject_Z 0) in H. rewrite <- Zlt_Qlt in H. lia.
  - change 36%Q with (inject_Z 36) in H. rewrite <- Zlt_Qlt in H. lia.
Qed.

Lemma isBlack_not_red x : isBlack x = true -> isRed x = false.
Proof. unfold isBlack. intros H. apply andb_true_iff in H as [_ H]. by apply negb_true_iff. Qed.

Lemma nth_alter_app (bbn : list (list sid)) k n s :
  (k < length bbn)%nat ->
  nth n (alter (fun l => l ++ [s]) k bbn) [] =
  if (n =? k)%nat then nth n bbn [] ++ [s] else nth n bbn [].
Proof.
  revert k n. induction bbn as [|x bbn IH]; intros k n Hk; simpl in Hk; [lia|].
  destruct k as [|k]; destruct n as [|n]; simpl; try done.
  apply IH. lia.
Qed.

Lemma existsb_wheel_false (f : nat -> bool) :
  (forall n, (n <= 36)%nat -> f n = false) -> existsb f wheel = false.
Proof.
  intros H. destruct (existsb f wheel) eqn:E; [|done].
  apply existsb_exists in E as (n & Hn & Hf). apply in_seq in Hn.
  rewrite H in Hf; [done|lia].
Qed.

Lemma existsb_wheel_true (f : nat -> bool) n :
  (n <= 36)%nat -> f n = true -> existsb f wheel = true.
Proof.
  intros Hn Hf. apply existsb_exists. exists n. split; [apply in_seq; lia|done].
Qed.

(** What one bet adds to the bettors filed under [n]. *)
Lemma addBet_filed b s bet b' :
  length (bettorsByNumber b) = 37%nat ->
  addBet b s bet = Some b' ->
  length (bettorsByNumber b') = 37%nat
  /\ (anyNumeric b' || anyColor b'
      = anyNumeric b || anyColor b || existsb (betCovers bet) wheel)
  /\ forall n, (n <= 36)%nat ->
       filedUnder b' n ≡ₚ filedUnder b n ++ (if betCovers bet n then [s] else []).
Proof.
  intros Hlen. unfold addBet, betCovers. destruct (normalizeBet bet) as [| |x|x|c|].
  1-3,6: intros [= <-]; split; [done|]; split;
    [ rewrite existsb_wheel_false by done; by rewrite orb_false_r
    | intros n _; by rewrite app_nil_r ].
  - destruct (Js.num_ge x (Js.ofZ 0) && Js.num_le x (Js.ofZ 36)) eqn:Hr.
    + apply num_range_Fin in Hr as (q & -> & H0 & H36).
      destruct (arraySlot q) as [k|] eqn:Hk; [|done]. intros [= <-].
      apply arraySlot_Some in Hk as [Hk36 Hk]; try done.
      cbn [bettorsByNumber bettorsRed bettorsBlack anyNumeric anyColor].
      split; [by rewrite length_alter|]. split.
      * rewrite (existsb_wheel_true _ k); [by rewrite orb_true_r|done|].
        cbn [Js.num_seq Js.ofNat Js.ofZ]. by rewrite Hk, Nat.eqb_refl.
      * intros n Hn. simpl. rewrite Hk. unfold filedUnder, colorSids. simpl.
        rewrite nth_alter_app by lia. destruct (n =? k)%nat; [|by rewrite app_nil_r].
        rewrite <- !app_assoc. apply Permutation_app_head, Permutation_app_comm.
    + intros [= <-]. split; [done|]. split.
      * rewrite existsb_wheel_false; [by rewrite orb_false_r|].
        intros n Hn. by apply num_out_of_range.
      * intros n Hn. rewrite num_out_of_range by done. by rewrite app_nil_r.
  - destruct (String.eqb c "red") eqn:Er; [|destruct (String.eqb c "black") eqn:Eb].
    + apply String.eqb_eq in Er. subst c. intros [= <-].
      cbn [bettorsByNumber bettorsRed bettorsBlack anyNumeric anyColor].
      split; [done|]. split.
      * rewrite (existsb_wheel_true _ 1%nat); [by rewrite !orb_true_r|lia|done].
      * intros n Hn. unfold filedUnder, colorSids. simpl. rewrite orb_false_r.
        destruct (isRed (Js.ofNat n)); [by rewrite app_assoc|by rewrite app_nil_r].
    + apply String.eqb_eq in Eb. subst c. intros [= <-].
      cbn [bettorsByNumber bettorsRed bettorsBlack anyNumeric anyColor].
      split; [done|]. split.
      * rewrite (existsb_wheel_true _ 2%nat); [by rewrite !orb_true_r|lia|done].
      * intros n Hn. unfold filedUnder, colorSids. simpl.
        destruct (isBlack (Js.ofNat n)) eqn:EB.
        -- rewrite (isBlack_not_red _ EB). by rewrite app_assoc.
        -- by rewrite app_nil_r.
    + intros [= <-]. split; [done|]. split.
      * rewrite existsb_wheel_false; [by rewrite orb_false_r|]. done.
      * intros n _. simpl. by rewrite app_nil_r.
Qed.

Lemma addBet_None b s bet : addBet b s bet = None <-> indexable bet = false.
Proof.
  unfold addBet, indexable.
  destruct (normalizeBet bet) as [| |x|x|c|]; try (split; done).
  - destruct x as [|[|]|q]; try (split; done). simpl.
    change (inject_Z 0) with 0%Q. change (inject_Z 36) with 36%Q.
    destruct (Qle_bool 0 q && Qle_bool q 36); [|split; done].
    rewrite <- arraySlot_None. destruct (arraySlot q); split; done.
  - repeat case_match; split; done.
Qed.

(** The bettors filed under [n] are the bettors of the ledger covering
    [n]; the flags tell whether any bet was recognised. *)
Lemma classifyBets_filed sel : forall b b',
  length (bettorsByNumber b) = 37%nat ->
  classifyBets b sel = Some b' ->
  length (bettorsByNumber b') = 37%nat
  /\ (anyNumeric b' || anyColor b'
      = anyNumeric b || anyColor b
        || existsb (fun e => existsb (betCovers (sel_bet (snd e))) wheel) sel)
  /\ forall n, (n <= 36)%nat -> filedUnder b' n ≡ₚ filedUnder b n ++ coverers sel n.
Proof.
  induction sel as [|[s e] sel IH]; intros b b' Hlen; cbn [classifyBets existsb fst snd].
  - intros [= <-]. split; [done|]. split; [by rewrite orb_false_r|].
    intros n _. unfold coverers. simpl. by rewrite app_nil_r.
  - destruct (addBet b s (sel_bet e)) as [b1|] eqn:E1; [|done]. intros E2.
    destruct (addBet_filed _ _ _ _ Hlen E1) as (L1 & A1 & F1).
    destruct (IH _ _ L1 E2) as (L2 & A2 & F2).
    split; [done|]. split; [by rewrite A2, A1, orb_assoc|].
    intros n Hn. rewrite (F2 n Hn), (F1 n Hn). rewrite <- app_assoc.
    apply Permutation_app_head. unfold coverers. rewrite filter_cons. cbn [fst snd].
    destruct (decide (betCovers (sel_bet e) n = true)) as [->|Hc]; [done|].
    apply not_true_is_false in Hc. by rewrite Hc.
Qed.

Lemma classifyBets_total sel : forall b,
  forallb (fun e => indexable (sel_bet (snd e))) sel = true ->
  exists b', classifyBets b sel = Some b'.
Proof.
  induction sel as [|[s e] sel IH]; intros b; simpl; [by eexists|].
  intros H. apply andb_true_iff in H as [H1 H2].
  destruct (addBet b s (sel_bet e)) as [b1|] eqn:E1.
  - by apply IH.
  - apply addBet_None in E1. congruence.
Qed.

Lemma classifyBets_throws sel : forall b,
  classifyBets b sel = None ->
  forallb (fun e => indexable (sel_bet (snd e))) sel = false.
Proof.
  intros b H. destruct (forallb _ sel) eqn:E; [|done].
  destruct (classifyBets_total sel b E) as [b' Hb]. congruence.
Qed.

Lemma nth_repeat_nil (k n : nat) : nth n (repeat ([] : list sid) k) [] = [].
Proof. revert n. induction k as [|k IH]; intros [|n]; simpl; auto. Qed.

Lemma filedUnder_empty n : filedUnder emptyBuckets n = [].
Proof.
  unfold filedUnder, colorSids, emptyBuckets.
  cbn [bettorsByNumber bettorsRed bettorsBlack]. rewrite nth_repeat_nil.
  by repeat case_match.
Qed.

(** *** Counts and weights of the filed bettors *)

Lemma countHigh_fold w l c0 :
  fold_left (fun c s => if isHigh w s then (c + 1)%nat else c) l c0
  = (c0 + length (filter (fun s => isHigh w s = true) l))%nat.
Proof.
  revert c0. induction l as [|s l IH]; intros c0; simpl; [lia|].
  rewrite IH, filter_cons. destruct (isHigh w s); simpl; lia.
Qed.

Lemma countHigh_length w l :
  countHigh w l = length (filter (fun s => isHigh w s = true) l).
Proof. unfold countHigh. by rewrite countHigh_fold. Qed.

Lemma countHigh_perm w l l' : l ≡ₚ l' -> countHigh w l = countHigh w l'.
Proof. intros H. rewrite !countHigh_length. by rewrite H. Qed.

Lemma countHigh_app w l l' : countHigh w (l ++ l') = (countHigh w l + countHigh w l')%nat.
Proof. rewrite !countHigh_length, filter_app, length_app. done. Qed.

Lemma highCount_filed b w n : highCount b w n = countHigh w (filedUnder b n).
Proof.
  unfold highCount, filedUnder, colorSids. rewrite countHigh_app.
  destruct (isRed (Js.ofNat n)) eqn:ER; destruct (isBlack (Js.ofNat n)) eqn:EB;
    try (apply isBlack_not_red in EB; congruence).
  - lia.
  - lia.
  - change (countHigh w []) with 0%nat. lia.
Qed.

Lemma sumPos_positiveSum w l : forall s0,
  (sumPos w s0 l == s0 + positiveSum w l)%Q.
Proof.
  induction l as [|s l IH]; intros s0; simpl; [lra|].
  unfold sumPos in *. simpl. rewrite IH.
  destruct (negb (Qle_bool (weightOf w s) 0)); lra.
Qed.

Lemma positiveSum_app w l l' :
  (positiveSum w (l ++ l') == positiveSum w l + positiveSum w l')%Q.
Proof.
  induction l as [|s l IH]; simpl; [lra|].
  destruct (negb (Qle_bool (weightOf w s) 0)); lra.
Qed.

Lemma positiveSum_perm w l l' : l ≡ₚ l' -> (positiveSum w l == positiveSum w l')%Q.
Proof.
  induction 1 as [|x l l' _ IH|x y l|l l' l'' _ IH1 _ IH2]; simpl.
  - lra.
  - destruct (negb (Qle_bool (weightOf w x) 0)); lra.
  - destruct (negb (Qle_bool (weightOf w x) 0)), (negb (Qle_bool (weightOf w y) 0)); lra.
  - lra.
Qed.

Lemma positiveSum_nonneg w l : (0 <= positiveSum w l)%Q.
Proof.
  induction l as [|s l IH]; simpl; [lra|].
  destruct (Qle_bool (weightOf w s) 0) eqn:E; simpl; [done|].
  apply Qle_bool_false in E. lra.
Qed.

(** The positive weights sum to nothing exactly when no weight is
    positive. *)
Lemma positiveSum_zero w l :
  Qle_bool (positiveSum w l) 0 = forallb (fun s => Qle_bool (weightOf w s) 0) l.
Proof.
  induction l as [|s l IH]; simpl; [done|].
  destruct (Qle_bool (weightOf w s) 0) eqn:E; simpl; [done|].
  apply Qle_bool_false in E. apply Qle_bool_false.
  pose proof (positiveSum_nonneg w l). lra.
Qed.

Lemma forallb_perm {A} (f : A -> bool) l l' : l ≡ₚ l' -> forallb f l = forallb f l'.
Proof.
  induction 1 as [|x l l' _ IH|x y l|l l' l'' _ IH1 _ IH2]; simpl.
  - done.
  - by rewrite IH.
  - by destruct (f x), (f y).
  - congruence.
Qed.

Lemma Qle_bool_compat x y z : (x == y)%Q -> Qle_bool x z = Qle_bool y z.
Proof.
  intros H. destruct (Qle_bool y z) eqn:E.
  - apply Qle_bool_iff. apply Qle_bool_iff in E. lra.
  - apply Qle_bool_false. apply Qle_bool_false in E. lra.
Qed.

(** [weights[n]] is the weight the normal rule prescribes for the bettors
    filed under [n]. *)
Lemma numberWeight_filed b w n :
  (numberWeight b w n == weightFor w (filedUnder b n))%Q.
Proof.
  unfold numberWeight, filedUnder, weightFor.
  set (num := nth n (bettorsByNumber b) []). set (col := colorSids b n).
  assert (sumPos w (sumPos w 0 num) col == positiveSum w (num ++ col))%Q as Hs.
  { rewrite !sumPos_positiveSum, positiveSum_app. lra. }
  rewrite (Qle_bool_compat _ _ _ Hs), positiveSum_zero.
  destruct num as [|x num]; [destruct col as [|y col]|]; cbn [length app Nat.ltb Nat.leb orb negb].
  - reflexivity.
  - match goal with |- context [forallb ?f ?l] => destruct (forallb f l) end;
      [reflexivity|]. rewrite Hs. reflexivity.
  - match goal with |- context [forallb ?f ?l] => destruct (forallb f l) end;
      [reflexivity|]. rewrite Hs. reflexivity.
Qed.

Lemma specWeight_perm sel w n l :
  l ≡ₚ coverers sel n -> (weightFor w l == specWeight sel w n)%Q.
Proof.
  intros H. unfold specWeight, weightFor.
  rewrite (forallb_perm _ _ _ H).
  destruct l as [|x l].
  - destruct (coverers sel n) as [|y c] eqn:E; [reflexivity|].
    by apply Permutation_nil_cons in H.
  - destruct (coverers sel n) as [|y c] eqn:E.
    + symmetry in H. by apply Permutation_nil_cons in H.
    + destruct (forallb _ (y :: c)); [reflexivity|].
      rewrite (positiveSum_perm _ _ _ H). reflexivity.
Qed.



(* ===================================================================== *)
(** ** The cumulative draws *)
(* ===================================================================== *)

(** *** Every bettor has one entry *)

Section OdictKeys.
Context {V : Type}.
Implicit Types (o : odict V) (k : string) (v : V).

Lemma okeys_oset o k v x : x ∈ okeys (oset o k v) -> x = k \/ x ∈ okeys o.
Proof.
  unfold okeys. induction o as [|[k' v'] o IH]; simpl.
  - intros H. apply list_elem_of_singleton in H. by left.
  - destruct (String.eqb k' k); simpl; intros H.
    + by right.
    + apply elem_of_cons in H as [->|H]; [right; by left|].
      apply IH in H as [->|H]; [by left|right; by right].
Qed.

Lemma okeys_odel o k x : x ∈ okeys (odel o k) -> x ∈ okeys o.
Proof.
  unfold okeys. induction o as [|[k' v'] o IH]; simpl; [done|].
  destruct (String.eqb k' k); simpl; intros H.
  - right. by apply IH.
  - apply elem_of_cons in H as [->|H]; [by left|right; by apply IH].
Qed.

Lemma NoDup_oset o k v : NoDup (okeys o) -> NoDup (okeys (oset o k v)).
Proof.
  unfold okeys. induction o as [|[k' v'] o IH]; simpl; intros Hnd.
  - apply NoDup_singleton.
  - apply NoDup_cons in Hnd as [Hk Hnd].
    destruct (String.eqb k' k) eqn:E; simpl.
    + by apply NoDup_cons.
    + apply NoDup_cons. split; [|by apply IH].
      intros Hin. apply okeys_oset in Hin as [->|Hin]; [|done].
      by rewrite String.eqb_refl in E.
Qed.

Lemma NoDup_odel o k : NoDup (okeys o) -> NoDup (okeys (odel o k)).
Proof.
  unfold okeys. induction o as [|[k' v'] o IH]; simpl; intros Hnd; [done|].
  apply NoDup_cons in Hnd as [Hk Hnd].
  destruct (String.eqb k' k); simpl; [by apply IH|].
  apply NoDup_cons. split; [|by apply IH].
  intros Hin. by apply okeys_odel in Hin.
Qed.
End OdictKeys.


(** *** What the spin knows of the ledger *)

Lemma classifyBets_spec sel w b :
  classifyBets emptyBuckets sel = Some b ->
  (anyNumeric b || anyColor b
   = existsb (fun e => existsb (betCovers (sel_bet (snd e))) wheel) sel)
  /\ forall n, (n <= 36)%nat ->
       highCount b w n = highCover sel w n
       /\ (numberWeight b w n == specWeight sel w n)%Q.
Proof.
  intros H. apply classifyBets_filed in H as (_ & HA & HF); [|apply repeat_length].
  split; [exact HA|]. intros n Hn. specialize (HF n Hn).
  rewrite filedUnder_empty in HF. simpl in HF. split.
  - rewrite highCount_filed, (countHigh_perm _ _ _ HF). apply countHigh_length.
  - rewrite numberWeight_filed. by apply specWeight_perm.
Qed.

Lemma computeSpin_Some sel w cr r res :
  computeSpin sel w cr r = Some res ->
  exists b, classifyBets emptyBuckets sel = Some b
            /\ winningNumber res = selectWinner b w (average cr) r
            /\ results res = spinResults sel (winningNumber res).
Proof.
  unfold computeSpin. destruct (classifyBets emptyBuckets sel) as [b|]; [|done].
  intros [= <-]. by exists b.
Qed.

Lemma computeSpin_total sel w cr r :
  forallb (fun e => indexable (sel_bet (snd e))) sel = true ->
  exists res, computeSpin sel w cr r = Some res.
Proof.
  intros H. destruct (classifyBets_total sel emptyBuckets H) as [b Hb].
  unfold computeSpin. rewrite Hb. by eexists.
Qed.

Lemma spin_commits st s cr r res :
  isDealer st s = true -> spinning st = false ->
  computeSpin (selections st) (weightBySocket st) cr r = Some res ->
  lastSpinResult (spin st s cr r) = Some res
  /\ betsOpen (spin st s cr r) = false
  /\ spinning (spin st s cr r) = true.
Proof.
  intros Hd Hs Hc. unfold spin. rewrite Hd, Hs, Hc. done.
Qed.

(** *** The cumulative draw over the wheel *)





Section Draw.
Variables (g : nat -> Q) (keep : nat -> bool) (T : Q).
Hypothesis HT : (0 < T)%Q.
Hypothesis Hg : forall n, (0 <= g n)%Q.
Hypothesis Hkeep : forall n, keep n = false -> (g n == 0)%Q.
Hypothesis Htotal : (T == sumBelow g 37)%Q.





End Draw.


(** *** The draw among the numbers of the high-weight bettors *)







Section HighDraw.
Variables (cnt : nat -> nat) (r : Q).
Hypothesis Hsome : exists n, (n <= 36)%nat /\ (0 < cnt n)%nat.




(** Whatever [r] is, the winner is a number some high-weight bettor
    covers. *)
Lemma drawHigh_covered :
  exists n, (n <= 36)%nat /\ drawHigh r (table cnt wheel) = Js.ofNat n /\ (0 < cnt n)%nat.
Proof.
  unfold drawHigh.
  destruct (cdfLoop _ _ _ _) as [k|] eqn:E.
  - apply cdfLoop_In in E. unfold highEntries in E. rewrite map_map in E. simpl in E.
    apply table_keys in E as [Hk Hc]. apply in_seq in Hk. exists k. split; [lia|done].
  - destruct (table cnt wheel) as [|[k c] t] eqn:Et.
    + exfalso. destruct Hsome as (n & Hn & Hc).
      assert (iget (table cnt wheel) n = Some (cnt n)) as Hi.
      { rewrite iget_table, inb_wheel.
        destruct (Nat.ltb_spec n 37); [|lia]. destruct (Nat.ltb_spec 0 (cnt n)); [done|lia]. }
      by rewrite Et in Hi.
    + assert (In k (map fst (table cnt wheel))) as Hin by (rewrite Et; by left).
      apply table_keys in Hin as [Hk Hc]. apply in_seq in Hk. exists k. split; [lia|done].
Qed.


End HighDraw.

(* ===================================================================== *)
(** ** The high-weight rule, the normal rule and the range of the winner *)
(* ===================================================================== *)





(** *** C1 *)



(** The example of the specification: A bets on 5 with weight 3, B on red
    with weight 1.  Only A is a high-weight bettor, so 5 wins whatever the
    random values are. *)
Example high_weight_example (cr : list Q) (r : Q) (res : spinResult) :
  computeSpin (selections (run demoRegistry (tableTrace 3 1)))
    (weightBySocket (run demoRegistry (tableTrace 3 1))) cr r = Some res ->
  winningNumber res = Js.ofZ 5
  /\ results res = [("a"%string, WIN); ("b"%string, COLOR_ONLY)].
Proof.
  intros H. apply computeSpin_Some in H as (b & Hb & Hw & Hres).
  vm_compute in Hb. injection Hb as <-.
  assert (winningNumber res = Js.ofZ 5) as E.
  { rewrite Hw. unfold selectWinner. cbn [anyNumeric anyColor orb].
    set (hw := highWeightNumbers _ _). vm_compute in hw. subst hw.
    cbn [length Nat.ltb Nat.leb]. unfold drawHigh. cbn [highEntries map fst snd cdfLoop].
    by destruct (Qle_bool r _). }
  split; [exact E|]. rewrite Hres, E. vm_compute. reflexivity.
Qed.

(** With no bet at all, [spin([0.5])] yields [floor(0.5 * 37) = 18]. *)
Example no_bets_example (r : Q) :
  computeSpin [] ∅ [(1 # 2)%Q] r = Some (SpinResult (Js.ofZ 18) []).
Proof. reflexivity. Qed.

(** *** C2 *)

Lemma combine_entries g l :
  combine l (map g l) = entriesOf g (fun _ => true) l.
Proof.
  unfold entriesOf. induction l as [|x l IH]; [done|].
  rewrite filter_cons. destruct (decide (true = true)); [|done].
  simpl. by rewrite IH.
Qed.

Lemma entriesOf_keys g keep l :
  map fst (entriesOf g keep l) = filter (fun n => keep n = true) l.
Proof.
  unfold entriesOf. rewrite map_map. simpl. apply map_id.
Qed.

Lemma filter_true_id (l : list nat) : filter (fun _ : nat => true = true) l = l.
Proof.
  induction l as [|x l IH]; [done|]. rewrite filter_cons.
  destruct (decide (true = true)); [by rewrite IH|done].
Qed.



Lemma sumBelow_ext f f' k :
  (forall m, (m < k)%nat -> (f m == f' m)%Q) -> (sumBelow f k == sumBelow f' k)%Q.
Proof.
  intros H. apply qsum_ext. intros n Hn. apply in_seq in Hn. apply H. lia.
Qed.


Lemma floor37_onWheel a : (0 <= a)%Q -> (a < 1)%Q -> onWheel (floor37 (Js.Fin a)).
Proof.
  intros H0 H1. unfold floor37, Js.floor, Js.scale.
  assert (0 <= Qfloor (a * 37) <= 36)%Z as Hz.
  { split.
    - change 0%Z with (Qfloor 0). apply Qfloor_resp_le. lra.
    - assert (Qfloor (a * 37) < 37)%Z; [|lia].
      rewrite Zlt_Qlt. pose proof (Qfloor_le (a * 37)). change (inject_Z 37) with 37%Q. lra. }
  exists (Z.to_nat (Qfloor (a * 37))). split; [lia|].
  unfold Js.ofNat. f_equal. lia.
Qed.

Section NormalDraw.
Variables (sel : odict selection) (w : gmap sid Q) (b : buckets) (avg : Js.num) (r : Q).
Hypothesis Hb : classifyBets emptyBuckets sel = Some b.

Lemma normal_weights n : (n <= 36)%nat -> (numberWeight b w n == (specWeight sel w) n)%Q.
Proof. intros Hn. by apply (classifyBets_spec sel w b Hb). Qed.

Lemma normal_sums k :
  (k <= 37)%nat -> (sumBelow (numberWeight b w) k == sumBelow (specWeight sel w) k)%Q.
Proof. intros Hk. apply sumBelow_ext. intros m Hm. apply normal_weights. lia. Qed.

Lemma normal_total : (sumQ (weights b w) == (totalWeight sel w))%Q.
Proof.
  unfold weights. rewrite sumQ_map. apply (normal_sums 37). lia.
Qed.


Lemma drawNormal_loop :
  (0 < (totalWeight sel w))%Q ->
  drawNormal r avg b w =
  match cdfLoop r 0 (sumQ (weights b w))
          (entriesOf (numberWeight b w) (fun _ => true) wheel) with
  | Some i => Js.ofNat i
  | None => floor37 (Js.Fin r)
  end.
Proof.
  intros H. unfold drawNormal.
  assert (Qle_bool (sumQ (weights b w)) 0 = false) as ->.
  { apply Qle_bool_false. rewrite normal_total. exact H. }
  unfold weights at 2. by rewrite combine_entries.
Qed.



Lemma drawNormal_onWheel :
  (0 < (totalWeight sel w))%Q -> (0 <= r)%Q -> (r < 1)%Q -> onWheel (drawNormal r avg b w).
Proof.
  intros HT H0 H1. rewrite drawNormal_loop by done.
  destruct (cdfLoop _ _ _ _) as [k|] eqn:E; [|by apply floor37_onWheel].
  apply cdfLoop_In in E. rewrite entriesOf_keys, filter_true_id in E.
  apply in_seq in E. exists k. split; [lia|done].
Qed.
End NormalDraw.





(** *** C8 *)

(** The claim C8 fails: with no bet in the ledger and an empty sequence of
    client randoms the spin stores NaN, and with the sequence [2] it
    stores 74. *)
Lemma C8_counterexample :
  Reachable demoRegistry (run demoRegistry emptySpinTrace)
  /\ lastSpinResult (run demoRegistry emptySpinTrace) = Some (SpinResult Js.NaN [])
  /\ ~ onWheel Js.NaN
  /\ winningNumber <$> computeSpin [] ∅ [2%Q] (1 # 2) = Some (Js.ofZ 74).
Proof.
  split; [apply run_reachable; vm_compute; reflexivity|].
  split; [vm_compute; reflexivity|]. split; [|vm_compute; reflexivity].
  intros (n & _ & H). discriminate.
Qed.

(** C8, amended.  A spin that commits stores an integer of 0..36 whenever
    the number is drawn by the high-weight rule or by the normal weighted
    rule ([Math.random()] lies in [0, 1)), and also whenever the average of
    the client randoms is a number of [0, 1); when the spin falls back on
    the average, the stored number is [floor(avg * 37)] whatever it is. *)
Theorem C8_winning_number_on_wheel st s cr r res :
  isDealer st s = true -> spinning st = false -> (0 <= r)%Q -> (r < 1)%Q ->
  computeSpin (selections st) (weightBySocket st) cr r = Some res ->
  lastSpinResult (spin st s cr r) = Some res
  /\ exists b, classifyBets emptyBuckets (selections st) = Some b
       /\ (usesAverage b (weightBySocket st) = false -> onWheel (winningNumber res))
       /\ (usesAverage b (weightBySocket st) = true ->
           winningNumber res = floor37 (average cr))
       /\ (forall a, average cr = Js.Fin a -> (0 <= a)%Q -> (a < 1)%Q ->
             onWheel (winningNumber res)).
Proof.
  intros Hd Hs H0 H1 Hres.
  set (sel := selections st) in *. set (w := weightBySocket st) in *.
  split; [by apply spin_commits|].
  destruct (computeSpin_Some _ _ _ _ _ Hres) as (b & Hb & Hwin & _).
  exists b. split; [done|]. rewrite Hwin. unfold selectWinner, usesAverage.
  destruct (anyNumeric b || anyColor b); cbn [negb orb];
    [|split; [done|]; split; [done|]; intros a -> Ha0 Ha1; by apply floor37_onWheel].
  destruct (0 <? length (highWeightNumbers b w))%nat eqn:Ehw; cbn [negb andb].
  - assert (onWheel (drawHigh r (highWeightNumbers b w))) as Hon.
    { rewrite highWeightNumbers_table in *.
      assert (exists n, (n <= 36)%nat /\ (0 < highCount b w n)%nat) as Hsome.
      { destruct (table (highCount b w) wheel) as [|[k c] t] eqn:Et; [done|].
        assert (In k (map fst (table (highCount b w) wheel))) as Hin by (rewrite Et; by left).
        apply table_keys in Hin as [Hk Hc]. apply in_seq in Hk. exists k. split; [lia|done]. }
      destruct (drawHigh_covered (highCount b w) r Hsome) as (n & Hn & -> & _).
      by exists n. }
    split; [done|]. split; [done|]. by intros.
  - pose proof (normal_total sel w b Hb) as Htot.
    destruct (Qle_bool (sumQ (weights b w)) 0) eqn:Et.
    + assert (drawNormal r (average cr) b w = floor37 (average cr)) as ->.
      { unfold drawNormal. by rewrite Et. }
      split; [done|]. split; [done|]. intros a -> Ha0 Ha1. by apply floor37_onWheel.
    + apply Qle_bool_false in Et. rewrite Htot in Et.
      pose proof (drawNormal_onWheel sel w b (average cr) r Hb Et H0 H1) as Hon.
      split; [done|]. split; [done|]. by intros.
Qed.

Lemma C8_witness :
  onWheel (Js.ofZ 5).
Proof.
  destruct (C8_winning_number_on_wheel (run demoRegistry (tableTrace 3 1)) "d"
              [(1 # 2)%Q] (1 # 2)
              (SpinResult (Js.ofZ 5) [("a"%string, WIN); ("b"%string, COLOR_ONLY)]))
    as (_ & b & Hb & Hon & _).
  - vm_compute. reflexivity.
  - vm_compute. reflexivity.
  - vm_compute. discriminate.
  - vm_compute. reflexivity.
  - vm_compute. reflexivity.
  - apply Hon. vm_compute in Hb. injection Hb as <-. vm_compute. reflexivity.
Defined.

(* ===================================================================== *)
(** ** The classification of the bets *)
(* ===================================================================== *)

(** *** C3 *)

Lemma oget_notin {V} (o : odict V) k : k ∉ okeys o -> oget o k = None.
Proof.
  unfold okeys. induction o as [|[k' v] o IH]; simpl; [done|]. intros H.
  apply not_elem_of_cons in H as [Hne H]. destruct (String.eqb k' k) eqn:E.
  - apply String.eqb_eq in E. congruence.
  - by apply IH.
Qed.

Lemma oget_app_notin {V} (o o' : odict V) k :
  k ∉ okeys o -> oget (o ++ o') k = oget o' k.
Proof.
  unfold okeys. induction o as [|[k' v] o IH]; simpl; [done|]. intros H.
  apply not_elem_of_cons in H as [Hne H]. destruct (String.eqb k' k) eqn:E.
  - apply String.eqb_eq in E. congruence.
  - by apply IH.
Qed.

(** Adding entries under keys that are new and distinct appends them. *)
Lemma fold_oset_fresh {A V} (key : A -> string) (val : A -> V) (l : list A) :
  forall o : odict V,
  NoDup (okeys o ++ map key l) ->
  fold_left (fun o a => oset o (key a) (val a)) l o
  = o ++ map (fun a => (key a, val a)) l.
Proof.
  assert (forall (o : odict V) k v, k ∉ okeys o -> oset o k v = o ++ [(k, v)]) as Hfresh.
  { unfold okeys. induction o as [|[k' v'] o IHo]; intros k v Hk; simpl; [done|].
    simpl in Hk. apply not_elem_of_cons in Hk as [Hne Hk].
    destruct (String.eqb k' k) eqn:E; [apply String.eqb_eq in E; congruence|].
    by rewrite IHo. }
  induction l as [|a l IH]; intros o Hnd; simpl.
  - by rewrite app_nil_r.
  - simpl in Hnd. rewrite Hfresh.
    + rewrite IH.
      * by rewrite <- app_assoc.
      * unfold okeys in *. rewrite map_app. simpl. by rewrite <- app_assoc.
    + apply NoDup_app in Hnd as (_ & Hd & _). intros Hin.
      apply (Hd _ Hin). by left.
Qed.





(* ===================================================================== *)
(** ** The leaderboard *)
(* ===================================================================== *)

(** *** The leaderboard *)

Lemma connectedSockets_join reg st s ident :
  exists info, connectedSockets (join reg st s ident) = oset (connectedSockets st) s info.
Proof. destruct st. crush_handler; by eexists. Qed.

Lemma connectedSockets_handle reg st s e :
  connectedSockets (handle reg st s e) = connectedSockets st
  \/ (exists info, connectedSockets (handle reg st s e) = oset (connectedSockets st) s info)
  \/ connectedSockets (handle reg st s e) = odel (connectedSockets st) s.
Proof.
  destruct e; unfold handle.
  - right. left. apply connectedSockets_join.
  - left. destruct st; crush_handler.
  - left. unfold dealerLogin. by case_match.
  - right. right. destruct st; crush_handler.
  - left. destruct st; crush_handler.
  - left. destruct st; crush_handler.
  - left. destruct st; crush_handler.
  - left. destruct st; crush_handler.
Qed.

Lemma connectedSockets_NoDup reg st :
  Reachable reg st -> NoDup (okeys (connectedSockets st)).
Proof.
  intros [U Hr].
  induction Hr as [|used st s Hr IH Hfresh Hne|used st s e Hr IH Hlive Hrand|used st Hr IH Ht];
    try done.
  - apply NoDup_nil_2.
  - destruct (connectedSockets_handle reg st s e) as [->|[[info ->]| ->]]; [done| |].
    + by apply NoDup_oset.
    + by apply NoDup_odel.
Qed.

Lemma registeredRow_entry reg st ordered code :
  registeredRow reg st ordered code
  = oset ordered (fst (registeredEntry reg st code)) (snd (registeredEntry reg st code)).
Proof.
  unfold registeredRow, registeredEntry, activeSocket.
  destruct (usersStatus st !! code) as [[c [s|]]|]; simpl; try done.
  - destruct c; simpl; [|done].
    by destruct (truthyS s && bool_decide (is_Some (oget (connectedSockets st) s))).
  - by destruct c.
Qed.

Lemma emitLeaderboard_folds reg st :
  emitLeaderboard reg st
  = fold_left (fun o e => oset o (fst (guestEntry st e)) (snd (guestEntry st e)))
      (remaining st)
      (fold_left (fun o c => oset o (fst (registeredEntry reg st c))
                               (snd (registeredEntry reg st c)))
         (usersOrder reg) []).
Proof.
  unfold emitLeaderboard. f_equal.
  generalize (@nil (string * row)). induction (usersOrder reg) as [|c l IH]; intros o; [done|].
  simpl. rewrite registeredRow_entry. apply IH.
Qed.

(** The sort of the guest rows. *)
Lemma insertSorted_perm x l : insertSorted x l ≡ₚ x :: l.
Proof.
  induction l as [|y l IH]; simpl; [done|].
  destruct (String.ltb (sortKey y) (sortKey x)); [|done].
  rewrite IH. apply Permutation_swap.
Qed.

Lemma sortRemaining_perm l : sortRemaining l ≡ₚ l.
Proof.
  induction l as [|x l IH]; simpl; [done|].
  rewrite insertSorted_perm. by rewrite IH.
Qed.

Lemma ltb_asym a b : String.ltb a b = true -> String.ltb b a = false.
Proof.
  unfold String.ltb. rewrite (String.compare_antisym a b).
  destruct (String.compare b a); simpl; done.
Qed.

Lemma insertSorted_sorted x l : Sorted nameLe l -> Sorted nameLe (insertSorted x l).
Proof.
  induction 1 as [|y l Hs IH Hhd]; simpl.
  - repeat constructor.
  - destruct (String.ltb (sortKey y) (sortKey x)) eqn:E.
    + constructor; [done|].
      destruct l as [|z l]; simpl.
      * constructor. unfold nameLe. by apply ltb_asym.
      * destruct (String.ltb (sortKey z) (sortKey x)) eqn:E'.
        -- constructor. by inversion Hhd.
        -- constructor. unfold nameLe. by apply ltb_asym.
    + constructor; [by constructor|]. constructor. exact E.
Qed.

Lemma sortRemaining_sorted l : Sorted nameLe (sortRemaining l).
Proof.
  induction l as [|x l IH]; simpl; [constructor|]. by apply insertSorted_sorted.
Qed.

Lemma activeSocket_connected st code s :
  activeSocket st code = Some s ->
  s <> EmptyString /\ is_Some (usersStatus st !! code)
  /\ exists info, oget (connectedSockets st) s = Some info.
Proof.
  unfold activeSocket. destruct (usersStatus st !! code) as [[[] [s'|]]|]; try done.
  destruct (truthyS s' && bool_decide _) eqn:E; [|done]. intros [= ->].
  apply andb_true_iff in E as [E1 E2]. apply truthyS_true in E1.
  apply bool_decide_eq_true in E2 as [info Hi]. split; [done|]. split; [by eexists|by eexists].
Qed.

Lemma oget_Some_keys {V} (o : odict V) k v : oget o k = Some v -> k ∈ okeys o.
Proof.
  unfold okeys. induction o as [|[k' v'] o IH]; simpl; [done|].
  destruct (String.eqb k' k) eqn:E.
  - apply String.eqb_eq in E. subst. intros _. by left.
  - intros H. right. by apply IH.
Qed.

Lemma oget_NoDup_In {V} (o : odict V) k v :
  NoDup (okeys o) -> (k, v) ∈ o -> oget o k = Some v.
Proof.
  unfold okeys. induction o as [|[k' v'] o IH]; simpl; intros Hnd Hin.
  - by apply not_elem_of_nil in Hin.
  - apply NoDup_cons in Hnd as [Hk Hnd].
    apply elem_of_cons in Hin as [[= -> ->]|Hin].
    + by rewrite String.eqb_refl.
    + destruct (String.eqb k' k) eqn:E; [|by apply IH].
      apply String.eqb_eq in E. subst k'. exfalso. apply Hk.
      apply list_elem_of_fmap. by exists (k, v).
Qed.

Lemma map_pair_eta {A B C} (f : A -> B * C) (l : list A) :
  map (fun a => (fst (f a), snd (f a))) l = map f l.
Proof. apply map_ext. intros a. by destruct (f a). Qed.

Lemma pseudoKey_prefix code : String.prefix "u:" (pseudoKey code) = true.
Proof. unfold pseudoKey. simpl. by destruct code. Qed.

Lemma pseudoKey_inj c c' : pseudoKey c = pseudoKey c' -> c = c'.
Proof. unfold pseudoKey. simpl. intros H. by injection H. Qed.

Section Board.
Variables (reg : registry) (st : state).
Hypothesis Hreach : Reachable reg st.
Hypothesis Hcodes : NoDup (usersOrder reg).
Hypothesis Hnonempty : forall code, In code (usersOrder reg) -> code <> EmptyString.
Hypothesis Hconsistent : statusConsistent reg st.
Hypothesis Hplain : plainIds st.

Lemma remaining_perm :
  remaining st ≡ₚ filter (fun e => isRemaining st e = true) (connectedSockets st).
Proof. apply sortRemaining_perm. Qed.

Lemma remaining_In e :
  e ∈ remaining st -> e ∈ connectedSockets st /\ isRemaining st e = true.
Proof.
  rewrite remaining_perm. intros H. apply list_elem_of_filter in H. tauto.
Qed.

Lemma registered_keys_inj c c' :
  In c (usersOrder reg) -> In c' (usersOrder reg) ->
  fst (registeredEntry reg st c) = fst (registeredEntry reg st c') -> c = c'.
Proof.
  intros Hc Hc'. unfold registeredEntry.
  destruct (activeSocket st c) as [s|] eqn:E; destruct (activeSocket st c') as [s'|] eqn:E';
    simpl; intros Hk.
  - subst s'. destruct (Hconsistent c s Hc E) as (i & Hi & Hic).
    destruct (Hconsistent c' s Hc' E') as (i' & Hi' & Hic'). congruence.
  - apply activeSocket_connected in E as (_ & _ & info & Hi).
    apply oget_Some_keys, Hplain in Hi. rewrite Hk, pseudoKey_prefix in Hi. done.
  - apply activeSocket_connected in E' as (_ & _ & info & Hi).
    apply oget_Some_keys, Hplain in Hi. rewrite <- Hk, pseudoKey_prefix in Hi. done.
  - by apply pseudoKey_inj.
Qed.

Lemma board_keys_NoDup :
  NoDup (map (fun c => fst (registeredEntry reg st c)) (usersOrder reg)
         ++ map (fun e => fst (guestEntry st e)) (remaining st)).
Proof.
  pose proof (connectedSockets_NoDup reg st Hreach) as Hnd.
  apply NoDup_app. split; [|split].
  - apply (NoDup_fmap_2_strong (fun c => fst (registeredEntry reg st c))); [|done].
    intros c c' Hc Hc'. apply registered_keys_inj; by apply list_elem_of_In.
  - intros k Hk Hk'.
    apply list_elem_of_fmap in Hk as (c & -> & Hc).
    apply list_elem_of_fmap in Hk' as ([s info] & Hs & He). simpl in Hs.
    apply remaining_In in He as [He Hrem]. apply list_elem_of_In in Hc.
    unfold registeredEntry in Hs. destruct (activeSocket st c) as [s'|] eqn:E; simpl in Hs.
    + subst s'. destruct (Hconsistent c s Hc E) as (i & Hi & Hic).
      rewrite (oget_NoDup_In _ _ _ Hnd He) in Hi. injection Hi as <-.
      apply activeSocket_connected in E as (_ & Hst & _).
      unfold isRemaining in Hrem. simpl in Hrem. rewrite Hic in Hrem.
      assert (truthyS c = true) as Ht by (apply truthyS_true; by apply Hnonempty).
      rewrite Ht, bool_decide_eq_true_2 in Hrem by done. done.
    + assert (s ∈ okeys (connectedSockets st)) as Hin.
      { apply list_elem_of_fmap. by exists (s, info). }
      apply Hplain in Hin. rewrite <- Hs, pseudoKey_prefix in Hin. done.
  - change (map (fun e => fst (guestEntry st e)) (remaining st))
      with (map fst (remaining st)).
    rewrite remaining_perm.
    assert (forall l : list (sid * conninfo), NoDup (map fst l) ->
              NoDup (map fst (filter (fun e => isRemaining st e = true) l))) as Hf; [|by apply Hf].
    induction l as [|x l IH]; simpl; intros Hl; [done|].
    apply NoDup_cons in Hl as [Hx Hl]. rewrite filter_cons.
    destruct (decide (isRemaining st x = true)); [|by apply IH].
    simpl. apply NoDup_cons. split; [|by apply IH].
    intros Hin. apply Hx. apply list_elem_of_fmap in Hin as (y & -> & Hy).
    apply list_elem_of_filter in Hy as [_ Hy]. apply list_elem_of_fmap. by exists y.
Qed.

(** With distinct registered codes and every shown connection carrying
    its code, the leaderboard is the rows of the registered users in the
    order of the registry, followed by the rows of the guests in the
    order of their lower-cased names; no key occurs twice. *)
Lemma leaderboard_rows :
  emitLeaderboard reg st
  = map (registeredEntry reg st) (usersOrder reg) ++ map (guestEntry st) (remaining st)
  /\ NoDup (okeys (emitLeaderboard reg st))
  /\ remaining st ≡ₚ filter (fun e => isRemaining st e = true) (connectedSockets st)
  /\ Sorted nameLe (remaining st)
  /\ registeredFirst reg (emitLeaderboard reg st).
Proof.
  pose proof board_keys_NoDup as Hnd.
  assert (emitLeaderboard reg st
          = map (registeredEntry reg st) (usersOrder reg)
            ++ map (guestEntry st) (remaining st)) as Heq.
  { rewrite emitLeaderboard_folds.
    rewrite (fold_oset_fresh (fun c => fst (registeredEntry reg st c))
               (fun c => snd (registeredEntry reg st c)) (usersOrder reg) []).
    - rewrite fold_oset_fresh.
      + simpl. by rewrite !map_pair_eta.
      + unfold okeys. simpl. rewrite map_map. simpl. exact Hnd.
    - simpl. by apply NoDup_app in Hnd as (Hn & _). }
  split; [exact Heq|]. split; [|split; [apply remaining_perm|split; [apply sortRemaining_sorted|]]].
  - rewrite Heq. unfold okeys. rewrite map_app, !map_map. exact Hnd.
  - exists (map (registeredEntry reg st) (usersOrder reg)), (map (guestEntry st) (remaining st)).
    split; [exact Heq|]. rewrite map_map. apply map_ext. intros c.
    unfold registeredEntry. by destruct (activeSocket st c).
Qed.
End Board.

(** *** C7 *)

(** C7, the failing input.  A socket that joins under the registered code
    of Alice and then under the code of Bob leaves the status of Alice
    pointing at itself: both users are put under the key of that socket,
    the second row overwrites the first, and the leaderboard has no row for
    Alice. *)
Theorem C7_rejoin_drops_registered_row :
  Reachable demoRegistry (run demoRegistry rejoinTrace)
  /\ emitLeaderboard demoRegistry (run demoRegistry rejoinTrace)
     = [("u:100001"%string, Row (Some "Dealer"%string) Js.VNull false None);
        ("s"%string, Row (Some "Bob"%string) Js.VNull true (Some 1%Q))]
  /\ usersOrder demoRegistry = ["100001"; "100002"; "100003"]%string
  /\ ~ registeredFirst demoRegistry
         (emitLeaderboard demoRegistry (run demoRegistry rejoinTrace))
  /\ ~ statusConsistent demoRegistry (run demoRegistry rejoinTrace).
Proof.
  split; [apply run_reachable; vm_compute; reflexivity|].
  assert (emitLeaderboard demoRegistry (run demoRegistry rejoinTrace)
     = [("u:100001"%string, Row (Some "Dealer"%string) Js.VNull false None);
        ("s"%string, Row (Some "Bob"%string) Js.VNull true (Some 1%Q))]) as E
    by (vm_compute; reflexivity).
  split; [exact E|]. split; [reflexivity|]. split.
  - rewrite E. intros (regs & guests & Hrows & Hnames).
    apply (f_equal (@length _)) in Hrows, Hnames.
    rewrite length_app in Hrows. rewrite !length_map in Hnames. simpl in *. lia.
  - intros H. destruct (H "100002"%string "s"%string) as (info & Hi & Hc).
    + right. by left.
    + vm_compute. reflexivity.
    + vm_compute in Hi. injection Hi as <-. discriminate.
Qed.

(** The leaderboard of a run with two guests, a connected and two
    disconnected registered users. *)
Example leaderboard_rows_board :
  okeys (emitLeaderboard demoRegistry (run demoRegistry boardTrace))
  = ["u:100001"; "u:100002"; "y"; "w"; "z"]%string
  /\ registeredFirst demoRegistry (emitLeaderboard demoRegistry (run demoRegistry boardTrace)).
Proof.
  split; [vm_compute; reflexivity|].
  apply (leaderboard_rows demoRegistry (run demoRegistry boardTrace)).
  - apply run_reachable. vm_compute. reflexivity.
  - apply (bool_decide_unpack _). vm_compute. reflexivity.
  - intros code [<-|[<-|[<-|[]]]]; discriminate.
  - intros code s [<-|[<-|[<-|[]]]]; vm_compute; try discriminate.
    intros [= <-]. eexists. split; reflexivity.
  - intros s Hs. vm_compute in Hs.
    repeat (apply elem_of_cons in Hs as [->|Hs]; [reflexivity|]).
    by apply not_elem_of_nil in Hs.
Qed.

(* ===================================================================== *)
(** ** Further invariants of the engine *)
(* ===================================================================== *)

(** *** The fields a handler leaves alone *)

Lemma weightBySocket_handle reg st s e :
  weightBySocket (handle reg st s e) =
  match e with
  | SetWeight target weight =>
      if isDealer st s && negb (Js.isNaN weight)
         && bool_decide (is_Some (oget (connectedSockets st) target))
      then <[target := clampWeight weight]> (weightBySocket st)
      else weightBySocket st
  | _ => weightBySocket st
  end.
Proof.
  destruct e; unfold handle; try (by destruct st; crush_handler).
  unfold setWeight. destruct (isDealer st s); [|done]. simpl.
  destruct (Js.isNaN weight); [done|]. simpl.
  destruct (oget (connectedSockets st) target) as [i|] eqn:E.
  - rewrite bool_decide_eq_true_2; [done|by eexists].
  - rewrite bool_decide_eq_false_2; [done|]. by intros [? ?].
Qed.


Lemma sockets_handle_iff reg st s e t :
  is_Some (sockets st !! s) ->
  is_Some (sockets (handle reg st s e) !! t)
  <-> is_Some (sockets st !! t) /\ (e = Disconnect -> t <> s).
Proof.
  intros Hs. destruct e; unfold handle.
  - rewrite sockets_join. split.
    + intros [->|H]; by split.
    + intros [H _]. by right.
  - assert (sockets (setWeight st s target weight) = sockets st) as ->
      by (destruct st; crush_handler).
    split; [by split|by intros [? _]].
  - assert (sockets (dealerLogin reg st s code) = sockets st) as ->
      by (unfold dealerLogin; by case_match).
    split; [by split|by intros [? _]].
  - rewrite sockets_disconnect, lookup_delete_is_Some. split.
    + intros [Hne H]. split; [done|]. intros _ ->. done.
    + intros [H Hne]. split; [|done]. intros ->. by apply Hne.
  - assert (sockets (select st s bet) = sockets st) as ->
      by (destruct st; crush_handler).
    split; [by split|by intros [? _]].
  - assert (sockets (openBets st s) = sockets st) as ->
      by (destruct st; crush_handler).
    split; [by split|by intros [? _]].
  - assert (sockets (closeBets st s) = sockets st) as ->
      by (destruct st; crush_handler).
    split; [by split|by intros [? _]].
  - assert (sockets (spin st s clientRandoms r) = sockets st) as ->
      by (destruct st; crush_handler).
    split; [by split|by intros [? _]].
Qed.

Lemma connectedSockets_other reg st s e t :
  t <> s -> oget (connectedSockets (handle reg st s e)) t = oget (connectedSockets st) t.
Proof.
  intros Hne. destruct (connectedSockets_handle reg st s e) as [->|[[info ->]| ->]]; [done| |].
  - by apply oget_oset_ne.
  - by apply oget_odel_ne.
Qed.

Lemma connectedSockets_self reg st s e :
  is_Some (oget (connectedSockets (handle reg st s e)) s) -> e <> Disconnect.
Proof.
  intros H ->. unfold handle in H.
  assert (connectedSockets (disconnect st s) = odel (connectedSockets st) s) as E
    by (destruct st; crush_handler).
  rewrite E, oget_odel_eq in H. by destruct H.
Qed.

(** *** Weights *)



(** *** The ledger and the open sockets *)

Lemma joined_socket_open reg U st :
  reachable reg U st -> forall t, joined st t -> is_Some (sockets st !! t).
Proof.
  induction 1 as [|used st s Hr IH Hfresh Hne|used st s e Hr IH Hlive Hrand|used st Hr IH Ht];
    intros t Hx.
  - by destruct Hx.
  - simpl. apply lookup_insert_is_Some'. right. by apply IH.
  - apply sockets_handle_iff; [done|].
    destruct (decide (t = s)) as [->|Hts].
    + split; [done|]. intros He. by apply connectedSockets_self in Hx.
    + split; [|done]. unfold joined in Hx. rewrite connectedSockets_other in Hx by done.
      by apply IH.
  - by apply IH.
Qed.

(** X2.  A bet in the ledger, and an entry of [connectedSockets], belongs
    to a socket that is connected: the steps of a socket write entries
    under its own id only, and its disconnection removes them.  So no bet
    of a player who has left takes part in a spin. *)
Theorem ledger_of_open_sockets reg st :
  Reachable reg st ->
  (forall t x, oget (selections st) t = Some x -> is_Some (sockets st !! t))
  /\ (forall t, joined st t -> is_Some (sockets st !! t)).
Proof.
  intros [U Hr]. split; [|by apply (joined_socket_open reg U)].
  induction Hr as [|used st s Hr IH Hfresh Hne|used st s e Hr IH Hlive Hrand|used st Hr IH Ht];
    intros t x; try done.
  - intros Hx. simpl. apply lookup_insert_is_Some'. right. by apply (IH t x).
  - rewrite selections_handle. intros Hx.
    apply sockets_handle_iff; [done|].
    destruct (decide (t = s)) as [->|Hts].
    + split; [done|]. intros ->. by rewrite oget_odel_eq in Hx.
    + split; [|done]. destruct e; try (by apply (IH t x)).
      * rewrite oget_odel_ne in Hx by done. by apply (IH t x).
      * destruct (betsOpen st && negb (isDealer st s)); [|by apply (IH t x)].
        rewrite oget_oset_ne in Hx by done. by apply (IH t x).
  - apply (IH t x).
Qed.

Lemma ledger_of_open_sockets_witness :
  is_Some (sockets (run demoRegistry openTrace) !! "p"%string).
Proof.
  refine (proj1 (ledger_of_open_sockets demoRegistry (run demoRegistry openTrace) _)
            "p"%string (Selection None (Js.VNum (Js.ofZ 5))) _).
  - apply run_reachable. vm_compute. reflexivity.
  - vm_compute. reflexivity.
Defined.

(** X3.  A bet stays in the ledger as it is until its socket sends
    another [select] or disconnects: no step of another socket, no spin
    and no timer changes or removes it.  In particular a spin does not
    clear the bets; they take part in the next spin as well. *)
Theorem bets_stay_until_replaced reg st tr t :
  forallb (fun a => negb (touches t a)) tr = true ->
  oget (selections (fold_left (perform reg) tr st)) t = oget (selections st) t.
Proof.
  revert st. induction tr as [|a tr IH]; intros st H; [done|].
  simpl in H. apply andb_true_iff in H as [Ha H]. apply negb_true_iff in Ha.
  simpl. rewrite (IH _ H). destruct a as [s|s e|]; try done.
  simpl. rewrite selections_handle. destruct e; try done; simpl in Ha.
  - apply String.eqb_neq in Ha. apply oget_odel_ne. congruence.
  - apply String.eqb_neq in Ha. case_match; [|done]. apply oget_oset_ne. congruence.
Qed.

Lemma bets_stay_until_replaced_witness :
  oget (selections (fold_left (perform demoRegistry) twoSpins (run demoRegistry openTrace))) "p"
  = oget (selections (run demoRegistry openTrace)) "p".
Proof.
  apply (bets_stay_until_replaced demoRegistry (run demoRegistry openTrace) twoSpins "p"%string).
  vm_compute. reflexivity.
Defined.

(** *** The guard against overlapping spins *)

(** X4.  At most one guard timer is pending, and while it is pending
    [spinning] is set: until the timer of a spin has run, no other spin
    changes anything. *)
Theorem one_spin_at_a_time reg st :
  Reachable reg st ->
  (timers st <= 1)%nat
  /\ (timers st = 1%nat -> spinning st = true)
  /\ (forall s cr r, timers st = 1%nat -> spin st s cr r = st).
Proof.
  intros [U Hr].
  assert ((timers st <= 1)%nat /\ (timers st = 1%nat -> spinning st = true)) as [H1 H2].
  { induction Hr as [|used st s Hr IH Hfresh Hne|used st s e Hr IH Hlive Hrand|used st Hr IH Ht].
    - split; [simpl; lia|done].
    - done.
    - destruct IH as [IH1 IH2]. destruct e; unfold handle;
        try (assert (timers (join reg st s identifier) = timers st
                     /\ spinning (join reg st s identifier) = spinning st) as [-> ->]
               by (destruct st; crush_handler); done);
        try (destruct st; crush_handler; fail).
      unfold spin. destruct (isDealer st s); simpl; [|done].
      destruct (spinning st) eqn:Hsp; simpl; [done|].
      assert (timers st = 0%nat) as E.
      { destruct (timers st) as [|[|n]] eqn:Et; [done| |lia].
        specialize (IH2 eq_refl). congruence. }
      destruct (computeSpin _ _ _ _); simpl; rewrite E; split; try lia; done.
    - destruct IH as [IH1 IH2]. simpl. split; [lia|]. intros E. lia. }
  split; [done|]. split; [done|].
  intros s cr r Ht. unfold spin. rewrite (H2 Ht). by destruct (isDealer st s).
Qed.

Lemma one_spin_at_a_time_witness :
  (timers (run demoRegistry spunTrace) <= 1)%nat
  /\ (timers (run demoRegistry spunTrace) = 1%nat -> spinning (run demoRegistry spunTrace) = true)
  /\ (forall s cr r, timers (run demoRegistry spunTrace) = 1%nat ->
        spin (run demoRegistry spunTrace) s cr r = run demoRegistry spunTrace).
Proof.
  apply (one_spin_at_a_time demoRegistry (run demoRegistry spunTrace)).
  apply run_reachable. vm_compute. reflexivity.
Defined.

(* ===================================================================== *)
(** ** What the clients are told *)
(* ===================================================================== *)

(** *** Worlds and runs *)

Lemma reachableV_server reg U w : reachableV reg U w -> reachable reg U (server w).
Proof.
  induction 1 as [|used w s Hr IH Hfresh Hne|used w s e Hr IH Hlive Hrand|used w Hr IH Ht];
    simpl; by constructor.
Qed.

Lemma runV_server reg tr : server (runV reg tr) = run reg tr.
Proof.
  unfold runV, run. change (initial reg) with (server (initialV reg)).
  generalize (initialV reg). induction tr as [|a tr IH]; intros w; [done|].
  simpl. rewrite IH. by destruct a.
Qed.

Lemma admissible_reachableV reg tr : forall (U : gset sid) used w,
  reachableV reg U w ->
  (forall x, In x used -> x ∈ U) -> (forall x, x ∈ U -> In x used) ->
  admissible reg used (server w) tr = true ->
  ReachableV reg (fold_left (performV reg) tr w).
Proof.
  induction tr as [|a tr IH]; intros U used w Hr Hin Hout Hadm.
  - by exists U.
  - simpl in Hadm. destruct a as [s|s e|].
    + apply andb_true_iff in Hadm as [Hc Hadm]. apply andb_true_iff in Hc as [Hfresh Hne].
      apply truthyS_true in Hne.
      assert (s ∉ U) as HsU.
      { intros HU. apply Hout in HU. apply negb_true_iff in Hfresh.
        assert (existsb (String.eqb s) used = true) as E; [|congruence].
        apply existsb_exists. exists s. split; [done|apply String.eqb_refl]. }
      simpl. apply (IH ({[ s ]} ∪ U) (s :: used)); [by constructor| | |done].
      * intros x [<-|Hx]; [apply elem_of_union; left; by apply elem_of_singleton|].
        apply elem_of_union. right. by apply Hin.
      * intros x Hx. apply elem_of_union in Hx as [Hx|Hx].
        -- left. apply elem_of_singleton in Hx. by subst.
        -- right. by apply Hout.
    + apply andb_true_iff in Hadm as [Hc Hadm]. apply andb_true_iff in Hc as [Hlive Hrand].
      apply bool_decide_eq_true in Hlive.
      simpl. apply (IH U used); try done. constructor; try done.
      intros cr r ->. simpl in Hrand. apply andb_true_iff in Hrand as [H0 H1].
      apply Qle_bool_iff in H0. apply negb_true_iff in H1. split; [done|].
      apply Qnot_le_lt. intros H. apply Qle_bool_iff in H. congruence.
    + apply andb_true_iff in Hadm as [Ht Hadm]. apply Nat.ltb_lt in Ht.
      simpl. apply (IH U used); try done. by constructor.
Qed.

Lemma runV_reachable reg tr :
  admissible reg [] (initial reg) tr = true -> ReachableV reg (runV reg tr).
Proof.
  intros H. apply (admissible_reachableV reg tr ∅ [] (initialV reg)); try done.
  constructor.
Qed.

(** *** Inboxes *)

Lemma latest_from {A} (pick : message -> option A) l : forall acc,
  fold_left (fun acc m => match pick m with Some a => Some a | None => acc end) l acc
  = match latest pick l with Some a => Some a | None => acc end.
Proof.
  unfold latest. induction l as [|m l IH]; intros acc; [done|].
  simpl. rewrite (IH (match pick m with Some a => Some a | None => acc end)).
  rewrite (IH (match pick m with Some a => Some a | None => None end)).
  destruct (fold_left _ l None); [done|]. by destruct (pick m).
Qed.

Lemma latest_app {A} (pick : message -> option A) l l' :
  latest pick (l ++ l')
  = match latest pick l' with Some a => Some a | None => latest pick l end.
Proof. unfold latest at 1. rewrite fold_left_app. apply latest_from. Qed.

Lemma latest_In {A} (pick : message -> option A) l a :
  latest pick l = Some a -> exists m, In m l /\ pick m = Some a.
Proof.
  induction l as [|m l IH] using rev_ind; [done|].
  rewrite latest_app. unfold latest at 1. simpl.
  destruct (pick m) as [a'|] eqn:E.
  - intros [= ->]. exists m. split; [apply in_or_app; right; by left|done].
  - intros H. destruct (IH H) as (m' & Hin & Hp). exists m'.
    split; [apply in_or_app; by left|done].
Qed.

Lemma latest_None {A} (pick : message -> option A) l :
  (forall m, In m l -> pick m = None) -> latest pick l = None.
Proof.
  intros H. destruct (latest pick l) as [a|] eqn:E; [|done].
  apply latest_In in E as (m & Hin & Hp). rewrite (H m Hin) in Hp. discriminate.
Qed.

Lemma latest_is_Some {A} (pick : message -> option A) l m a :
  In m l -> pick m = Some a -> is_Some (latest pick l).
Proof.
  intros Hin Hp. destruct (latest pick l) as [x|] eqn:E; [by eexists|].
  exfalso. revert Hin E. induction l as [|m' l IH] using rev_ind; [done|].
  rewrite latest_app. unfold latest at 1. simpl. intros Hin.
  apply in_app_or in Hin as [Hin|[->|[]]].
  - destruct (pick m'); [done|]. by apply IH.
  - by rewrite Hp.
Qed.

Lemma received_In t ems m :
  In m (received t ems) <-> In (Everyone, m) ems \/ In (Only t, m) ems.
Proof.
  unfold received. induction ems as [|[d m'] ems IH]; simpl.
  - split; [done|]. by intros [[]|[]].
  - destruct d as [|s]; simpl.
    + split.
      * intros [->|H]; [left; by left|]. apply IH in H as [H|H]; [left|right]; by right.
      * intros [[[= ->]|H]|[[=]|H]]; [by left| |]; right; apply IH; [by left|by right].
    + destruct (String.eqb s t) eqn:E.
      * apply String.eqb_eq in E as ->. split.
        -- intros [->|H]; [right; by left|]. apply IH in H as [H|H]; [left|right]; by right.
        -- intros [[[=]|H]|[[= ->]|H]]; [|by left|]; right; apply IH; [by left|by right].
      * split.
        -- intros H. apply IH in H as [H|H]; [left|right]; by right.
        -- intros [[[=]|H]|[[= -> ->]|H]].
           ++ apply IH. by left.
           ++ by rewrite String.eqb_refl in E.
           ++ apply IH. by right.
Qed.

Lemma inbox_fresh reg U w : reachableV reg U w -> forall t, t ∉ U -> inbox w t = [].
Proof.
  induction 1 as [|used w s Hr IH Hfresh Hne|used w s e Hr IH Hlive Hrand|used w Hr IH Ht];
    intros t Ht'; simpl; try done.
  - apply IH. intros H. apply Ht'. apply elem_of_union. by right.
  - unfold deliver. case_bool_decide as Ho; [|by apply IH].
    exfalso. apply Ht'.
    apply sockets_handle_sub in Ho.
    apply reachableV_server, slotInv_reachable in Hr as (I1 & _).
    destruct Ho as [->|Ho]; by apply I1.
  - by apply IH.
Qed.

(** *** Observables that every change is broadcast for *)

Section Tracking.
Context {A : Type} (reg : registry) (pick : message -> option A) (R : A -> state -> Prop).
Hypothesis R_connect : forall a st s, R a st -> R a (connect st s).
Hypothesis R_timer : forall a st, R a st -> R a (spinTimer st).
Hypothesis R_emitted : forall st s e d m a,
  In (d, m) (emits reg st s e) -> pick m = Some a -> R a (handle reg st s e).
Hypothesis R_frame : forall st s e,
  (forall a, R a st -> R a (handle reg st s e))
  \/ (exists m a, In (Everyone, m) (emits reg st s e) /\ pick m = Some a).

Lemma tracked U w :
  reachableV reg U w ->
  forall t a, is_Some (sockets (server w) !! t) ->
    latest pick (inbox w t) = Some a -> R a (server w).
Proof.
  induction 1 as [|used w s Hr IH Hfresh Hne|used w s e Hr IH Hlive Hrand|used w Hr IH Ht];
    intros t a Ho; simpl in *.
  - done.
  - destruct (decide (t = s)) as [->|Hts].
    + by rewrite (inbox_fresh _ _ _ Hr s Hfresh).
    + rewrite lookup_insert_ne in Ho by done. intros H. apply R_connect. by apply (IH t).
  - unfold deliver. rewrite bool_decide_eq_true_2 by done. rewrite latest_app.
    destruct (latest pick (received t (emits reg (server w) s e))) as [a'|] eqn:E.
    + intros [= ->]. apply latest_In in E as (m & Hin & Hp).
      apply received_In in Hin as [Hin|Hin]; by eapply R_emitted.
    + intros H. assert (is_Some (sockets (server w) !! t)) as Ho'.
      { apply sockets_handle_sub in Ho as [->|?]; done. }
      destruct (R_frame (server w) s e) as [Hf|(m & a' & Hin & Hp)].
      * apply Hf. by apply (IH t).
      * exfalso. assert (is_Some (latest pick (received t (emits reg (server w) s e)))) as [? ?].
        { apply (latest_is_Some pick _ m a'); [|done]. apply received_In. by left. }
        congruence.
  - intros H. apply R_timer. by apply (IH t).
Qed.
End Tracking.

(** *** What each handler announces *)

Lemma joinGrants_eq reg st ident :
  joinGrants reg st ident
  = isCode ident && match usersByCode reg !! ident with Some n => truthyS n | None => false end
    && mayGrant reg st (Js.VStr ident).
Proof.
  unfold joinGrants. destruct (isCode ident); [|done]. simpl.
  by destruct (usersByCode reg !! ident).
Qed.

Lemma dealerSocket_handle reg st s e :
  dealerSocket (handle reg st s e) =
  match e with
  | Join identifier => if joinGrants reg st identifier then Some s else dealerSocket st
  | DealerLogin code => if mayGrant reg st code then Some s else dealerSocket st
  | Disconnect => if isDealer st s then None else dealerSocket st
  | _ => dealerSocket st
  end.
Proof.
  destruct e; unfold handle; try (by destruct st; crush_handler).
  all: first [ by rewrite dealerSocket_join, joinGrants_eq
             | by (unfold dealerLogin; case_match)
             | apply dealerSocket_disconnect ].
Qed.

Lemma betsOpen_handle reg st s e :
  betsOpen (handle reg st s e) =
  match e with
  | Disconnect => if isDealer st s then false else betsOpen st
  | OpenBets => if isDealer st s then true else betsOpen st
  | CloseBets => if isDealer st s then false else betsOpen st
  | Spin cr r =>
      if isDealer st s && negb (spinning st) then
        match computeSpin (selections st) (weightBySocket st) cr r with
        | Some _ => false
        | None => betsOpen st
        end
      else betsOpen st
  | _ => betsOpen st
  end.
Proof.
  destruct e; unfold handle; try (by destruct st; crush_handler).
  unfold spin. destruct (isDealer st s), (spinning st); simpl; try done.
  by destruct (computeSpin _ _ _ _).
Qed.

Lemma lastSpinResult_handle reg st s e :
  lastSpinResult (handle reg st s e) =
  match e with
  | Spin cr r =>
      if isDealer st s && negb (spinning st) then
        match computeSpin (selections st) (weightBySocket st) cr r with
        | Some res => Some res
        | None => lastSpinResult st
        end
      else lastSpinResult st
  | _ => lastSpinResult st
  end.
Proof.
  destruct e; unfold handle; try (by destruct st; crush_handler).
  unfold spin. destruct (isDealer st s), (spinning st); simpl; try done.
  by destruct (computeSpin _ _ _ _).
Qed.

(** The leaderboard is a function of the ledger, the weights, the joined
    sockets and the statuses of the registered users. *)
Lemma emitLeaderboard_ext reg st st' :
  selections st' = selections st -> weightBySocket st' = weightBySocket st ->
  connectedSockets st' = connectedSockets st -> usersStatus st' = usersStatus st ->
  emitLeaderboard reg st' = emitLeaderboard reg st.
Proof.
  intros H1 H2 H3 H4. destruct st, st'. simpl in *. by subst.
Qed.

Lemma emitLeaderboard_frame reg st s e :
  match e with
  | Join _ | Disconnect => False
  | SetWeight target weight =>
      (isDealer st s && negb (Js.isNaN weight)
       && bool_decide (is_Some (oget (connectedSockets st) target))) = false
  | Select _ => (betsOpen st && negb (isDealer st s)) = false
  | _ => True
  end ->
  emitLeaderboard reg (handle reg st s e) = emitLeaderboard reg st.
Proof.
  intros H. apply emitLeaderboard_ext.
  - rewrite selections_handle. destruct e; try done. by rewrite H.
  - rewrite weightBySocket_handle. destruct e; try done. by rewrite H.
  - destruct e; try done; unfold handle; by destruct st; crush_handler.
  - destruct e; try done; unfold handle; by destruct st; crush_handler.
Qed.

Ltac in_cases H :=
  repeat match type of H with
         | In _ (_ ++ _) => apply in_app_or in H as [H|H]
         | In _ (if ?c then _ else _) => destruct c eqn:?
         | In _ (match ?c with _ => _ end) => destruct c eqn:?
         | In _ [] => destruct H
         | In _ (_ :: _) => destruct H as [H|H]
         end.

Ltac emitted H :=
  unfold emits, grantEmits, lastResultTo, boardEmit in H; cbv zeta in H;
  in_cases H; try discriminate H; try (injection H as <- <-).

Lemma emitted_DealerState reg st s e d b :
  In (d, DealerState b) (emits reg st s e) ->
  b = bool_decide (is_Some (dealerSocket (handle reg st s e))).
Proof.
  intros H. rewrite dealerSocket_handle. destruct e; emitted H; simplify_eq; try done.
  by rewrite <- (dealerSocket_handle reg st s (Join identifier)).
Qed.

Lemma emitted_BetsState reg st s e d b :
  In (d, BetsState b) (emits reg st s e) -> b = betsOpen (handle reg st s e).
Proof.
  intros H. rewrite betsOpen_handle. destruct e; emitted H; simplify_eq; try done.
  apply betsOpen_join.
Qed.

Lemma emitted_SpinResult reg st s e d res an :
  In (d, SpinResultMsg res an) (emits reg st s e) ->
  lastSpinResult (handle reg st s e) = Some res.
Proof.
  intros H. rewrite lastSpinResult_handle. destruct e; emitted H; simplify_eq; try done.
  by rewrite <- (lastSpinResult_handle reg st s (Join identifier)).
Qed.

Lemma emitted_Leaderboard reg st s e d o :
  In (d, Leaderboard o) (emits reg st s e) -> o = emitLeaderboard reg (handle reg st s e).
Proof. intros H. destruct e; emitted H; simplify_eq; done. Qed.

Lemma emitted_DealerGranted reg st s e d :
  In (d, DealerGranted) (emits reg st s e) ->
  d = Only s /\ truthyO (dealerSocket st) = false
  /\ dealerSocket (handle reg st s e) = Some s.
Proof.
  intros H. rewrite dealerSocket_handle. destruct e; emitted H; simplify_eq.
  - split; [done|]. split; [|done].
    match goal with H : joinGrants _ _ _ = true |- _ =>
      rewrite joinGrants_eq in H; apply andb_true_iff in H as [_ H];
      apply mayGrant_true in H as (c & _ & _ & _ & H) end. done.
  - split; [done|]. split; [|done].
    match goal with H : mayGrant _ _ _ = true |- _ =>
      apply mayGrant_true in H as (c & _ & _ & _ & H) end. done.
Qed.

(** A grant of the slot leaves the window and the last result alone. *)
Lemma granted_DealerGranted reg st s e :
  dealerSocket (handle reg st s e) = Some s -> dealerSocket st <> Some s ->
  In (Only s, DealerGranted) (emits reg st s e).
Proof.
  rewrite dealerSocket_handle. destruct e; try done.
  - unfold emits. cbv zeta. destruct (joinGrants reg st identifier); [|done].
    intros _ _. apply in_or_app. left. right. by left.
  - unfold emits. destruct (mayGrant reg st code); [|done].
    intros _ _. right. by left.
  - by destruct (isDealer st s).
Qed.

(** *** The four observables *)

Lemma told_dealerState reg U w :
  reachableV reg U w ->
  forall t b, is_Some (sockets (server w) !! t) ->
    latest asDealerState (inbox w t) = Some b ->
    b = bool_decide (is_Some (dealerSocket (server w))).
Proof.
  intros Hr. refine (tracked reg asDealerState
            (fun b st => b = bool_decide (is_Some (dealerSocket st))) _ _ _ _ U w Hr); try done.
  - intros st s e d m a Hin Hp. destruct m; try discriminate. injection Hp as ->.
    by apply emitted_DealerState in Hin.
  - intros st s e. rewrite dealerSocket_handle. destruct e; try (by left).
    + unfold emits. cbv zeta. destruct (joinGrants reg st identifier); [|by left].
      right. exists (DealerState true), true. split; [|done].
      apply in_or_app. left. by left.
    + unfold emits. destruct (mayGrant reg st code); [|by left].
      right. exists (DealerState true), true. split; [|done]. by left.
    + unfold emits. cbv zeta. destruct (isDealer st s); [|by left].
      right. exists (DealerState false), false. split; [|done].
      apply in_or_app. left. by left.
Qed.

Lemma told_betsState reg U w :
  reachableV reg U w ->
  forall t b, is_Some (sockets (server w) !! t) ->
    latest asBetsState (inbox w t) = Some b ->
    betsOpen (server w) = true -> b = true.
Proof.
  intros Hr. refine (tracked reg asBetsState
            (fun b st => betsOpen st = true -> b = true) _ _ _ _ U w Hr); try done.
  - intros st s e d m a Hin Hp. destruct m; try discriminate. injection Hp as ->.
    apply emitted_BetsState in Hin. congruence.
  - intros st s e. rewrite betsOpen_handle. destruct e; try (by left).
    + left. intros a Ha. destruct (isDealer st s); [done|apply Ha].
    + unfold emits. destruct (isDealer st s); [|by left].
      right. exists (BetsState true), true. split; [by left|done].
    + left. intros a Ha. destruct (isDealer st s); [done|apply Ha].
    + left. intros a Ha. destruct (isDealer st s && negb (spinning st)); [|apply Ha].
      destruct (computeSpin _ _ _ _); [done|apply Ha].
Qed.

Lemma told_spinResult reg U w :
  reachableV reg U w ->
  forall t res, is_Some (sockets (server w) !! t) ->
    latest asSpinResult (inbox w t) = Some res ->
    lastSpinResult (server w) = Some res.
Proof.
  intros Hr. refine (tracked reg asSpinResult
            (fun res st => lastSpinResult st = Some res) _ _ _ _ U w Hr); try done.
  - intros st s e d m a Hin Hp. destruct m; try discriminate. injection Hp as ->.
    by apply emitted_SpinResult in Hin.
  - intros st s e. rewrite lastSpinResult_handle. destruct e; try (by left).
    unfold emits. destruct (isDealer st s && negb (spinning st)); [|by left].
    destruct (computeSpin _ _ _ _) as [res|]; [|by left].
    right. exists (SpinResultMsg res true), res. split; [by left|done].
Qed.

Lemma told_leaderboard reg U w :
  reachableV reg U w ->
  forall t o, is_Some (sockets (server w) !! t) ->
    latest asLeaderboard (inbox w t) = Some o ->
    o = emitLeaderboard reg (server w).
Proof.
  intros Hr. refine (tracked reg asLeaderboard
            (fun o st => o = emitLeaderboard reg st) _ _ _ _ U w Hr).
  - intros a st s ->. symmetry. by apply emitLeaderboard_ext.
  - intros a st ->. symmetry. by apply emitLeaderboard_ext.
  - intros st s e d m a Hin Hp. destruct m; try discriminate. injection Hp as ->.
    by apply emitted_Leaderboard in Hin.
  - intros st s e.
    assert (forall st', In (Everyone, Leaderboard (emitLeaderboard reg st')) (boardEmit reg st'))
      as Hb by (intros st'; by left).
    destruct e.
    + right. eexists (Leaderboard _), _. split; [|reflexivity]. unfold emits. cbv zeta.
      apply in_or_app. right. cbn [app]. right. right. apply in_or_app. right. apply Hb.
    + destruct (isDealer st s && negb (Js.isNaN weight)
                && bool_decide (is_Some (oget (connectedSockets st) target))) eqn:E.
      * right. eexists (Leaderboard _), _. split; [|reflexivity]. unfold emits. rewrite E. apply Hb.
      * left. intros a ->. symmetry. by apply emitLeaderboard_frame.
    + left. intros a ->. symmetry. by apply emitLeaderboard_frame.
    + right. eexists (Leaderboard _), _. split; [|reflexivity]. unfold emits. cbv zeta.
      apply in_or_app. right. apply Hb.
    + destruct (betsOpen st && negb (isDealer st s)) eqn:E.
      * right. eexists (Leaderboard _), _. split; [|reflexivity]. unfold emits. rewrite E. apply Hb.
      * left. intros a ->. symmetry. by apply emitLeaderboard_frame.
    + left. intros a ->. symmetry. by apply emitLeaderboard_frame.
    + left. intros a ->. symmetry. by apply emitLeaderboard_frame.
    + left. intros a ->. symmetry. by apply emitLeaderboard_frame.
Qed.

(** *** What a socket that has joined has been told *)

Lemma latest_app_l {A} (pick : message -> option A) l l' :
  is_Some (latest pick l) -> is_Some (latest pick (l ++ l')).
Proof. rewrite latest_app. intros H. by destruct (latest pick l'). Qed.

Lemma latest_app_r {A} (pick : message -> option A) l l' :
  is_Some (latest pick l') -> is_Some (latest pick (l ++ l')).
Proof. rewrite latest_app. intros [a ->]. by eexists. Qed.

Lemma connectedSockets_keep reg st s e :
  (forall identifier, e <> Join identifier) -> e <> Disconnect ->
  connectedSockets (handle reg st s e) = connectedSockets st.
Proof.
  intros Hj Hd. destruct e; try done; unfold handle; try (by destruct st; crush_handler).
  by destruct (Hj identifier).
Qed.

Lemma joined_told reg U w :
  reachableV reg U w ->
  forall t, joined (server w) t ->
    is_Some (latest asDealerState (inbox w t))
    /\ is_Some (latest asBetsState (inbox w t))
    /\ is_Some (latest asLeaderboard (inbox w t))
    /\ (is_Some (lastSpinResult (server w)) -> is_Some (latest asSpinResult (inbox w t))).
Proof.
  induction 1 as [|used w s Hr IH Hfresh Hne|used w s e Hr IH Hlive Hrand|used w Hr IH Ht];
    intros t Hj.
  - by destruct Hj.
  - by apply IH.
  - assert (is_Some (sockets (handle reg (server w) s e) !! t)) as Ho.
    { apply (joined_socket_open reg used); [|done].
      constructor; [by apply reachableV_server|done|done]. }
    simpl in *. unfold deliver. rewrite bool_decide_eq_true_2 by done.
    assert ((t = s /\ exists identifier, e = Join identifier)
            \/ ~ (t = s /\ exists identifier, e = Join identifier))
      as [[-> [identifier ->]]|Hother].
    { destruct (decide (t = s)) as [->|]; [|right; by intros [? _]].
      destruct e; try (right; intros [_ [? [=]]]; fail).
      left. split; [done|by eexists]. }
    + assert (forall m, In m (received s (emits reg (server w) s (Join identifier)))
                        -> forall A (pick : message -> option A) a, pick m = Some a ->
                           is_Some (latest pick (inbox w s ++
                              received s (emits reg (server w) s (Join identifier))))) as Hgot.
      { intros m Hin A pick a Hp. apply latest_app_r. by apply (latest_is_Some pick _ m a). }
      split; [|split; [|split]].
      * eapply (Hgot (DealerState _)); [|reflexivity]. apply received_In. right.
        unfold emits. cbv zeta. apply in_or_app. right. by left.
      * eapply (Hgot (BetsState _)); [|reflexivity]. apply received_In. right.
        unfold emits. cbv zeta. apply in_or_app. right. right. by left.
      * eapply (Hgot (Leaderboard _)); [|reflexivity]. apply received_In. left.
        unfold emits. cbv zeta. apply in_or_app. right. cbn [app]. right. right.
        apply in_or_app. right. by left.
      * intros [res Hres]. eapply (Hgot (SpinResultMsg res false)); [|reflexivity].
        apply received_In. right.
        unfold emits. cbv zeta. apply in_or_app. right. cbn [app]. right. right.
        apply in_or_app. left. unfold lastResultTo, handle. simpl in Hres. rewrite Hres. by left.
    + assert (joined (server w) t) as Hj'.
      { destruct (decide (t = s)) as [->|Hts].
        - unfold joined in *. rewrite connectedSockets_keep in Hj; [done| |].
          + intros identifier ->. apply Hother. split; [done|by eexists].
          + by apply connectedSockets_self in Hj.
        - unfold joined in *. by rewrite connectedSockets_other in Hj. }
      destruct (IH t Hj') as (I1 & I2 & I3 & I4).
      split; [by apply latest_app_l|]. split; [by apply latest_app_l|].
      split; [by apply latest_app_l|].
      intros Hres. destruct (lastSpinResult (server w)) as [res0|] eqn:E0.
      * apply latest_app_l. apply I4. by eexists.
      * apply latest_app_r. rewrite lastSpinResult_handle in Hres.
        destruct e; try (rewrite E0 in Hres; by destruct Hres).
        unfold emits.
        destruct (isDealer (server w) s && negb (spinning (server w)));
          [|rewrite E0 in Hres; by destruct Hres].
        destruct (computeSpin _ _ _ _) as [res|]; [|rewrite E0 in Hres; by destruct Hres].
        apply (latest_is_Some asSpinResult _ (SpinResultMsg res true) res); [|done].
        apply received_In. left. by left.
  - by apply IH.
Qed.

(** *** Who has been granted the slot *)

Lemma granted_is_dealer reg U w :
  reachableV reg U w ->
  forall t, is_Some (sockets (server w) !! t) ->
    (In DealerGranted (inbox w t) <-> dealerSocket (server w) = Some t).
Proof.
  induction 1 as [|used w s Hr IH Hfresh Hne|used w s e Hr IH Hlive Hrand|used w Hr IH Ht];
    intros t Ho.
  - done.
  - simpl in *. destruct (decide (t = s)) as [->|Hts].
    + rewrite (inbox_fresh _ _ _ Hr s Hfresh). split; [done|]. intros Hd.
      apply reachableV_server, slotInv_reachable in Hr as (I1 & I2 & _).
      exfalso. apply Hfresh. apply I1. by apply I2.
    + rewrite lookup_insert_ne in Ho by done. by apply IH.
  - assert (is_Some (sockets (server w) !! t)) as Ho'.
    { apply sockets_handle_sub in Ho as [->|?]; done. }
    pose proof (reachableV_server _ _ _ Hr) as Hrs.
    simpl in *. unfold deliver. rewrite bool_decide_eq_true_2 by done.
    rewrite in_app_iff, (IH t Ho'), received_In. split.
    + intros [Hd|[Hin|Hin]].
      * rewrite dealerSocket_handle. destruct e; try done.
        -- destruct (joinGrants reg (server w) identifier) eqn:E; [|done].
           rewrite joinGrants_eq in E. apply andb_true_iff in E as [_ E].
           apply mayGrant_true in E as (c & _ & _ & _ & E). rewrite Hd in E.
           simpl in E. apply negb_false_iff, String.eqb_eq in E. subst t.
           by destruct (reachable_dealer_truthy reg (server w) EmptyString
                          (ex_intro _ used Hrs) Hd).
        -- destruct (mayGrant reg (server w) code) eqn:E; [|done].
           apply mayGrant_true in E as (c & _ & _ & _ & E). rewrite Hd in E.
           simpl in E. apply negb_false_iff, String.eqb_eq in E. subst t.
           by destruct (reachable_dealer_truthy reg (server w) EmptyString
                          (ex_intro _ used Hrs) Hd).
        -- destruct (isDealer (server w) s) eqn:E; [|done].
           apply isDealer_true in E. assert (t = s) as -> by congruence.
           apply sockets_handle_iff in Ho as [_ Hne']; [|done]. by destruct (Hne' eq_refl).
      * by apply emitted_DealerGranted in Hin as ([=] & _).
      * by apply emitted_DealerGranted in Hin as ([= ->] & _ & ?).
    + intros Hd. destruct (decide (dealerSocket (server w) = Some t)) as [Hd'|Hd']; [by left|].
      right. right.
      assert (t = s) as ->.
      { rewrite dealerSocket_handle in Hd. destruct e; try done.
        - destruct (joinGrants reg (server w) identifier); [congruence|done].
        - destruct (mayGrant reg (server w) code); [congruence|done].
        - destruct (isDealer (server w) s); [done|done]. }
      by apply granted_DealerGranted.
  - by apply IH.
Qed.

(** *** The clients' picture of the table *)

(** X5.  The last [dealerState] a connected socket has received says
    whether there is a dealer now; a socket that has joined has received
    one; and a connected socket has received [dealerGranted] exactly when
    it holds the dealer slot. *)
Theorem clients_know_the_dealer reg w t :
  ReachableV reg w -> is_Some (sockets (server w) !! t) ->
  (forall b, latest asDealerState (inbox w t) = Some b ->
     b = bool_decide (is_Some (dealerSocket (server w))))
  /\ (joined (server w) t -> is_Some (latest asDealerState (inbox w t)))
  /\ (In DealerGranted (inbox w t) <-> dealerSocket (server w) = Some t).
Proof.
  intros [U Hr] Ho. split; [|split].
  - intros b. by apply (told_dealerState reg U).
  - intros Hj. by apply (joined_told reg U w Hr t Hj).
  - by apply (granted_is_dealer reg U).
Qed.

Lemma clients_know_the_dealer_witness :
  (forall b, latest asDealerState (inbox (runV demoRegistry staleTrace) "p") = Some b ->
     b = bool_decide (is_Some (dealerSocket (server (runV demoRegistry staleTrace)))))
  /\ (joined (server (runV demoRegistry staleTrace)) "p" ->
      is_Some (latest asDealerState (inbox (runV demoRegistry staleTrace) "p")))
  /\ (In DealerGranted (inbox (runV demoRegistry staleTrace) "p")
      <-> dealerSocket (server (runV demoRegistry staleTrace)) = Some "p"%string).
Proof.
  apply (clients_know_the_dealer demoRegistry (runV demoRegistry staleTrace) "p"%string).
  - apply runV_reachable. vm_compute. reflexivity.
  - vm_compute. eexists. reflexivity.
Defined.

(** X6.  Every [betsState] message carries the state of the window after
    the handler that sent it, a socket that has joined has received one,
    and a connected socket whose last [betsState] says closed is right:
    the window is closed.  (The other direction fails, see
    [stale_bets_state].) *)
Theorem closed_means_closed reg w t :
  ReachableV reg w -> is_Some (sockets (server w) !! t) ->
  (latest asBetsState (inbox w t) = Some false -> betsOpen (server w) = false)
  /\ (joined (server w) t -> is_Some (latest asBetsState (inbox w t)))
  /\ (forall s e d b, In (d, BetsState b) (emits reg (server w) s e) ->
        b = betsOpen (handle reg (server w) s e)).
Proof.
  intros [U Hr] Ho. split; [|split].
  - intros Hl. destruct (betsOpen (server w)) eqn:E; [|done].
    by pose proof (told_betsState reg U w Hr t false Ho Hl E).
  - intros Hj. by apply (joined_told reg U w Hr t Hj).
  - intros s e d b. apply emitted_BetsState.
Qed.

Lemma closed_means_closed_witness :
  (latest asBetsState (inbox (runV demoRegistry staleTrace) "p") = Some false ->
   betsOpen (server (runV demoRegistry staleTrace)) = false)
  /\ (joined (server (runV demoRegistry staleTrace)) "p" ->
      is_Some (latest asBetsState (inbox (runV demoRegistry staleTrace) "p")))
  /\ (forall s e d b,
        In (d, BetsState b) (emits demoRegistry (server (runV demoRegistry staleTrace)) s e) ->
        b = betsOpen (handle demoRegistry (server (runV demoRegistry staleTrace)) s e)).
Proof.
  apply (closed_means_closed demoRegistry (runV demoRegistry staleTrace) "p"%string).
  - apply runV_reachable. vm_compute. reflexivity.
  - vm_compute. eexists. reflexivity.
Defined.

(** When the dealer leaves an open window the server closes it and sends
    no [betsState]: the player still has the window as open. *)
Example stale_bets_state :
  ReachableV demoRegistry (runV demoRegistry staleTrace)
  /\ joined (server (runV demoRegistry staleTrace)) "p"
  /\ latest asBetsState (inbox (runV demoRegistry staleTrace) "p") = Some true
  /\ betsOpen (server (runV demoRegistry staleTrace)) = false.
Proof.
  split; [apply runV_reachable; vm_compute; reflexivity|].
  split; [vm_compute; eexists; reflexivity|].
  split; vm_compute; reflexivity.
Qed.

(** X7.  The last spin result a socket that has joined has received is the
    result the server holds (none if there has been no spin); for any
    connected socket, a spin result it has received last is the server's. *)
Theorem clients_hold_the_last_result reg w t :
  ReachableV reg w -> is_Some (sockets (server w) !! t) ->
  (forall res, latest asSpinResult (inbox w t) = Some res ->
     lastSpinResult (server w) = Some res)
  /\ (joined (server w) t -> latest asSpinResult (inbox w t) = lastSpinResult (server w)).
Proof.
  intros [U Hr] Ho.
  assert (forall res, latest asSpinResult (inbox w t) = Some res ->
                      lastSpinResult (server w) = Some res) as H1.
  { intros res. by apply (told_spinResult reg U). }
  split; [done|]. intros Hj.
  destruct (joined_told reg U w Hr t Hj) as (_ & _ & _ & H4).
  destruct (latest asSpinResult (inbox w t)) as [res|] eqn:E.
  - symmetry. by apply H1.
  - destruct (lastSpinResult (server w)) as [res|]; [|done].
    destruct H4 as [? ?]; [by eexists|done].
Qed.

Lemma clients_hold_the_last_result_witness :
  (forall res, latest asSpinResult (inbox (runV demoRegistry spunTrace) "p") = Some res ->
     lastSpinResult (server (runV demoRegistry spunTrace)) = Some res)
  /\ (joined (server (runV demoRegistry spunTrace)) "p" ->
      latest asSpinResult (inbox (runV demoRegistry spunTrace) "p")
      = lastSpinResult (server (runV demoRegistry spunTrace))).
Proof.
  apply (clients_hold_the_last_result demoRegistry (runV demoRegistry spunTrace) "p"%string).
  - apply runV_reachable. vm_compute. reflexivity.
  - vm_compute. eexists. reflexivity.
Defined.

(** X8.  The leaderboard a connected socket has received last is the
    leaderboard of the present state, and a socket that has joined has
    received one: every handler that changes what the leaderboard shows
    broadcasts it, computed after the change. *)
Theorem clients_see_the_leaderboard reg w t :
  ReachableV reg w -> is_Some (sockets (server w) !! t) ->
  (forall o, latest asLeaderboard (inbox w t) = Some o ->
     o = emitLeaderboard reg (server w))
  /\ (joined (server w) t ->
      latest asLeaderboard (inbox w t) = Some (emitLeaderboard reg (server w))).
Proof.
  intros [U Hr] Ho.
  assert (forall o, latest asLeaderboard (inbox w t) = Some o ->
                    o = emitLeaderboard reg (server w)) as H1.
  { intros o. by apply (told_leaderboard reg U). }
  split; [done|]. intros Hj.
  destruct (joined_told reg U w Hr t Hj) as (_ & _ & [o Hl] & _).
  rewrite Hl. f_equal. by apply H1.
Qed.

Lemma clients_see_the_leaderboard_witness :
  (forall o, latest asLeaderboard (inbox (runV demoRegistry spunTrace) "p") = Some o ->
     o = emitLeaderboard demoRegistry (server (runV demoRegistry spunTrace)))
  /\ (joined (server (runV demoRegistry spunTrace)) "p" ->
      latest asLeaderboard (inbox (runV demoRegistry spunTrace) "p")
      = Some (emitLeaderboard demoRegistry (server (runV demoRegistry spunTrace)))).
Proof.
  apply (clients_see_the_leaderboard demoRegistry (runV demoRegistry spunTrace) "p"%string).
  - apply runV_reachable. vm_compute. reflexivity.
  - vm_compute. eexists. reflexivity.
Defined.

(* ===================================================================== *)
(** ** The registry read at start-up *)
(* ===================================================================== *)

(** *** Strings *)

Lemma string_list_roundtrip s : string_of_list_ascii (list_ascii_of_string s) = s.
Proof. apply string_of_list_ascii_of_string. Qed.

Lemma dropWs_head c t : Js.is_ws c = false -> Js.dropWs (c :: t) = c :: t.
Proof. intros H. simpl. by rewrite H. Qed.

Lemma dropWs_length l : (length (Js.dropWs l) <= length l)%nat.
Proof. induction l as [|c t IH]; simpl; [done|]. destruct (Js.is_ws c); simpl; lia. Qed.

Lemma dropWs_fixed l : Js.dropWs l = l -> match l with c :: _ => Js.is_ws c = false | [] => True end.
Proof.
  destruct l as [|c t]; [done|]. simpl. destruct (Js.is_ws c); [|done].
  intros H. pose proof (dropWs_length t) as Hl. rewrite H in Hl. simpl in Hl. lia.
Qed.

(** A list with no white space at either end is its own trimming, and
    only such a list is. *)
Lemma trimChars_id l :
  match l with c :: _ => Js.is_ws c = false | [] => True end ->
  match rev l with c :: _ => Js.is_ws c = false | [] => True end ->
  Js.trimChars l = l.
Proof.
  intros H1 H2. unfold Js.trimChars.
  assert (Js.dropWs l = l) as -> by (destruct l; [done|by apply dropWs_head]).
  assert (Js.dropWs (rev l) = rev l) as -> by (destruct (rev l); [done|by apply dropWs_head]).
  apply rev_involutive.
Qed.

Lemma trimChars_fixed l :
  Js.trimChars l = l ->
  match l with c :: _ => Js.is_ws c = false | [] => True end
  /\ match rev l with c :: _ => Js.is_ws c = false | [] => True end.
Proof.
  unfold Js.trimChars. intros H.
  assert (length (Js.dropWs (rev (Js.dropWs l))) = length l) as Hlen.
  { rewrite <- H at 2. by rewrite length_rev. }
  pose proof (dropWs_length l) as L1.
  pose proof (dropWs_length (rev (Js.dropWs l))) as L2. rewrite length_rev in L2.
  assert (Js.dropWs l = l) as E1.
  { destruct l as [|c t]; [done|]. simpl in *. destruct (Js.is_ws c); [|done].
    pose proof (dropWs_length t). lia. }
  split; [by apply dropWs_fixed|].
  rewrite E1 in H. apply dropWs_fixed.
  apply (f_equal (@rev ascii)) in H. by rewrite rev_involutive in H.
Qed.

Lemma trim_id s :
  Js.trim s = s <-> Js.trimChars (list_ascii_of_string s) = list_ascii_of_string s.
Proof.
  unfold Js.trim. split; intros H.
  - rewrite <- H at 2. by rewrite list_ascii_of_string_of_list_ascii.
  - rewrite H. apply string_of_list_ascii_of_string.
Qed.

Lemma isDigit_not_ws c : isDigit c = true -> Js.is_ws c = false.
Proof.
  unfold isDigit, Js.is_ws. intros H. apply andb_true_iff in H as [H1 H2].
  apply Nat.leb_le in H1.
  repeat (apply orb_false_iff; split); apply Nat.eqb_neq; lia.
Qed.

Lemma isCode_digits c : isCode c = true ->
  length (list_ascii_of_string c) = 6%nat /\ Forall (fun x => isDigit x = true) (list_ascii_of_string c).
Proof.
  unfold isCode. intros H. apply andb_true_iff in H as [H1 H2].
  apply Nat.eqb_eq in H1. split; [done|].
  apply Forall_forall. intros x Hx. apply list_elem_of_In in Hx.
  by apply (proj1 (forallb_forall _ _) H2).
Qed.

(** A six-digit code has no white space to trim. *)
Lemma isCode_trim c : isCode c = true -> Js.trim c = c.
Proof.
  intros H. apply isCode_digits in H as [Hl Hd]. apply trim_id.
  apply trimChars_id.
  - destruct (list_ascii_of_string c) as [|x t]; [done|].
    apply isDigit_not_ws. by apply Forall_inv in Hd.
  - assert (Forall (fun x => isDigit x = true) (rev (list_ascii_of_string c))) as Hr.
    { apply Forall_forall. intros x Hx. apply list_elem_of_In, in_rev in Hx.
      apply (proj1 (Forall_forall _ _) Hd). by apply list_elem_of_In. }
    destruct (rev (list_ascii_of_string c)) as [|x t]; [done|].
    apply isDigit_not_ws. by apply Forall_inv in Hr.
Qed.

Lemma dropWs_snoc a c : Js.is_ws c = false -> Js.dropWs (a ++ [c]) = Js.dropWs a ++ [c].
Proof.
  intros H. induction a as [|x a IH]; simpl; [by rewrite H|].
  by destruct (Js.is_ws x).
Qed.

Lemma dropWs_result l : match Js.dropWs l with c :: _ => Js.is_ws c = false | [] => True end.
Proof.
  induction l as [|x l IH]; simpl; [done|].
  destruct (Js.is_ws x) eqn:E; [done|]. simpl. done.
Qed.

Lemma trimChars_idempotent l : Js.trimChars (Js.trimChars l) = Js.trimChars l.
Proof.
  pose proof (dropWs_result l) as Hm. unfold Js.trimChars at 2 3.
  destruct (Js.dropWs l) as [|c t]; [done|].
  simpl rev. rewrite (dropWs_snoc _ _ Hm), rev_app_distr. simpl.
  apply trimChars_id; [done|].
  simpl. rewrite rev_involutive.
  pose proof (dropWs_result (rev t)) as Hr.
  destruct (Js.dropWs (rev t)); simpl; done.
Qed.

Lemma trim_idempotent s : Js.trim (Js.trim s) = Js.trim s.
Proof.
  unfold Js.trim. rewrite list_ascii_of_string_of_list_ascii. by rewrite trimChars_idempotent.
Qed.

(** *** The loop over the lines *)

Lemma list_to_map_oget (o : odict string) c :
  (list_to_map o : gmap string string) !! c = oget o c.
Proof.
  induction o as [|[k v] o IH]; simpl; [apply lookup_empty|].
  destruct (String.eqb k c) eqn:E.
  - apply String.eqb_eq in E as ->. apply lookup_insert_eq.
  - apply String.eqb_neq in E. by rewrite lookup_insert_ne.
Qed.

Lemma parseLine_Some ln code name :
  parseLine ln = Some (code, name) ->
  isCode code = true /\ name <> EmptyString /\ Js.trim name = name.
Proof.
  unfold parseLine. destruct (2 <=? length (splitOn "," ln))%nat; [|done].
  destruct (isCode _ && truthyS _) eqn:E; [|done].
  intros [= <- <-]. apply andb_true_iff in E as [E1 E2].
  split; [done|]. split; [by apply truthyS_true|apply trim_idempotent].
Qed.

Lemma oget_oset {V} (o : odict V) k v k' :
  oget (oset o k v) k' = if String.eqb k k' then Some v else oget o k'.
Proof.
  destruct (String.eqb k k') eqn:E.
  - apply String.eqb_eq in E as <-. apply oget_oset_eq.
  - apply String.eqb_neq in E. apply oget_oset_ne. congruence.
Qed.

Lemma loaded_inv lines : forall acc,
  (forall c, In c (snd acc) <-> is_Some (oget (fst acc) c)) ->
  (forall c n, oget (fst acc) c = Some n ->
     isCode c = true /\ n <> EmptyString /\ Js.trim n = n) ->
  NoDup (okeys (fst acc)) ->
  (forall c, In c (snd (fold_left addUser lines acc))
             <-> is_Some (oget (fst (fold_left addUser lines acc)) c))
  /\ (forall c n, oget (fst (fold_left addUser lines acc)) c = Some n ->
        isCode c = true /\ n <> EmptyString /\ Js.trim n = n)
  /\ NoDup (okeys (fst (fold_left addUser lines acc))).
Proof.
  induction lines as [|ln lines IH]; intros acc H1 H2 H3; [done|].
  simpl. apply IH; unfold addUser; destruct (parseLine ln) as [[code name]|] eqn:E; try done;
    simpl.
  - intros c. rewrite in_app_iff, oget_oset, H1. simpl.
    destruct (String.eqb code c) eqn:Ec.
    + apply String.eqb_eq in Ec as ->. split; [by eexists|]. intros _. right. by left.
    + apply String.eqb_neq in Ec. split; [|by left]. intros [H|[H|[]]]; [done|congruence].
  - intros c n. rewrite oget_oset. destruct (String.eqb code c) eqn:Ec.
    + apply String.eqb_eq in Ec as ->. intros [= <-]. by apply (parseLine_Some ln).
    + apply H2.
  - by apply NoDup_oset.
Qed.

Lemma initial_status (l : list string) (c : string) : forall m : gmap string status,
  fold_left (fun m code => <[code := Status false None]> m) l m !! c
  = if existsb (String.eqb c) l then Some (Status false None) else m !! c.
Proof.
  induction l as [|x l IH]; intros m; simpl; [done|].
  rewrite IH. destruct (existsb (String.eqb c) l); [by rewrite orb_true_r|].
  rewrite orb_false_r. destruct (String.eqb c x) eqn:E.
  - apply String.eqb_eq in E as ->. apply lookup_insert_eq.
  - apply String.eqb_neq in E. by rewrite lookup_insert_ne.
Qed.

Lemma existsb_eqb_In (l : list string) (c : string) :
  existsb (String.eqb c) l = true <-> In c l.
Proof.
  rewrite existsb_exists. split.
  - intros (x & Hin & E). apply String.eqb_eq in E. by subst.
  - intros H. exists c. split; [done|apply String.eqb_refl].
Qed.

(** X9.  Whatever [users.txt] holds, the registry read from it is well
    formed: the codes of [usersOrder] are exactly the keys of
    [usersByCode]; every registered code has six digits and a name that is
    not empty and has no white space around it; and every registered user
    starts with the status disconnected. *)
Theorem loaded_registry_is_well_formed (file : option string) :
  (forall code, In code (usersOrder (loadUsers file))
                <-> is_Some (usersByCode (loadUsers file) !! code))
  /\ (forall code name, usersByCode (loadUsers file) !! code = Some name ->
        isCode code = true /\ name <> EmptyString /\ Js.trim name = name)
  /\ (forall code, In code (usersOrder (loadUsers file)) ->
        usersStatus (initial (loadUsers file)) !! code = Some (Status false None))
  /\ (forall code, ~ In code (usersOrder (loadUsers file)) ->
        usersStatus (initial (loadUsers file)) !! code = None).
Proof.
  destruct file as [text|]; simpl.
  - destruct (loaded_inv (userLines text) ([], [])) as (H1 & H2 & H3); try done.
    { intros c. simpl. split; [done|]. by intros [? ?]. }
    { apply NoDup_nil_2. }
    split; [|split; [|split]].
    + intros code. rewrite list_to_map_oget. apply H1.
    + intros code name. rewrite list_to_map_oget. apply H2.
    + intros code Hin. rewrite initial_status.
      by rewrite (proj2 (existsb_eqb_In _ _) Hin).
    + intros code Hin. rewrite initial_status, lookup_empty.
      destruct (existsb (String.eqb code) _) eqn:E; [|done].
      by apply existsb_eqb_In in E.
  - split; [|split; [|split]]; try done.
    intros code. rewrite lookup_empty. split; [done|]. by intros [? ?].
Qed.

(** *** The dealer code *)

Lemma insertEntry_In e x l : In x (insertEntry e l) <-> x = e \/ In x l.
Proof.
  induction l as [|y t IH]; simpl.
  - split; [intros [<-|[]]; by left|intros [->|[]]; by left].
  - destruct (codeNumber (fst y) <? codeNumber (fst e))%Z; simpl.
    + rewrite IH. split.
      * intros [->|[->|H]]; [right; by left|by left|right; by right].
      * intros [->|[->|H]]; [right; by left|by left|right; by right].
    + split.
      * intros [<-|H]; [by left|by right].
      * intros [->|H]; [by left|by right].
Qed.

Lemma sortEntries_In x l : In x (fold_right insertEntry [] l) <-> In x l.
Proof.
  induction l as [|y t IH]; simpl; [done|].
  rewrite insertEntry_In, IH. split; intros [H|H]; try (by right); by left.
Qed.

Lemma entries_In o x : In x (entries o) <-> In x o.
Proof.
  unfold entries. rewrite in_app_iff, sortEntries_In.
  rewrite <- !list_elem_of_In, !list_elem_of_filter. split.
  - by intros [[_ ?]|[_ ?]].
  - intros H. destruct (isArrayIndex (fst x)); [by left|by right].
Qed.

Lemma insertEntry_sorted e l :
  StronglySorted (fun a b => (codeNumber (fst a) <= codeNumber (fst b))%Z) l ->
  StronglySorted (fun a b => (codeNumber (fst a) <= codeNumber (fst b))%Z) (insertEntry e l).
Proof.
  induction 1 as [|y t Hs IH Hy]; simpl.
  - constructor; [constructor|constructor].
  - destruct (codeNumber (fst y) <? codeNumber (fst e))%Z eqn:E.
    + apply Z.ltb_lt in E. constructor; [done|].
      apply List.Forall_forall. intros z Hz. apply insertEntry_In in Hz as [->|Hz]; [lia|].
      by apply (proj1 (List.Forall_forall _ _) Hy).
    + apply Z.ltb_ge in E. constructor; [by constructor|].
      constructor; [done|].
      apply List.Forall_forall. intros z Hz.
      pose proof (proj1 (List.Forall_forall _ _) Hy z Hz). simpl in *. lia.
Qed.

Lemma sortEntries_sorted l :
  StronglySorted (fun a b => (codeNumber (fst a) <= codeNumber (fst b))%Z)
                 (fold_right insertEntry [] l).
Proof.
  induction l as [|y t IH]; simpl; [constructor|]. by apply insertEntry_sorted.
Qed.

Lemma find_first_sorted {A} (le : A -> A -> Prop) (p : A -> bool) l x :
  (forall a, le a a) -> StronglySorted le l -> List.find p l = Some x ->
  forall y, In y l -> p y = true -> le x y.
Proof.
  intros Hrefl. induction 1 as [|z t Hs IH Hz]; simpl; [done|].
  destruct (p z) eqn:E.
  - intros [= <-] y [<-|Hy] _; [done|]. by apply (proj1 (List.Forall_forall _ _) Hz).
  - intros Hf y [<-|Hy] Hp; [congruence|]. by apply IH.
Qed.

Lemma find_app_split {A} (p : A -> bool) l1 l2 :
  List.find p (l1 ++ l2)
  = match List.find p l1 with Some x => Some x | None => List.find p l2 end.
Proof. induction l1 as [|z t IH]; simpl; [done|]. by destruct (p z). Qed.

Lemma oget_In {V} (o : odict V) k v : oget o k = Some v -> In (k, v) o.
Proof.
  induction o as [|[k' v'] o IH]; simpl; [done|].
  destruct (String.eqb k' k) eqn:E.
  - apply String.eqb_eq in E as ->. intros [= ->]. by left.
  - intros H. right. by apply IH.
Qed.

Lemma deriveDealer_spec (o : odict string) :
  NoDup (okeys o) ->
  (forall c, deriveDealer o = Some c ->
     exists name, oget o c = Some name /\ Js.toLowerCase name = "dealer"%string)
  /\ (deriveDealer o = None <->
      forall c name, oget o c = Some name -> Js.toLowerCase name <> "dealer"%string)
  /\ (forall c c' name', deriveDealer o = Some c -> oget o c' = Some name' ->
        Js.toLowerCase name' = "dealer"%string -> isArrayIndex c' = true ->
        isArrayIndex c = true /\ (codeNumber c <= codeNumber c')%Z).
Proof.
  intros Hnd. unfold deriveDealer.
  set (p := fun e : string * string => String.eqb (Js.toLowerCase (snd e)) "dealer").
  split; [|split].
  - intros c. destruct (List.find p (entries o)) as [[c0 n0]|] eqn:E; [|done].
    intros [= <-]. apply find_some in E as [Hin Hp]. apply (proj1 (entries_In _ _)) in Hin.
    exists n0. split.
    + apply oget_NoDup_In; [done|by apply list_elem_of_In].
    + by apply String.eqb_eq in Hp.
  - split.
    + destruct (List.find p (entries o)) as [[c0 n0]|] eqn:E; [done|].
      intros _ c name Hc Hd. apply oget_In in Hc. apply (proj2 (entries_In _ _)) in Hc.
      pose proof (find_none _ _ E _ Hc) as Hp. unfold p in Hp. simpl in Hp.
      rewrite Hd in Hp. done.
    + intros H. destruct (List.find p (entries o)) as [[c0 n0]|] eqn:E; [|done].
      apply find_some in E as [Hin Hp]. apply (proj1 (entries_In _ _)) in Hin.
      exfalso. apply (H c0 n0).
      * apply oget_NoDup_In; [done|by apply list_elem_of_In].
      * by apply String.eqb_eq in Hp.
  - intros c c' name' Hc Hc' Hd Hi.
    assert (In (c', name') (fold_right insertEntry []
              (filter (fun e => isArrayIndex (fst e) = true) o))) as Hin.
    { apply (proj2 (sortEntries_In _ _)). apply (proj1 (list_elem_of_In _ _)).
      apply list_elem_of_filter. split; [done|].
      apply (proj2 (list_elem_of_In _ _)). by apply oget_In. }
    assert (p (c', name') = true) as Hp by (unfold p; simpl; by rewrite Hd).
    unfold entries in Hc. rewrite find_app_split in Hc.
    destruct (List.find p (fold_right insertEntry [] _)) as [[c0 n0]|] eqn:E.
    + injection Hc as <-. split.
      * apply find_some in E as [Hin0 _].
        apply (proj1 (sortEntries_In _ _)) in Hin0. apply (proj2 (list_elem_of_In _ _)) in Hin0.
        by apply list_elem_of_filter in Hin0 as [? _].
      * apply (find_first_sorted _ p _ (c0, n0) (fun a => Z.le_refl _)
                 (sortEntries_sorted _) E (c', name') Hin Hp).
    + by rewrite (find_none _ _ E _ Hin) in Hp.
Qed.

Lemma loaded_NoDup text :
  NoDup (okeys (fst (fold_left addUser (userLines text) ([], [])))).
Proof.
  destruct (loaded_inv (userLines text) ([], [])) as (_ & _ & H3); try done.
  - intros c. simpl. split; [done|]. by intros [? ?].
  - apply NoDup_nil_2.
Qed.

(** X10.  The dealer code read from [users.txt] is a registered code whose
    name is "dealer" up to case, and there is none exactly when no
    registered name is.  When several users are called Dealer, the order
    of the lines does not decide: a code without a leading zero wins over
    the codes with one, and among the codes without a leading zero the
    smallest number wins. *)
Theorem dealer_code_is_a_dealer (file : option string) :
  (forall c, DEALER_CODE (loadUsers file) = Some c ->
     exists name, usersByCode (loadUsers file) !! c = Some name
                  /\ Js.toLowerCase name = "dealer"%string)
  /\ (DEALER_CODE (loadUsers file) = None <->
      forall c name, usersByCode (loadUsers file) !! c = Some name ->
                     Js.toLowerCase name <> "dealer"%string)
  /\ (forall c c' name', DEALER_CODE (loadUsers file) = Some c ->
        usersByCode (loadUsers file) !! c' = Some name' ->
        Js.toLowerCase name' = "dealer"%string -> isArrayIndex c' = true ->
        isArrayIndex c = true /\ (codeNumber c <= codeNumber c')%Z).
Proof.
  destruct file as [text|]; simpl.
  - destruct (deriveDealer_spec _ (loaded_NoDup text)) as (H1 & H2 & H3).
    split; [|split].
    + intros c Hc. destruct (H1 c Hc) as (name & Hn & Hd). exists name.
      by rewrite list_to_map_oget.
    + rewrite H2. split; intros H c name; [rewrite list_to_map_oget|rewrite <- list_to_map_oget];
        apply H.
    + intros c c' name' Hc. rewrite list_to_map_oget. by apply H3.
  - split; [|split]; done.
Qed.

(** Two users called Dealer: the second line gives the dealer code. *)
Example dealer_code_example :
  DEALER_CODE (loadUsers (Some (renderUsers
    [("200000", "Dealer"); ("100000", "dealer"); ("000001", "DEALER")]%string)))
  = Some "100000"%string.
Proof. vm_compute. reflexivity. Qed.

(** *** Writing and reading [users.txt] *)

Lemma chars_append a b :
  list_ascii_of_string (String.append a b) = list_ascii_of_string a ++ list_ascii_of_string b.
Proof. induction a as [|c a IH]; simpl; [done|]. by rewrite IH. Qed.

Lemma splitLines_line l rest :
  forallb (fun c => negb (Ascii.eqb c LF) && negb (Ascii.eqb c CR)) (list_ascii_of_string l) = true ->
  splitLines (String.append l (String LF rest)) = l :: splitLines rest.
Proof.
  induction l as [|c l IH]; intros H.
  - done.
  - simpl in H. apply andb_true_iff in H as [Hc H]. apply andb_true_iff in Hc as [H1 H2].
    apply negb_true_iff in H1, H2. specialize (IH H).
    change (String.append (String c l) (String LF rest))
      with (String c (String.append l (String LF rest))).
    cbn [splitLines]. rewrite H1, H2. cbn [andb]. rewrite IH.
    by destruct (String.append l (String LF rest)).
Qed.

Lemma splitOn_head sep a rest :
  forallb (fun c => negb (Ascii.eqb c sep)) (list_ascii_of_string a) = true ->
  splitOn sep (String.append a (String sep rest)) = a :: splitOn sep rest.
Proof.
  induction a as [|c a IH]; intros H; simpl.
  - by rewrite Ascii.eqb_refl.
  - simpl in H. apply andb_true_iff in H as [Hc H]. apply negb_true_iff in Hc.
    by rewrite Hc, (IH H).
Qed.

Lemma splitOn_nonempty sep s : splitOn sep s <> [].
Proof.
  destruct s as [|c s]; simpl; [done|].
  destruct (Ascii.eqb c sep); [done|]. by destruct (splitOn sep s).
Qed.

(** Joining what a split gave returns the string. *)
Lemma joinWith_splitOn sep s :
  joinWith (String sep EmptyString) (splitOn sep s) = s.
Proof.
  induction s as [|c s IH]; [done|].
  cbn [splitOn]. destruct (Ascii.eqb c sep) eqn:E.
  - apply Ascii.eqb_eq in E as ->. cbn [joinWith].
    destruct (splitOn sep s) as [|h r] eqn:Es; [by destruct (splitOn_nonempty sep s)|].
    simpl. simpl in IH. by rewrite IH.
  - destruct (splitOn sep s) as [|h r] eqn:Es; [by destruct (splitOn_nonempty sep s)|].
    simpl. simpl in IH. destruct r; [by rewrite <- IH|]. by rewrite <- IH.
Qed.

Lemma digit_chars c (sep : ascii) :
  isCode c = true -> (forall x, isDigit x = true -> Ascii.eqb x sep = false) ->
  forallb (fun x => negb (Ascii.eqb x sep)) (list_ascii_of_string c) = true.
Proof.
  intros Hc Hs. apply isCode_digits in Hc as [_ Hd]. apply forallb_forall.
  intros x Hx. apply negb_true_iff, Hs.
  apply (proj1 (Forall_forall _ _) Hd). by apply list_elem_of_In.
Qed.

Lemma isDigit_not c a :
  isDigit c = true -> (nat_of_ascii a < 48)%nat -> Ascii.eqb c a = false.
Proof.
  unfold isDigit. intros H Hn. apply andb_true_iff in H as [H1 _]. apply Nat.leb_le in H1.
  apply Ascii.eqb_neq. intros ->. lia.
Qed.

Lemma userLine_parse u :
  isCode (fst u) && cleanName (snd u) = true -> parseLine (userLine u) = Some u.
Proof.
  destruct u as [c n]. simpl. intros H. apply andb_true_iff in H as [Hc Hn].
  unfold cleanName in Hn. apply andb_true_iff in Hn as [Hn Ht].
  apply andb_true_iff in Hn as [Hne _]. apply String.eqb_eq in Ht.
  unfold parseLine, userLine. simpl fst. simpl snd.
  rewrite splitOn_head by (apply digit_chars; [done|]; intros x Hx; by apply isDigit_not; [|vm_compute; lia]).
  cbn [length hd tl].
  pose proof (splitOn_nonempty "," n) as Hs.
  destruct (splitOn "," n) as [|h r] eqn:E; [done|]. rewrite <- E.
  assert ((2 <=? S (length (splitOn "," n)))%nat = true) as ->.
  { rewrite E. done. }
  rewrite (joinWith_splitOn "," n), Ht, (isCode_trim c Hc), Hc, Hne. done.
Qed.

Lemma userLine_trim u :
  isCode (fst u) && cleanName (snd u) = true ->
  Js.trim (userLine u) = userLine u /\ truthyS (userLine u) = true.
Proof.
  destruct u as [c n]. simpl. intros H. apply andb_true_iff in H as [Hc Hn].
  unfold cleanName in Hn. apply andb_true_iff in Hn as [Hn Ht].
  apply andb_true_iff in Hn as [Hne _]. apply String.eqb_eq in Ht.
  pose proof (isCode_digits c Hc) as [Hl Hd].
  unfold userLine. simpl fst. simpl snd. split.
  - apply trim_id. rewrite chars_append. simpl.
    apply trim_id, trimChars_fixed in Ht as [_ Hlast].
    apply trimChars_id.
    + destruct (list_ascii_of_string c) as [|x t]; [done|]. simpl.
      apply isDigit_not_ws. by apply Forall_inv in Hd.
    + rewrite rev_app_distr. simpl.
      destruct n as [|x n]; [done|].
      destruct (rev (list_ascii_of_string (String x n))) as [|y t] eqn:E.
      * apply (f_equal (@length ascii)) in E. rewrite length_rev in E. done.
      * simpl. done.
  - destruct c; [done|done].
Qed.

Lemma userLine_chars u :
  isCode (fst u) && cleanName (snd u) = true ->
  forallb (fun c => negb (Ascii.eqb c LF) && negb (Ascii.eqb c CR))
          (list_ascii_of_string (userLine u)) = true.
Proof.
  destruct u as [c n]. simpl. intros H. apply andb_true_iff in H as [Hc Hn].
  unfold cleanName in Hn. apply andb_true_iff in Hn as [Hn _].
  apply andb_true_iff in Hn as [_ Hn].
  unfold userLine. simpl fst. simpl snd. rewrite chars_append, forallb_app. simpl.
  rewrite Hn, andb_true_r. apply isCode_digits in Hc as [_ Hd]. apply forallb_forall.
  intros x Hx. apply list_elem_of_In in Hx.
  pose proof (proj1 (Forall_forall _ _) Hd x Hx) as Hx'.
  rewrite (isDigit_not x LF Hx'), (isDigit_not x CR Hx'); [done|vm_compute; lia|vm_compute; lia].
Qed.

Lemma renderUsers_cons u users :
  renderUsers (u :: users) = String.append (userLine u) (String LF (renderUsers users)).
Proof. done. Qed.

Lemma userLines_render users :
  forallb (fun u => isCode (fst u) && cleanName (snd u)) users = true ->
  userLines (renderUsers users) = map userLine users.
Proof.
  unfold userLines. induction users as [|u users IH]; intros H.
  - done.
  - simpl in H. apply andb_true_iff in H as [Hu H].
    rewrite renderUsers_cons, (splitLines_line _ _ (userLine_chars u Hu)).
    destruct (userLine_trim u Hu) as [Ht Hne].
    cbn [map]. rewrite Ht, filter_cons, decide_True by done.
    by rewrite (IH H).
Qed.

Lemma load_lines users : forall acc,
  forallb (fun u => isCode (fst u) && cleanName (snd u)) users = true ->
  fold_left addUser (map userLine users) acc
  = (fold_left (fun o u => oset o (fst u) (snd u)) users (fst acc),
     snd acc ++ map fst users).
Proof.
  induction users as [|u users IH]; intros [o order] H; simpl.
  - by rewrite app_nil_r.
  - simpl in H. apply andb_true_iff in H as [Hu H].
    unfold addUser at 2. rewrite (userLine_parse u Hu). destruct u as [c n]. simpl.
    rewrite (IH _ H). simpl. by rewrite <- app_assoc.
Qed.

Lemma oget_fold_oset (users : list (string * string)) code : forall o : odict string,
  oget (fold_left (fun o u => oset o (fst u) (snd u)) users o) code
  = match List.find (fun u => String.eqb (fst u) code) (rev users) with
    | Some u => Some (snd u)
    | None => oget o code
    end.
Proof.
  induction users as [|u users IH]; intros o; simpl; [done|].
  rewrite IH, find_app_split, oget_oset. simpl.
  destruct (List.find _ (rev users)); [done|]. by destruct (String.eqb (fst u) code).
Qed.

(** X11.  Reading back a file that lists users one per line as
    [code,name] gives these users: [usersOrder] is the list of the codes,
    line by line, and a code has the name of its last line.  The codes have
    six digits; a name is not empty, has no line break inside and no white
    space around, and may contain commas. *)
Theorem users_file_round_trip (users : list (string * string)) :
  forallb (fun u => isCode (fst u) && cleanName (snd u)) users = true ->
  usersOrder (loadUsers (Some (renderUsers users))) = map fst users
  /\ (forall code,
        usersByCode (loadUsers (Some (renderUsers users))) !! code
        = snd <$> List.find (fun u => String.eqb (fst u) code) (rev users)).
Proof.
  intros H. unfold loadUsers. rewrite (userLines_render users H), (load_lines users _ H).
  simpl. split; [done|].
  intros code. rewrite list_to_map_oget, oget_fold_oset. simpl.
  by destruct (List.find _ (rev users)).
Qed.

Lemma users_file_round_trip_witness :
  usersOrder (loadUsers (Some (renderUsers
    [("100001", "Dealer"); ("100002", "Smith, Alice"); ("100002", "Alice")]%string)))
  = ["100001"; "100002"; "100002"]%string
  /\ (forall code,
        usersByCode (loadUsers (Some (renderUsers
          [("100001", "Dealer"); ("100002", "Smith, Alice"); ("100002", "Alice")]%string)))
          !! code
        = snd <$> List.find (fun u => String.eqb (fst u) code)
                    (rev [("100001", "Dealer"); ("100002", "Smith, Alice");
                          ("100002", "Alice")]%string)).
Proof.
  apply (users_file_round_trip
           [("100001", "Dealer"); ("100002", "Smith, Alice"); ("100002", "Alice")]%string).
  vm_compute. reflexivity.
Defined.

(** *** A registry without a dealer *)

Lemma mayGrant_no_code reg st v : DEALER_CODE reg = None -> mayGrant reg st v = false.
Proof. unfold mayGrant. by intros ->. Qed.

Lemma isDealer_no_dealer st s : dealerSocket st = None -> isDealer st s = false.
Proof. unfold isDealer. by intros ->. Qed.

Lemma spinning_timers_handle reg st s e :
  (forall cr r, e <> Spin cr r) ->
  spinning (handle reg st s e) = spinning st /\ timers (handle reg st s e) = timers st.
Proof.
  intros H. destruct e; unfold handle; try (by destruct st; crush_handler).
  by destruct (H clientRandoms r).
Qed.

(** X12.  When [users.txt] cannot be read, or names no user Dealer, there
    is never a dealer: the window never opens, no bet and no weight is ever
    recorded and no spin ever takes place, whatever the sockets send. *)
Theorem no_dealer_code_no_game reg st :
  DEALER_CODE reg = None -> Reachable reg st ->
  dealerSocket st = None /\ betsOpen st = false /\ selections st = []
  /\ weightBySocket st = ∅ /\ lastSpinResult st = None
  /\ spinning st = false /\ timers st = 0%nat.
Proof.
  intros Hreg [U Hr].
  induction Hr as [|used st s Hr IH Hfresh Hne|used st s e Hr IH Hlive Hrand|used st Hr IH Ht];
    try done.
  - destruct IH as (I1 & I2 & I3 & I4 & I5 & I6 & I7).
    pose proof (isDealer_no_dealer st s I1) as Hd.
    split; [|split; [|split; [|split; [|split]]]].
    + rewrite dealerSocket_handle. destruct e; try done.
      * by rewrite joinGrants_eq, (mayGrant_no_code _ _ _ Hreg), andb_false_r.
      * by rewrite (mayGrant_no_code _ _ _ Hreg).
      * by rewrite Hd.
    + rewrite betsOpen_handle. destruct e; rewrite ?Hd; done.
    + rewrite selections_handle. destruct e; rewrite ?I2, ?I3; done.
    + rewrite weightBySocket_handle. destruct e; rewrite ?Hd; done.
    + rewrite lastSpinResult_handle. destruct e; rewrite ?Hd; done.
    + assert (spinning (handle reg st s e) = spinning st
              /\ timers (handle reg st s e) = timers st) as [-> ->]; [|done].
      destruct e; try (apply spinning_timers_handle; done).
      unfold handle, spin. by rewrite Hd.
  - destruct IH as (_ & _ & _ & _ & _ & _ & I7). lia.
Qed.

Lemma no_dealer_code_no_game_witness :
  dealerSocket (run (loadUsers None) emptySpinTrace) = None
  /\ betsOpen (run (loadUsers None) emptySpinTrace) = false
  /\ selections (run (loadUsers None) emptySpinTrace) = []
  /\ weightBySocket (run (loadUsers None) emptySpinTrace) = ∅
  /\ lastSpinResult (run (loadUsers None) emptySpinTrace) = None
  /\ spinning (run (loadUsers None) emptySpinTrace) = false
  /\ timers (run (loadUsers None) emptySpinTrace) = 0%nat.
Proof.
  apply (no_dealer_code_no_game (loadUsers None) (run (loadUsers None) emptySpinTrace)).
  - reflexivity.
  - apply run_reachable. vm_compute. reflexivity.
Defined.

(* ===================================================================== *)
(** ** [POST /verify-code] and [join] *)
(* ===================================================================== *)

Lemma socketData_join reg st s ident :
  sockets (join reg st s ident) !! s = Some (socketData (join reg st s ident) s).
Proof.
  unfold socketData. destruct (sockets (join reg st s ident) !! s) eqn:E; [done|].
  assert (is_Some (sockets (join reg st s ident) !! s)) as [? ?]; [|congruence].
  apply sockets_join. by left.
Qed.

Lemma socketData_join_eq reg st s c :
  socketData (join reg st s c) s
  = if isCode c then
      match usersByCode reg !! c with
      | Some name =>
          if truthyS name then SockData (Some name) (Some c)
          else SockData (Some "Unknown"%string) (data_code (socketData st s))
      | None => SockData (Some "Unknown"%string) (data_code (socketData st s))
      end
    else SockData (Some c) (data_code (socketData st s)).
Proof.
  unfold join. set (d := socketData st s). unfold socketData.
  destruct (isCode c); [destruct (usersByCode reg !! c) as [name|]; [destruct (truthyS name)|]|];
    simpl;
    repeat match goal with
           | |- context [match ?x with Some _ => _ | None => _ end] =>
               lazymatch x with
               | lookup _ _ => fail
               | _ => destruct x
               end
           | |- context [if ?x then _ else _] => destruct x
           end; simpl; by rewrite lookup_insert_eq.
Qed.

Lemma join_registered reg st s c name :
  isCode c = true -> usersByCode reg !! c = Some name -> truthyS name = true ->
  socketData (join reg st s c) s = SockData (Some name) (Some c)
  /\ oget (connectedSockets (join reg st s c)) s = Some (ConnInfo (Some name) (Some c))
  /\ usersStatus (join reg st s c) !! c = Some (Status true (Some s)).
Proof.
  intros Hc Hn Ht. split; [by rewrite socketData_join_eq, Hc, Hn, Ht|].
  assert (truthyS c = true) as Hne.
  { apply truthyS_true. intros ->. done. }
  unfold join. rewrite Hc, Hn, Ht. simpl. rewrite Hne. simpl.
  rewrite !lookup_insert_eq. split; [|done].
  destruct (mayGrant reg st (Js.VStr c)); simpl; apply oget_oset_eq.
Qed.

Lemma join_guest reg st s c :
  match usersByCode reg !! c with Some name => isCode c && truthyS name | None => false end
  = false ->
  data_name (socketData (join reg st s c) s)
  = Some (if isCode c then "Unknown"%string else c)
  /\ data_code (socketData (join reg st s c) s) = data_code (socketData st s).
Proof.
  intros H. rewrite socketData_join_eq.
  destruct (isCode c); [|done].
  destruct (usersByCode reg !! c) as [name|]; [|done].
  simpl in H. by rewrite H.
Qed.

(** X13.  [join] binds a socket to a registered user exactly for the
    identifiers that [/verify-code] accepts as they are.  An identifier
    that [/verify-code] answers with 200 binds the socket to that code and
    that name when it has no white space around; with white space around
    ([/verify-code] trims, [join] does not) it is taken as a display name.
    An identifier that [/verify-code] refuses leaves the code of the socket
    as it was. *)
Theorem verified_code_joins reg st s c :
  (forall name, verifyCode reg (Js.VStr c) = (200%nat, Some name) ->
     (Js.trim c = c ->
        socketData (join reg st s c) s = SockData (Some name) (Some c)
        /\ oget (connectedSockets (join reg st s c)) s = Some (ConnInfo (Some name) (Some c))
        /\ usersStatus (join reg st s c) !! c = Some (Status true (Some s)))
     /\ (Js.trim c <> c ->
        data_name (socketData (join reg st s c) s) = Some c
        /\ data_code (socketData (join reg st s c) s) = data_code (socketData st s)))
  /\ (fst (verifyCode reg (Js.VStr c)) <> 200%nat ->
      data_name (socketData (join reg st s c) s)
      = Some (if isCode c then "Unknown"%string else c)
      /\ data_code (socketData (join reg st s c) s) = data_code (socketData st s)).
Proof.
  split.
  - intros name. unfold verifyCode.
    destruct (truthyS c) eqn:Hne; [|done]. simpl.
    destruct (isCode (Js.trim c)) eqn:Hc; [|done]. simpl.
    destruct (usersByCode reg !! Js.trim c) as [n|] eqn:Hn; [|done].
    destruct (truthyS n) eqn:Ht; [|done]. intros [= <-]. split.
    + intros E. rewrite E in Hc, Hn. by apply join_registered.
    + intros E. assert (isCode c = false) as Hc'.
      { destruct (isCode c) eqn:Hc'; [|done]. by apply isCode_trim in Hc'. }
      pose proof (join_guest reg st s c) as Hg. rewrite Hc' in Hg. apply Hg.
      by destruct (usersByCode reg !! c).
  - intros H. apply join_guest.
    destruct (usersByCode reg !! c) as [name|] eqn:Hn; [|done].
    destruct (isCode c) eqn:Hc; [|done]. simpl.
    destruct (truthyS name) eqn:Ht; [|done]. exfalso. apply H.
    unfold verifyCode. rewrite (isCode_trim c Hc), Hc, Hn, Ht.
    assert (truthyS c = true) as ->; [|done].
    apply truthyS_true. intros ->. done.
Qed.

Lemma verified_code_joins_witness :
  socketData (join demoRegistry (run demoRegistry openTrace) "p" "100002") "p"
  = SockData (Some "Alice"%string) (Some "100002"%string)
  /\ oget (connectedSockets (join demoRegistry (run demoRegistry openTrace) "p" "100002")) "p"
     = Some (ConnInfo (Some "Alice"%string) (Some "100002"%string))
  /\ usersStatus (join demoRegistry (run demoRegistry openTrace) "p" "100002") !! "100002"%string
     = Some (Status true (Some "p"%string)).
Proof.
  apply (proj1 (proj1 (verified_code_joins demoRegistry (run demoRegistry openTrace)
                         "p"%string "100002"%string) "Alice"%string eq_refl)).
  vm_compute. reflexivity.
Defined.

(* ===================================================================== *)
(** ** The previous version of the server *)
(* ===================================================================== *)

Lemma legacy_classify bet win : Legacy.classify bet win = Legacy.demote (classify bet win).
Proof.
  unfold Legacy.classify, classify.
  destruct (Js.seq (normalizeBet bet) (Js.VNum win)); [done|].
  destruct (Js.seq (normalizeBet bet) (Js.VStr "red")) eqn:Er;
    destruct (Js.seq (normalizeBet bet) (Js.VStr "black")) eqn:Eb; simpl.
  - apply seq_VStr in Er. apply seq_VStr in Eb. congruence.
  - apply seq_VStr in Er. rewrite Er. by destruct (isRed win).
  - apply seq_VStr in Eb. rewrite Eb. by destruct (isBlack win).
  - destruct (normalizeBet bet); try done.
    by destruct ((isRed x && isRed win) || (isBlack x && isBlack win)).
Qed.

Lemma legacy_results (sel : odict selection) win c : forall o1 o2 : odict outcome,
  (forall k, oget o2 k = Legacy.demote <$> oget o1 k) ->
  oget (fold_left (fun res e => oset res (fst e) (Legacy.classify (sel_bet (snd e)) win))
          sel o2) c
  = Legacy.demote
      <$> oget (fold_left (fun res e => oset res (fst e) (classify (sel_bet (snd e)) win))
                  sel o1) c.
Proof.
  induction sel as [|e sel IH]; intros o1 o2 H; simpl; [apply H|].
  apply IH. intros k. rewrite !oget_oset. destruct (String.eqb (fst e) k); [|apply H].
  simpl. by rewrite legacy_classify.
Qed.

(** X14.  The previous version of the server classifies a bet as the
    present one does, except that a colour bet on the winning colour scores
    COLOR where the present version says COLOR_ONLY.  And when no bet of the
    ledger covers a number of the wheel, a spin of the present version that
    commits draws the winning number of the previous version,
    [floor(avg * 37)], and gives every socket the same result. *)
Theorem previous_version_agrees sel w cr r :
  (forall bet win, Legacy.classify bet win = Legacy.demote (classify bet win))
  /\ (forall res, computeSpin sel w cr r = Some res -> anyBetOnWheel sel = false ->
        winningNumber res = winningNumber (Legacy.computeSpin sel cr)
        /\ forall c, oget (results (Legacy.computeSpin sel cr)) c
                     = Legacy.demote <$> oget (results res) c).
Proof.
  split; [apply legacy_classify|].
  intros res Hres Hany.
  destruct (computeSpin_Some _ _ _ _ _ Hres) as (b & Hb & Hwin & Hr).
  destruct (classifyBets_spec sel w b Hb) as [Hflags _].
  unfold anyBetOnWheel in Hany. rewrite Hany in Hflags.
  assert (winningNumber res = floor37 (average cr)) as E.
  { rewrite Hwin. unfold selectWinner. by rewrite Hflags. }
  split; [done|].
  intros c. rewrite Hr, E. unfold Legacy.computeSpin, spinResults. simpl.
  by apply legacy_results.
Qed.

Lemma previous_version_agrees_witness :
  exists res,
    computeSpin [("p"%string, Selection None (Js.VStr "purple"))] ∅ [(1 # 2)%Q] (1 # 2)
    = Some res
    /\ winningNumber res
       = winningNumber (Legacy.computeSpin
                          [("p"%string, Selection None (Js.VStr "purple"))] [(1 # 2)%Q]).
Proof.
  eexists. split; [reflexivity|].
  apply (proj2 (previous_version_agrees
                  [("p"%string, Selection None (Js.VStr "purple"))] ∅ [(1 # 2)%Q] (1 # 2))
           _ eq_refl eq_refl).
Defined.

(* ===================================================================== *)
(** ** The client *)
(* ===================================================================== *)

(** *** Colours and slices *)

Lemma client_has n : Client.has n = isRed n.
Proof. reflexivity. Qed.

Lemma indexFrom_bound l n : forall i k, Client.indexFrom i l n = Some k ->
  (i <= k < i + length l)%nat /\ Js.num_seq (Js.ofZ (nth (k - i) l 0%Z)) n = true.
Proof.
  induction l as [|z l IH]; intros i k; cbn [Client.indexFrom length]; [done|].
  destruct (Js.num_seq (Js.ofZ z) n) eqn:E.
  - intros Hk. injection Hk as Hk. subst k. rewrite Nat.sub_diag. split; [lia|done].
  - intros H. apply IH in H as [Hk Hn]. split; [lia|].
    replace (k - i)%nat with (S (k - S i)) by lia. done.
Qed.

(** X15.  The wheel the client draws is the wheel of the server: [getColor]
    paints a number red, black or green exactly when the server has it as
    red, black or zero; each of the numbers 0..36 is found on exactly the
    slice that carries it; and a winning number that is not one of 0..36
    is found on no slice, so that [animateToNumber] does not turn the
    wheel for it. *)
Theorem client_wheel_is_the_server_wheel :
  (forall n, (Client.getColor n = "#FF0000"%string <-> isRed n = true)
             /\ (Client.getColor n = "#000000"%string <-> isBlack n = true)
             /\ (Client.getColor n = "#008b0f"%string <-> Js.num_seq n (Js.ofZ 0) = true))
  /\ (forall z, (0 <= z <= 36)%Z ->
        exists i, Client.indexOf Client.options (Js.ofZ z) = Some i
                  /\ nth i Client.options 0%Z = z)
  /\ (forall n i, Client.indexOf Client.options n = Some i ->
        (i < 37)%nat /\ (0 <= nth i Client.options 0 <= 36)%Z
        /\ Js.num_seq (Js.ofZ (nth i Client.options 0%Z)) n = true).
Proof.
  split; [|split].
  - intros n. unfold Client.getColor, isBlack. rewrite client_has.
    destruct (Js.num_seq n (Js.ofZ 0)) eqn:E0; simpl.
    + assert (isRed n = false) as ->.
      { destruct n as [| |q]; try done. simpl in E0. apply Qeq_bool_iff in E0.
        rewrite (isRed_Qeq q 0 E0). reflexivity. }
      repeat split; intros; done.
    + destruct (isRed n); simpl; repeat split; intros; done.
  - intros z Hz.
    assert (In z (map Z.of_nat wheel)) as Hin.
    { apply in_map_iff. exists (Z.to_nat z). split; [lia|].
      apply in_seq. lia. }
    assert (List.Forall (fun z => exists i, Client.indexOf Client.options (Js.ofZ z) = Some i
                                       /\ nth i Client.options 0%Z = z)
                        (map Z.of_nat wheel)) as Hall.
    { unfold wheel. cbn [List.seq map].
      repeat (apply List.Forall_cons; [eexists; split; reflexivity|]). apply List.Forall_nil. }
    by apply (proj1 (List.Forall_forall _ _) Hall).
  - intros n i H. apply indexFrom_bound in H as [Hi Hn]. rewrite Nat.sub_0_r in Hn.
    split; [simpl in Hi; lia|]. split; [|done].
    assert (List.Forall (fun z => (0 <= z <= 36)%Z) Client.options) as Ha.
    { unfold Client.options. repeat (apply List.Forall_cons; [lia|]). apply List.Forall_nil. }
    apply (proj1 (List.Forall_forall _ _) Ha). apply nth_In. simpl in Hi. simpl. lia.
Qed.

(** *** The animation *)




Lemma arc_pos : (0 < Client.arc)%Q.
Proof. reflexivity. Qed.






(** *** The leaderboard on the dealer's screen *)

Lemma liveBet_defined st s : Js.seq (liveBet st s) Js.VUndefined = false.
Proof.
  unfold liveBet. destruct (oget (selections st) s) as [e|]; [|done].
  by destruct (sel_bet e).
Qed.

Lemma ready_oset (o : odict row) k v :
  Client.ready o = true -> Js.seq (row_bet v) Js.VUndefined = false ->
  Client.ready (oset o k v) = true.
Proof.
  unfold Client.ready. intros Ho Hv. induction o as [|[k' v'] o IH]; simpl.
  - by rewrite Hv.
  - simpl in Ho. apply andb_true_iff in Ho as [H1 H2].
    destruct (String.eqb k' k); simpl.
    + by rewrite Hv.
    + by rewrite H1, (IH H2).
Qed.

Lemma ready_emitLeaderboard reg st : Client.ready (emitLeaderboard reg st) = true.
Proof.
  unfold emitLeaderboard.
  assert (forall l o, Client.ready o = true ->
            Client.ready (fold_left (registeredRow reg st) l o) = true) as H1.
  { induction l as [|c l IH]; intros o Ho; [done|]. simpl. apply IH.
    unfold registeredRow.
    destruct (socketId _) as [s|]; [destruct (_ && _)|]; apply ready_oset; try done.
    apply liveBet_defined. }
  assert (forall (l : list (sid * conninfo)) o, Client.ready o = true ->
            Client.ready (fold_left (fun ordered e =>
                            oset ordered (fst e) (liveRow st (fst e) (ci_name (snd e))))
                            l o) = true) as H2.
  { induction l as [|c l IH]; intros o Ho; [done|]. simpl. apply IH.
    apply ready_oset; [done|apply liveBet_defined]. }
  apply H2, H1. done.
Qed.

(** X18.  Every leaderboard the server sends gives each row a bet that is
    not undefined (null when the player has none): the test [ready] of
    [updateSpinButton] holds for each of them, so the client never holds
    the spin button back for a player who has not bet. *)
Theorem leaderboard_rows_are_ready reg st :
  Client.ready (emitLeaderboard reg st) = true
  /\ (forall s e d o, In (d, Leaderboard o) (emits reg st s e) -> Client.ready o = true).
Proof.
  split; [apply ready_emitLeaderboard|].
  intros s e d o H. apply emitted_Leaderboard in H as ->. apply ready_emitLeaderboard.
Qed.

(** *** Logging in *)

Lemma verifyCode_ok reg c name :
  verifyCode reg (Js.VStr c) = (200%nat, Some name) ->
  isCode (Js.trim c) = true /\ usersByCode reg !! Js.trim c = Some name
  /\ truthyS name = true.
Proof.
  unfold verifyCode. destruct (truthyS c); [|done]. simpl.
  destruct (isCode (Js.trim c)); [|done]. simpl.
  destruct (usersByCode reg !! Js.trim c) as [n|]; [|done].
  destruct (truthyS n) eqn:E; [|done]. by intros [= <-].
Qed.

Lemma client_verifyCode reg online c :
  truthyO (Client.verifyCode reg online c) = true ->
  exists name, verifyCode reg (Js.VStr c) = (200%nat, Some name).
Proof.
  unfold Client.verifyCode. destruct online; [|done]. cbv zeta.
  unfold verifyCode. destruct (truthyS c); [|done]. cbn [negb].
  destruct (isCode (Js.trim c)); [|done]. cbn [negb].
  destruct (usersByCode reg !! Js.trim c) as [n|]; [|done].
  destruct (truthyS n); [|done]. intros _. by exists n.
Qed.

Lemma promptLoop_code reg inputs c :
  Client.promptLoop reg inputs = Some c ->
  isCode c = true /\ exists name, verifyCode reg (Js.VStr c) = (200%nat, Some name).
Proof.
  induction inputs as [|[[typed|] online] rest IH]; simpl; try done.
  destruct (truthyS typed); simpl; [|done].
  destruct (isCode (Js.trim typed)) eqn:Hc; simpl; [|done].
  destruct (truthyO (Client.verifyCode reg online (Js.trim typed))) eqn:Hv; [|done].
  intros [= <-]. split; [done|]. by apply (client_verifyCode reg online).
Qed.

(** X19.  Whatever the cookie holds and whatever is typed, the identifier
    that [doLogin] sends with [join] is one that [/verify-code] has
    answered with 200: the cookie as it is, or six digits typed at the
    prompt.  When it consists of six digits, [join] binds the socket to
    this code and to the name of the answer, so a code typed at the prompt
    never joins as a guest or as Unknown. *)
Theorem login_sends_a_verified_code reg cookie online inputs c :
  Client.doLogin reg cookie online inputs = Some c ->
  exists name,
    verifyCode reg (Js.VStr c) = (200%nat, Some name)
    /\ (cookie = Some c \/ isCode c = true)
    /\ (isCode c = true ->
        forall st s, socketData (join reg st s c) s = SockData (Some name) (Some c)).
Proof.
  intros H.
  assert ((cookie = Some c \/ isCode c = true)
          /\ exists name, verifyCode reg (Js.VStr c) = (200%nat, Some name))
    as [Hfrom [name Hname]].
  { unfold Client.doLogin in H. destruct cookie as [code|].
    - destruct (truthyS code && truthyO (Client.verifyCode reg online code)) eqn:E.
      + injection H as <-. apply andb_true_iff in E as [_ E].
        split; [by left|]. by apply (client_verifyCode reg online).
      + apply promptLoop_code in H as [? ?]. split; [by right|done].
    - apply promptLoop_code in H as [? ?]. split; [by right|done]. }
  exists name. split; [done|]. split; [done|].
  intros Hc st s. destruct (verifyCode_ok reg c name Hname) as (_ & Hn & Ht).
  rewrite (isCode_trim c Hc) in Hn. by apply join_registered.
Qed.

Lemma login_sends_a_verified_code_witness :
  exists name,
    verifyCode demoRegistry (Js.VStr "100002") = (200%nat, Some name)
    /\ (Some " 100009"%string = Some "100002"%string \/ isCode "100002" = true)
    /\ (isCode "100002" = true ->
        forall st s, socketData (join demoRegistry st s "100002") s
                     = SockData (Some name) (Some "100002"%string)).
Proof.
  apply (login_sends_a_verified_code demoRegistry (Some " 100009"%string) true
           [(None, true); (Some "12345"%string, true); (Some "100002"%string, false);
            (Some " 100002 "%string, true)]).
  vm_compute. reflexivity.
Defined.

(** *** The dealer's page *)







(** *** A table of pages *)

(** What the page sends as a bet is a bet the spin can file. *)
Lemma selects_indexable bet :
  existsb (Js.seq bet) Client.selects = true -> indexable bet = true.
Proof.
  intros H. apply existsb_exists in H as (v & Hin & Hv).
  unfold Client.selects in Hin. apply in_app_or in Hin as [Hin|Hin].
  - apply in_map_iff in Hin as (i & <- & Hi). apply in_seq in Hi.
    destruct bet as [| | |x| |]; try done. destruct x as [| |q]; try done.
    simpl in Hv. apply Qeq_bool_iff in Hv.
    unfold indexable. simpl.
    assert (Qfloor q = Z.of_nat i) as Hfl.
    { rewrite (Qfloor_comp _ _ Hv). apply Qfloor_Z. }
    unfold isInteger. rewrite Hfl.
    rewrite (proj2 (Qeq_bool_iff _ _) Hv). by destruct (_ && _).
  - destruct Hin as [<-|[<-|[<-|[]]]].
    + apply seq_VStr in Hv as ->. vm_compute. reflexivity.
    + apply seq_VStr in Hv as ->. vm_compute. reflexivity.
    + by destruct bet.
Qed.

Lemma forallb_oset {V} (P : V -> bool) (o : odict V) k v :
  forallb (fun e => P (snd e)) o = true -> P v = true ->
  forallb (fun e => P (snd e)) (oset o k v) = true.
Proof.
  intros Ho Hv. induction o as [|[k' v'] o IH]; simpl.
  - by rewrite Hv.
  - simpl in Ho. apply andb_true_iff in Ho as [H1 H2].
    destruct (String.eqb k' k); simpl.
    + by rewrite Hv.
    + by rewrite H1, (IH H2).
Qed.

Lemma forallb_odel {V} (P : string * V -> bool) (o : odict V) k :
  forallb P o = true -> forallb P (odel o k) = true.
Proof.
  intros Ho. induction o as [|[k' v'] o IH]; simpl; [done|].
  simpl in Ho. apply andb_true_iff in Ho as [H1 H2].
  destruct (String.eqb k' k); simpl; [by apply IH|]. by rewrite H1, (IH H2).
Qed.

(** Whatever the ledger holds, a winner drawn with [Math.random()] and an
    average of client randoms in [0, 1) is a number of the wheel. *)
Lemma selectWinner_onWheel sel w b a r :
  classifyBets emptyBuckets sel = Some b ->
  (0 <= a)%Q -> (a < 1)%Q -> (0 <= r)%Q -> (r < 1)%Q ->
  onWheel (selectWinner b w (Js.Fin a) r).
Proof.
  intros Hb Ha0 Ha1 H0 H1. unfold selectWinner.
  destruct (anyNumeric b || anyColor b); [|by apply floor37_onWheel].
  destruct (0 <? length (highWeightNumbers b w))%nat eqn:Ehw.
  - rewrite highWeightNumbers_table in *.
    assert (exists n, (n <= 36)%nat /\ (0 < highCount b w n)%nat) as Hsome.
    { destruct (table (highCount b w) wheel) as [|[k c] t] eqn:Et; [done|].
      assert (In k (map fst (table (highCount b w) wheel))) as Hin by (rewrite Et; by left).
      apply table_keys in Hin as [Hk Hc]. apply in_seq in Hk. exists k. split; [lia|done]. }
    destruct (drawHigh_covered (highCount b w) r Hsome) as (n & Hn & -> & _).
    by exists n.
  - pose proof (normal_total sel w b Hb) as Htot.
    destruct (Qle_bool (sumQ (weights b w)) 0) eqn:Et.
    + unfold drawNormal. rewrite Et. by apply floor37_onWheel.
    + apply Qle_bool_false in Et. rewrite Htot in Et.
      by apply (drawNormal_onWheel sel w b (Js.Fin a) r Hb Et H0 H1).
Qed.

Lemma average_one x : exists a, average [x] = Js.Fin a /\ (a == x)%Q.
Proof.
  eexists. split; [reflexivity|]. unfold sumQ. simpl. field.
Qed.

Lemma fair_spin sel w x r :
  forallb (fun e => existsb (Js.seq (sel_bet (snd e))) Client.selects) sel = true ->
  (0 <= x)%Q -> (x < 1)%Q -> (0 <= r)%Q -> (r < 1)%Q ->
  exists res, computeSpin sel w [x] r = Some res /\ onWheel (winningNumber res).
Proof.
  intros Hsel Hx0 Hx1 H0 H1.
  destruct (computeSpin_total sel w [x] r) as [res Hres].
  { apply forallb_forall. intros e He. apply selects_indexable.
    by apply (proj1 (forallb_forall _ _) Hsel). }
  exists res. split; [done|].
  destruct (computeSpin_Some _ _ _ _ _ Hres) as (b & Hb & -> & _).
  destruct (average_one x) as (a & -> & Ha).
  apply (selectWinner_onWheel sel); try done; lra.
Qed.

Lemma fair_run reg tr : forall st,
  forallb (fun e => existsb (Js.seq (sel_bet (snd e))) Client.selects) (selections st) = true ->
  (forall res, lastSpinResult st = Some res -> onWheel (winningNumber res)) ->
  forallb Client.fair tr = true ->
  forallb (fun e => existsb (Js.seq (sel_bet (snd e))) Client.selects)
          (selections (fold_left (perform reg) tr st)) = true
  /\ (forall res, lastSpinResult (fold_left (perform reg) tr st) = Some res ->
        onWheel (winningNumber res)).
Proof.
  induction tr as [|a tr IH]; intros st Hs Hl Hf; [done|].
  simpl in Hf. apply andb_true_iff in Hf as [Ha Hf]. simpl.
  apply IH; [| |done]; destruct a as [s|s e|]; try done; simpl.
  - rewrite selections_handle. destruct e; try done.
    + by apply forallb_odel.
    + case_match; [|done]. simpl in Ha. rewrite andb_true_r in Ha.
      by apply (forallb_oset (fun e => existsb (Js.seq (sel_bet e)) Client.selects)).
  - intros res. rewrite lastSpinResult_handle. destruct e; try apply Hl.
    destruct (isDealer st s && negb (spinning st)); [|apply Hl].
    simpl in Ha. apply andb_true_iff in Ha as [Hx Hr].
    destruct clientRandoms as [|x [|]]; try done.
    apply andb_true_iff in Hx as [Hx0 Hx1]. apply andb_true_iff in Hr as [Hr0 Hr1].
    apply Qle_bool_iff in Hx0, Hr0. apply negb_true_iff, Qle_bool_false in Hx1, Hr1.
    destruct (fair_spin (selections st) (weightBySocket st) x r Hs Hx0 Hx1 Hr0 Hr1)
      as (res' & -> & Hon).
    by intros [= <-].
Qed.

(** X21.  At a table where every bet comes from the page (a cell of the
    table, a colour button or the clear button) and every spin carries
    [[Math.random()]], every bet in the ledger is one of the values the
    page sends, every spin of the dealer commits (the filing of the bets
    does not throw), and every spin result is a number of 0..36. *)
Theorem fair_play_stays_on_the_wheel reg tr :
  forallb Client.fair tr = true ->
  (forall t e, oget (selections (run reg tr)) t = Some e ->
     existsb (Js.seq (sel_bet e)) Client.selects = true)
  /\ (forall res, lastSpinResult (run reg tr) = Some res -> onWheel (winningNumber res))
  /\ (forall s x r, isDealer (run reg tr) s = true -> spinning (run reg tr) = false ->
        (0 <= x)%Q -> (x < 1)%Q -> (0 <= r)%Q -> (r < 1)%Q ->
        exists res, lastSpinResult (spin (run reg tr) s [x] r) = Some res
                    /\ onWheel (winningNumber res)).
Proof.
  intros Hf. destruct (fair_run reg tr (initial reg)) as [Hs Hl]; try done.
  fold (run reg tr) in Hs, Hl. split; [|split; [done|]].
  - intros t e He. apply oget_In in He.
    by apply (proj1 (forallb_forall _ _) Hs (t, e)).
  - intros s x r Hd Hsp Hx0 Hx1 Hr0 Hr1.
    destruct (fair_spin (selections (run reg tr)) (weightBySocket (run reg tr)) x r
                Hs Hx0 Hx1 Hr0 Hr1) as (res & Hres & Hon).
    exists res. split; [|done]. by apply spin_commits.
Qed.

Lemma fair_play_stays_on_the_wheel_witness :
  (forall t e, oget (selections (run demoRegistry fairTrace)) t = Some e ->
     existsb (Js.seq (sel_bet e)) Client.selects = true)
  /\ (forall res, lastSpinResult (run demoRegistry fairTrace) = Some res ->
        onWheel (winningNumber res))
  /\ (forall s x r, isDealer (run demoRegistry fairTrace) s = true ->
        spinning (run demoRegistry fairTrace) = false ->
        (0 <= x)%Q -> (x < 1)%Q -> (0 <= r)%Q -> (r < 1)%Q ->
        exists res, lastSpinResult (spin (run demoRegistry fairTrace) s [x] r) = Some res
                    /\ onWheel (winningNumber res)).
Proof.
  apply (fair_play_stays_on_the_wheel demoRegistry fairTrace).
  vm_compute. reflexivity.
Defined.

(* ===================================================================== *)
(** ** The normalisation of the bets *)
(* ===================================================================== *)

(** *** Decimal numerals *)








(** *** Colour names *)







(** A bet sent as the string 17 with blanks, and a bet on Red. *)
Example normalised_bets :
  classify (Js.VStr " 17 ") (Js.ofZ 17) = WIN
  /\ classify (Js.VStr " Red ") (Js.ofZ 19) = COLOR_ONLY
  /\ decimal 17 = "17"%string.
Proof. vm_compute. repeat split; reflexivity. Qed.

(* ===================================================================== *)
(** ** The leaderboard at a table of pages *)
(* ===================================================================== *)

Lemma join_writes reg st s c :
  sockets (join reg st s c) = <[s := socketData (join reg st s c) s]> (sockets st)
  /\ connectedSockets (join reg st s c)
     = oset (connectedSockets st) s
         (ConnInfo (data_name (socketData (join reg st s c) s))
            (if truthyO (data_code (socketData (join reg st s c) s))
             then data_code (socketData (join reg st s c) s) else None))
  /\ usersStatus (join reg st s c)
     = match data_code (socketData (join reg st s c) s) with
       | Some code =>
           if truthyS code then <[code := Status true (Some s)]> (usersStatus st)
           else usersStatus st
       | None => usersStatus st
       end.
Proof.
  rewrite socketData_join_eq. unfold join. set (d := socketData st s).
  destruct (isCode c); [destruct (usersByCode reg !! c) as [name|]; [destruct (truthyS name)|]|];
    simpl;
    repeat match goal with
           | |- context [match ?x with Some _ => _ | None => _ end] =>
               lazymatch x with
               | lookup _ _ => fail
               | _ => destruct x
               end
           | |- context [if ?x then _ else _] => destruct x
           end; simpl; done.
Qed.

Lemma disconnect_writes st s :
  connectedSockets (disconnect st s) = odel (connectedSockets st) s
  /\ (forall c x t, usersStatus (disconnect st s) !! c = Some (Status x (Some t)) ->
        usersStatus st !! c = Some (Status x (Some t))).
Proof.
  split; [by destruct st; crush_handler|].
  intros c x t. unfold disconnect.
  destruct (data_code (socketData st s)) as [code|]; simpl;
    [destruct (truthyS code); simpl|]; try (by destruct (isDealer st s)).
  assert (forall u : gmap string status,
            match u !! code with
            | Some _ => <[code := Status false None]> u
            | None => u
            end !! c = Some (Status x (Some t)) -> u !! c = Some (Status x (Some t))) as H.
  { intros u. destruct (u !! code) eqn:E; [|done].
    destruct (decide (code = c)) as [->|Hne]; [by rewrite lookup_insert_eq|].
    by rewrite lookup_insert_ne. }
  destruct (isDealer st s); simpl; intros Hc; apply H; revert Hc;
    by repeat case_match.
Qed.

Lemma data_keep reg st s e :
  (forall identifier, e <> Join identifier) -> e <> Disconnect ->
  sockets (handle reg st s e) = sockets st
  /\ usersStatus (handle reg st s e) = usersStatus st.
Proof.
  intros Hj Hd. destruct e; try done; unfold handle; try (by destruct st; crush_handler).
  by destruct (Hj identifier).
Qed.

Lemma pagesInv_initial reg : pagesInv (initial reg) [].
Proof.
  unfold pagesInv, initial, socketData. simpl. repeat split.
  - intros s H. rewrite lookup_empty in H. by destruct H.
  - by apply elem_of_nil in H.
  - by apply elem_of_nil in H.
  - intros c x s H. rewrite initial_status in H. rewrite lookup_empty in H.
    by destruct (existsb (String.eqb c) (usersOrder reg)).
  - intros c s info H. rewrite initial_status in H. rewrite lookup_empty in H.
    by destruct (existsb (String.eqb c) (usersOrder reg)).
  - intros s H. rewrite lookup_empty in H. by destruct H.
Qed.

Lemma pagesInv_connect st J s :
  String.prefix "u:" s = false -> pagesInv st J -> pagesInv (connect st s) J.
Proof.
  intros Hs (P & A & B & C & D).
  assert (connectedSockets (connect st s) = connectedSockets st) as Ec by by destruct st.
  assert (usersStatus (connect st s) = usersStatus st) as Eu by by destruct st.
  assert (sockets (connect st s) = <[s := SockData None None]> (sockets st)) as Es
    by by destruct st.
  unfold pagesInv. rewrite Ec, Eu. repeat split; try done.
  - intros t. rewrite Es, lookup_insert_is_Some. intros [<-|[_ H]]; [done|by apply P].
  - by apply A.
  - by apply A.
  - intros t. unfold socketData. rewrite Es.
    destruct (decide (s = t)) as [->|Hne].
    + rewrite lookup_insert_eq. simpl. by intros [? ?].
    + rewrite lookup_insert_ne by done. apply D.
Qed.

Lemma pagesInv_join reg st J s c :
  is_Some (sockets st !! s) -> ~ In s J ->
  pagesInv st J -> pagesInv (join reg st s c) (s :: J).
Proof.
  intros Hopen Hfresh (P & A & B & C & D).
  destruct (join_writes reg st s c) as (Es & Ec & Eu).
  assert (data_code (socketData st s) = None) as Hnone.
  { destruct (data_code (socketData st s)) eqn:E; [|done].
    destruct Hfresh. apply D. by rewrite E. }
  set (d := socketData (join reg st s c) s) in *.
  unfold pagesInv. repeat split.
  - intros t. rewrite Es, lookup_insert_is_Some. intros [<-|[_ H]]; by apply P.
  - rewrite Ec in H. apply okeys_oset in H as [->|H]; [by left|right; by apply A].
  - rewrite Ec in H. apply okeys_oset in H as [->|H]; [by apply P|by apply A].
  - intros k x t. rewrite Eu. destruct (data_code d) as [code|]; [destruct (truthyS code)|];
      try (intros H; right; by apply (B k x t)).
    destruct (decide (code = k)) as [->|Hne].
    + rewrite lookup_insert_eq. intros [= <- <-]. by left.
    + rewrite lookup_insert_ne by done. intros H; right; by apply (B k x t).
  - intros k t info. rewrite Eu, Ec.
    assert (usersStatus st !! k = Some (Status true (Some t)) ->
            oget (oset (connectedSockets st) s
                    (ConnInfo (data_name d) (if truthyO (data_code d) then data_code d else None))) t
            = Some info -> ci_code info = Some k) as Hold.
    { intros Hk. destruct (decide (t = s)) as [->|Hts].
      - destruct Hfresh. by apply (B k true s).
      - rewrite oget_oset_ne by done. by apply C. }
    destruct (data_code d) as [code|] eqn:Ed; [destruct (truthyS code) eqn:Et|]; try done.
    destruct (decide (code = k)) as [->|Hne].
    + rewrite lookup_insert_eq. intros [= <-]. rewrite oget_oset_eq. intros [= <-].
      simpl. by rewrite Et.
    + rewrite lookup_insert_ne by done. exact Hold.
  - intros t. unfold socketData at 1. rewrite Es.
    destruct (decide (s = t)) as [->|Hne]; [by left|].
    rewrite lookup_insert_ne by done. intros H. right. by apply D.
Qed.

Lemma pagesInv_disconnect st J s : pagesInv st J -> pagesInv (disconnect st s) J.
Proof.
  intros (P & A & B & C & D).
  destruct (disconnect_writes st s) as (Ec & Eu).
  assert (sockets (disconnect st s) = delete s (sockets st)) as Es
    by (by destruct st; crush_handler).
  unfold pagesInv. repeat split.
  - intros t. rewrite Es. intros H. apply lookup_delete_is_Some in H as [_ H]. by apply P.
  - rewrite Ec in H. apply okeys_odel in H. by apply A.
  - rewrite Ec in H. apply okeys_odel in H. by apply A.
  - intros k x t H. apply Eu in H. by apply (B k x t).
  - intros k t info H. apply Eu in H. rewrite Ec. destruct (decide (t = s)) as [->|Hts].
    + by rewrite oget_odel_eq.
    + rewrite oget_odel_ne by done. by apply C.
  - intros t. unfold socketData. rewrite Es. destruct (decide (s = t)) as [->|Hne].
    + rewrite lookup_delete_eq. simpl. by intros [? ?].
    + rewrite lookup_delete_ne by done. apply D.
Qed.

Lemma pagesInv_keep reg st J s e :
  (forall identifier, e <> Join identifier) -> e <> Disconnect ->
  pagesInv st J -> pagesInv (handle reg st s e) J.
Proof.
  intros Hj Hd H. destruct (data_keep reg st s e Hj Hd) as (Es & Eu).
  unfold pagesInv, socketData. by rewrite Es, Eu, (connectedSockets_keep reg st s e Hj Hd).
Qed.

Lemma pagesInv_timer st J : pagesInv st J -> pagesInv (spinTimer st) J.
Proof.
  assert (sockets (spinTimer st) = sockets st
          /\ usersStatus (spinTimer st) = usersStatus st
          /\ connectedSockets (spinTimer st) = connectedSockets st) as (Es & Eu & Ec)
    by (by destruct st; crush_handler).
  unfold pagesInv, socketData. by rewrite Es, Eu, Ec.
Qed.

Lemma pages_inv reg tr : forall used st J,
  pagesInv st J -> admissible reg used st tr = true -> pages J tr = true ->
  exists J', pagesInv (fold_left (perform reg) tr st) J'.
Proof.
  induction tr as [|a tr IH]; intros used st J Hinv Hadm Hp; [by exists J|].
  simpl in Hadm. destruct a as [s|s e|].
  - simpl in Hp. apply andb_true_iff in Hp as [Hs Hp]. apply negb_true_iff in Hs.
    apply andb_true_iff in Hadm as [_ Hadm].
    apply (IH (s :: used) _ J); [by apply pagesInv_connect|done|done].
  - apply andb_true_iff in Hadm as [Hc Hadm]. apply andb_true_iff in Hc as [Hlive _].
    apply bool_decide_eq_true in Hlive.
    destruct e;
      try (apply (IH used _ J); [by apply pagesInv_keep|done|done]).
    + simpl in Hp. apply andb_true_iff in Hp as [Hs Hp]. apply negb_true_iff in Hs.
      apply (IH used _ (s :: J)); [|done|done]. apply pagesInv_join; [done| |done].
      intros Hin. apply existsb_eqb_In in Hin. congruence.
    + apply (IH used _ J); [by apply pagesInv_disconnect|done|done].
  - apply andb_true_iff in Hadm as [_ Hadm].
    apply (IH used _ J); [by apply pagesInv_timer|done|done].
Qed.

Lemma pagesInv_consistent reg st J : pagesInv st J -> statusConsistent reg st /\ plainIds st.
Proof.
  intros (P & A & B & C & D). split.
  - intros code s _ Ha. pose proof Ha as Hb.
    apply activeSocket_connected in Hb as (_ & _ & info & Hi). exists info. split; [done|].
    unfold activeSocket in Ha. destruct (usersStatus st !! code) as [[[] [t|]]|] eqn:E; try done.
    destruct (truthyS t && bool_decide (is_Some (oget (connectedSockets st) t))); [|done].
    injection Ha as ->. by apply (C code s info).
  - intros s Hs. by apply A.
Qed.

(** X23.  At a table of pages, where every socket joins at most once and
    no socket id begins with u:, and with a registry that lists no code
    twice and no empty code, every leaderboard the server builds has one
    row for each registered user, in the order of the registry, followed by
    one row for each guest connection in the order of the lower-cased names;
    no key occurs twice, so no row overwrites another. *)
Theorem leaderboard_of_pages reg tr :
  NoDup (usersOrder reg) ->
  (forall code, In code (usersOrder reg) -> code <> EmptyString) ->
  admissible reg [] (initial reg) tr = true ->
  pages [] tr = true ->
  emitLeaderboard reg (run reg tr)
  = map (registeredEntry reg (run reg tr)) (usersOrder reg)
    ++ map (guestEntry (run reg tr)) (remaining (run reg tr))
  /\ NoDup (okeys (emitLeaderboard reg (run reg tr)))
  /\ Sorted nameLe (remaining (run reg tr))
  /\ registeredFirst reg (emitLeaderboard reg (run reg tr)).
Proof.
  intros Hnd Hne Hadm Hp.
  destruct (pages_inv reg tr [] (initial reg) [] (pagesInv_initial reg) Hadm Hp) as (J & Hinv).
  apply (pagesInv_consistent reg) in Hinv as (Hc & Hpl).
  destruct (leaderboard_rows reg (run reg tr) (run_reachable reg tr Hadm) Hnd Hne Hc Hpl)
    as (H1 & H2 & _ & H4 & H5).
  done.
Qed.

Lemma leaderboard_of_pages_witness :
  emitLeaderboard demoRegistry (run demoRegistry pagesTrace)
  = map (registeredEntry demoRegistry (run demoRegistry pagesTrace)) (usersOrder demoRegistry)
    ++ map (guestEntry (run demoRegistry pagesTrace)) (remaining (run demoRegistry pagesTrace))
  /\ NoDup (okeys (emitLeaderboard demoRegistry (run demoRegistry pagesTrace)))
  /\ Sorted nameLe (remaining (run demoRegistry pagesTrace))
  /\ registeredFirst demoRegistry (emitLeaderboard demoRegistry (run demoRegistry pagesTrace)).
Proof.
  apply (leaderboard_of_pages demoRegistry pagesTrace).
  - apply (bool_decide_unpack _). vm_compute. reflexivity.
  - intros code [<-|[<-|[<-|[]]]]; done.
  - vm_compute. reflexivity.
  - vm_compute. reflexivity.
Defined.

Example pages_board_example :
  emitLeaderboard demoRegistry (run demoRegistry pagesTrace)
  = [("d", Row (Some "Dealer") Js.VNull true (Some 1%Q));
     ("u:100002", Row (Some "Alice") Js.VNull false None);
     ("u:100003", Row (Some "Bob") Js.VNull false None);
     ("h", Row (Some "Amy") Js.VNull true (Some 1%Q));
     ("g", Row (Some "zed") (Js.VNum (Js.ofZ 17)) true (Some 1%Q))]%string.
Proof. vm_compute. reflexivity. Qed.
